(** * The crawler core of [src/crawler/crawl.py]

    A shallow embedding of the URL normalizer, the scope filter, the link
    extractor, the helpers of the persistence sink and the crawl loop, with
    the properties the specification states about them.

    Layout:
    - [PyStr]: Python [str] values and the [str] methods the code calls;
    - [Urllib]: the functions of [urllib.parse] that the code calls
      ([urlparse], [geturl], [urldefrag], [hostname]);
    - [Crawler]: the functions of [crawl.py];
    - [Scenario]: a site of three pages to run the crawler on;
    - [Utf8], [Sha256], [Sink], [Json], [Main]: the persistence sink, the
      log and the entry point of [crawl.py], with the codecs they call;
    - [HtmlToJson], [Download]: functions of the converter and of the two
      downloaders;
    - the properties, each stated for every environment and then shown on
      the site. *)

From Stdlib Require Import String Ascii NArith ZArith List Lia.
From stdpp Require Import gmap list sets.
Import ListNotations.

(** ** Python strings *)

Module PyStr.

(** A Python [str] is a sequence of Unicode code points. *)
Definition str : Type := list N.

(** A literal of the source, written as a Rocq string of ASCII characters. *)
Definition lit (s : string) : str := map N_of_ascii (list_ascii_of_string s).

Definition slash : N := 47.
Definition underscore : N := 95.
Definition colon : N := 58.
Definition semicolon : N := 59.
Definition hash : N := 35.
Definition question : N := 63.
Definition at_sign : N := 64.
Definition percent : N := 37.
Definition lbracket : N := 91.
Definition rbracket : N := 93.

Definition is_char (c : N) : N -> bool := N.eqb c.

Definition in_range (lo hi c : N) : bool := (lo <=? c)%N && (c <=? hi)%N.

(** [bool(s)]: a string is truthy when it is not empty. *)
Definition truthy {A} (s : list A) : bool :=
  match s with [] => false | _ :: _ => true end.

(** [a == b] on strings. *)
Definition str_eqb (a b : str) : bool := bool_decide (a = b).

(** [s.lstrip(chars)], with the set [chars] given as a predicate. *)
Fixpoint lstrip_by (p : N -> bool) (s : str) : str :=
  match s with
  | [] => []
  | c :: r => if p c then lstrip_by p r else s
  end.

(** [s.rstrip(chars)]: every trailing character of the set is removed. *)
Fixpoint rstrip_by (p : N -> bool) (s : str) : str :=
  match s with
  | [] => []
  | c :: r =>
      match rstrip_by p r with
      | [] => if p c then [] else [c]
      | r' => c :: r'
      end
  end.

(** [s.strip(chars)]. *)
Definition strip_by (p : N -> bool) (s : str) : str :=
  rstrip_by p (lstrip_by p s).

(** [s.endswith(c)] for a one-character suffix. *)
Fixpoint endswith_char (c : N) (s : str) : bool :=
  match s with
  | [] => false
  | [x] => is_char c x
  | _ :: r => endswith_char c r
  end.

(** [c in s]. *)
Definition contains (c : N) (s : str) : bool := existsb (is_char c) s.

(** [s.partition(c)]: the text before the first [c] and the text after it,
    or [None] when [c] does not occur ([s.split(c, 1)] when [c in s]). *)
Fixpoint cut_first (c : N) (s : str) : option (str * str) :=
  match s with
  | [] => None
  | x :: r =>
      if is_char c x then Some ([], r)
      else match cut_first c r with
           | Some (a, b) => Some (x :: a, b)
           | None => None
           end
  end.

(** [s.rpartition(c)[2]]: the text after the last [c], all of [s] when [c]
    does not occur. *)
Fixpoint after_last (c : N) (s : str) : str :=
  match s with
  | [] => []
  | x :: r => if contains c r then after_last c r
              else if is_char c x then r else s
  end.

(** The longest prefix without a character of the set, and the rest. *)
Fixpoint span_until (p : N -> bool) (s : str) : str * str :=
  match s with
  | [] => ([], [])
  | c :: r => if p c then ([], s)
              else let (a, b) := span_until p r in (c :: a, b)
  end.

Definition ascii_upper (c : N) : bool := in_range 65 90 c.
Definition ascii_lower (c : N) : bool := in_range 97 122 c.
Definition ascii_digit (c : N) : bool := in_range 48 57 c.
Definition ascii_alpha (c : N) : bool := ascii_upper c || ascii_lower c.
Definition is_ascii (c : N) : bool := (c <? 128)%N.

(** [s.lower()] on a string of ASCII characters. *)
Definition lower_char (c : N) : N := if ascii_upper c then (c + 32)%N else c.
Definition lower (s : str) : str := map lower_char s.

(** [str.isspace]: the characters [s.strip()] removes. *)
Definition is_space (c : N) : bool :=
  in_range 9 13 c || in_range 28 32 c || is_char 133 c || is_char 160 c
  || is_char 5760 c || in_range 8192 8202 c || is_char 8232 c
  || is_char 8233 c || is_char 8239 c || is_char 8287 c || is_char 12288 c.

End PyStr.

Import PyStr.

(** ** Calls that can raise *)

(** The result of a call that either returns or raises an exception the
    caller does not catch. *)
Inductive outcome (A : Type) : Type :=
| Ret (a : A)
| Raised.
Arguments Ret {A} a.
Arguments Raised {A}.

#[global] Instance outcome_ret : MRet outcome := @Ret.
#[global] Instance outcome_bind : MBind outcome :=
  fun A B f m => match m with Ret a => f a | Raised => Raised end.
#[global] Instance outcome_fmap : FMap outcome :=
  fun A B f m => match m with Ret a => Ret (f a) | Raised => Raised end.

Lemma outcome_bind_ret {A B} (f : A -> outcome B) (m : outcome A) (b : B) :
  m ≫= f = Ret b -> exists a, m = Ret a /\ f a = Ret b.
Proof. destruct m as [a|]; simpl; [eauto | discriminate]. Qed.

(** ** [urllib.parse]

    The functions of CPython 3.11's [Lib/urllib/parse.py] that [crawl.py]
    calls, on [str] arguments, with the default [scheme=''] and
    [allow_fragments=True] of the callers.

    [urlsplit] validates a bracketed host with [ipaddress] and a non-ASCII
    host with [unicodedata] (NFKC), and raises [ValueError] when they refuse
    it. Those tables are not part of this development: on a netloc with a
    bracket or a non-ASCII character the model answers [Raised], and nothing
    is proved about the code on such an input beyond what holds for every
    outcome. *)

Module Urllib.

Record ParseResult : Type := mkParseResult {
  scheme : str;
  netloc : str;
  path : str;
  params : str;
  query : str;
  fragment : str
}.

Definition uses_netloc : list str :=
  map lit [""; "ftp"; "http"; "gopher"; "nntp"; "telnet"; "imap"; "wais";
           "file"; "mms"; "https"; "shttp"; "snews"; "prospero"; "rtsp";
           "rtspu"; "rsync"; "svn"; "svn+ssh"; "sftp"; "nfs"; "git";
           "git+ssh"; "ws"; "wss"]%string.

Definition uses_params : list str :=
  map lit [""; "ftp"; "hdl"; "prospero"; "http"; "imap"; "https"; "shttp";
           "rtsp"; "rtspu"; "sip"; "sips"; "mms"; "sftp"; "tel"]%string.

Definition member (s : str) (l : list str) : bool := existsb (str_eqb s) l.

(** [scheme_chars]: ASCII letters, digits and [+-.]. *)
Definition scheme_char (c : N) : bool :=
  ascii_alpha c || ascii_digit c || is_char 43 c || is_char 45 c || is_char 46 c.

(** [_WHATWG_C0_CONTROL_OR_SPACE]: the code points 0 to 32. *)
Definition c0_control_or_space (c : N) : bool := (c <=? 32)%N.

(** [_UNSAFE_URL_BYTES_TO_REMOVE]: tab, carriage return, line feed. *)
Definition unsafe_url_byte (c : N) : bool :=
  is_char 9 c || is_char 13 c || is_char 10 c.

(** The scheme test of [urlsplit]: [i = url.find(':')], [i > 0], a first
    character that is an ASCII letter and only [scheme_chars] before the
    colon. Returns the scheme, lower-cased, and the rest. *)
Definition split_scheme (url : str) : str * str :=
  match cut_first colon url with
  | Some (c0 :: pre, rest) =>
      if ascii_alpha c0 && forallb scheme_char (c0 :: pre)
      then (lower (c0 :: pre), rest)
      else ([], url)
  | _ => ([], url)
  end.

(** [_splitnetloc(url, 2)] on the text after the leading [//]. *)
Definition netloc_delim (c : N) : bool :=
  is_char slash c || is_char question c || is_char hash c.

Definition splitnetloc (rest : str) : str * str := span_until netloc_delim rest.

Definition netloc_modelled (n : str) : bool :=
  negb (contains lbracket n) && negb (contains rbracket n) && forallb is_ascii n.

Definition split_at (c : N) (url : str) : str * str :=
  match cut_first c url with
  | Some (a, b) => (a, b)
  | None => (url, [])
  end.

(** [urlsplit(url)]: (scheme, netloc, path, query, fragment). *)
Definition urlsplit (url : str) : outcome (str * str * str * str * str) :=
  let url := lstrip_by c0_control_or_space url in
  let url := filter (fun c => negb (unsafe_url_byte c)) url in
  let '(scheme, url) := split_scheme url in
  let '(netloc, url) :=
    match url with
    | 47%N :: 47%N :: rest => splitnetloc rest
    | _ => ([], url)
    end in
  let '(url, fragment) := split_at hash url in
  let '(url, query) := split_at question url in
  if netloc_modelled netloc
  then Ret (scheme, netloc, url, query, fragment)
  else Raised.

(** The text up to and including the last [/], and the text after it. *)
Fixpoint last_segment (s : str) : str * str :=
  match s with
  | [] => ([], [])
  | c :: r =>
      let (a, b) := last_segment r in
      if truthy a || is_char slash c then (c :: a, b) else ([], c :: b)
  end.

(** [_splitparams(url)], called when [';' in url]. *)
Definition splitparams (url : str) : str * str :=
  let (a, b) := last_segment url in
  match cut_first semicolon b with
  | Some (b1, b2) => (a ++ b1, b2)
  | None => (url, [])
  end.

(** [urlparse(url)]. *)
Definition urlparse (url : str) : outcome ParseResult :=
  '(scheme, netloc, url, query, fragment) ← urlsplit url;
  let '(url, params) :=
    if member scheme uses_params && contains semicolon url
    then splitparams url else (url, []) in
  Ret (mkParseResult scheme netloc url params query fragment).

(** [urlunsplit((scheme, netloc, url, query, fragment))]. *)
Definition urlunsplit (scheme netloc url query fragment : str) : str :=
  let url :=
    if truthy netloc
       || (truthy scheme && member scheme uses_netloc
           && negb (str_eqb (take 2 url) [slash; slash]))
    then
      let url := if truthy url && negb (str_eqb (take 1 url) [slash])
                 then slash :: url else url in
      [slash; slash] ++ netloc ++ url
    else url in
  let url := if truthy scheme then scheme ++ colon :: url else url in
  let url := if truthy query then url ++ question :: query else url in
  let url := if truthy fragment then url ++ hash :: fragment else url in
  url.

(** [urlunparse(components)]; [p.geturl()] is [urlunparse(p)]. *)
Definition urlunparse (p : ParseResult) : str :=
  let url := if truthy (params p) then path p ++ semicolon :: params p
             else path p in
  urlunsplit (scheme p) (netloc p) url (query p) (fragment p).

Definition geturl (p : ParseResult) : str := urlunparse p.

(** [urldefrag(url)[0]]. *)
Definition urldefrag (url : str) : outcome str :=
  if contains hash url then
    p ← urlparse url;
    Ret (urlunparse (mkParseResult (scheme p) (netloc p) (path p) (params p)
                                   (query p) []))
  else Ret url.

(** [p.hostname]: [None] when the host part of the netloc is empty. The
    netloc of a result of [urlparse] has no bracket here, so [_hostinfo]
    takes the text after the last [@] up to the first colon; the part before
    a [%] is lower-cased. *)
Definition hostname (p : ParseResult) : option str :=
  let hostinfo := after_last at_sign (netloc p) in
  let host := fst (split_at colon hostinfo) in
  if truthy host then
    match cut_first percent host with
    | Some (h, zone) => Some (lower h ++ percent :: zone)
    | None => Some (lower host)
    end
  else None.

End Urllib.

(** ** The functions of [crawl.py] *)

Module Crawler.

Import Urllib.

(** *** URL normalizer *)

(** [scheme in {"http", "https"}]. *)
Definition http_scheme (s : str) : bool :=
  str_eqb s (lit "http") || str_eqb s (lit "https").

(** [_normalize_prefix(raw)]; [RuntimeError] is [Raised]. *)
Definition _normalize_prefix (raw : str) : outcome str :=
  parsed ← urlparse raw;
  if negb (http_scheme (scheme parsed)) then Raised
  else
    let clean := geturl (mkParseResult (scheme parsed) (netloc parsed)
                                       (path parsed) [] [] []) in
    Ret (rstrip_by (is_char slash) clean).

(** Lines 49 to 51 of [_normalize_url]: the path of the normalized URL, from
    [parsed.path]. *)
Definition normalize_path (parsed_path : str) : str :=
  let path := if truthy parsed_path then parsed_path else [slash] in
  if negb (str_eqb path [slash]) && endswith_char slash path
  then rstrip_by (is_char slash) path
  else path.

(** [_normalize_url(raw)]: [Ret None] is the [None] of the source. *)
Definition _normalize_url (raw : str) : outcome (option str) :=
  cleaned ← urldefrag raw;
  parsed ← urlparse cleaned;
  if negb (http_scheme (scheme parsed)) then Ret None
  else
    let path := normalize_path (path parsed) in
    let normalized :=
      geturl (mkParseResult (scheme parsed) (netloc parsed) path []
                            (query parsed) []) in
    Ret (Some normalized).

(** The path rule as the specification words it: an empty path becomes [/],
    and a path that is not [/] and ends with [/] loses exactly one trailing
    [/]. *)
Definition normalize_path_one_slash (parsed_path : str) : str :=
  let path := if truthy parsed_path then parsed_path else [slash] in
  if negb (str_eqb path [slash]) && endswith_char slash path
  then removelast path
  else path.

(** *** Scope filter *)

(** [_hostname_from_url(raw)]; [RuntimeError] is [Raised]. *)
Definition _hostname_from_url (raw : str) : outcome str :=
  parsed ← urlparse raw;
  match hostname parsed with
  | Some h => if truthy h then Ret (lower h) else Raised
  | None => Raised
  end.

(** [_is_same_hostname(url, hostname)]. *)
Definition _is_same_hostname (url hostname : str) : outcome bool :=
  parsed ← urlparse url;
  match Urllib.hostname parsed with
  | Some candidate_hostname =>
      Ret (truthy candidate_hostname
           && str_eqb (lower candidate_hostname) hostname)
  | None => Ret false
  end.

(** *** Helpers of the persistence sink *)

(** The complement of the class [[^A-Za-z0-9_-]]. *)
Definition component_char (c : N) : bool :=
  ascii_upper c || ascii_lower c || ascii_digit c
  || is_char underscore c || is_char 45 c.

(** [_sanitize_component(value)]: [re.sub] replaces every character of the
    class by [_]. *)
Definition _sanitize_component (value : str) : str :=
  let sanitized :=
    map (fun c => if component_char c then c else underscore) value in
  let stripped := strip_by (is_char underscore) sanitized in
  if truthy stripped then stripped else lit "segment".

Section PostNumber.

(** The class [\d] of [re] on a [str] pattern: the decimal digits of the
    Unicode database of the interpreter. *)
Variable re_digit : N -> bool.

(** The longest run of digits at the start of [s]. *)
Fixpoint digit_run (s : str) : str :=
  match s with
  | c :: r => if re_digit c then c :: digit_run r else []
  | [] => []
  end.

(** [re.search(r"\d+", s)]: [group(0)] of the leftmost match, which is
    greedy. *)
Fixpoint search_digits (s : str) : option str :=
  match s with
  | [] => None
  | c :: r => if re_digit c then Some (c :: digit_run r) else search_digits r
  end.

(** [_extract_post_number_from_matches(matches)]. *)
Fixpoint _extract_post_number_from_matches (matches : list str) : option str :=
  match matches with
  | [] => None
  | m :: more =>
      match search_digits m with
      | Some number => Some number
      | None => _extract_post_number_from_matches more
      end
  end.

End PostNumber.

(** The decimal digits (category Nd) of Unicode 14, the database of
    CPython 3.11: blocks of ten code points, and the fifty mathematical
    digits from U+1D7CE. *)
Definition decimal_blocks : list N :=
  [0x30; 0x660; 0x6f0; 0x7c0; 0x966; 0x9e6; 0xa66; 0xae6; 0xb66; 0xbe6;
   0xc66; 0xce6; 0xd66; 0xde6; 0xe50; 0xed0; 0xf20; 0x1040; 0x1090; 0x17e0;
   0x1810; 0x1946; 0x19d0; 0x1a80; 0x1a90; 0x1b50; 0x1bb0; 0x1c40; 0x1c50;
   0xa620; 0xa8d0; 0xa900; 0xa9d0; 0xa9f0; 0xaa50; 0xabf0; 0xff10; 0x104a0;
   0x10d30; 0x11066; 0x110f0; 0x11136; 0x111d0; 0x112f0; 0x11450; 0x114d0;
   0x11650; 0x116c0; 0x11730; 0x118e0; 0x11950; 0x11c50; 0x11d50; 0x11da0;
   0x16a60; 0x16ac0; 0x16b50; 0x1e140; 0x1e2f0; 0x1e950; 0x1fbf0]%N.

Definition unicode_decimal (c : N) : bool :=
  existsb (fun lo => in_range lo (lo + 9) c) decimal_blocks
  || in_range 0x1d7ce 0x1d7ff c.

(** The helper as the specification words it: a run of ASCII digits. *)
Definition extractLeadingNumber_ascii : list str -> option str :=
  _extract_post_number_from_matches ascii_digit.

(** *** Link extractor *)

Section LinkExtractor.

(** [BeautifulSoup(html, "html.parser").select("a[href]")]: the [href]
    values of the anchors, in document order. *)
Variable select_hrefs : str -> list str.

(** [urllib.parse.urljoin(base, url)]; it raises [ValueError] where
    [urlparse] does. *)
Variable urljoin : str -> str -> outcome str.

Fixpoint links_of_hrefs (hrefs : list str) (base_url : str) : outcome (list str) :=
  match hrefs with
  | [] => Ret []
  | h :: more =>
      let href := strip_by is_space h in
      if negb (truthy href) then links_of_hrefs more base_url
      else
        joined ← urljoin base_url href;
        normalized ← _normalize_url joined;
        rest ← links_of_hrefs more base_url;
        match normalized with
        | Some n => if truthy n then Ret (n :: rest) else Ret rest
        | None => Ret rest
        end
  end.

(** [_extract_links(html, base_url)]: the URLs the generator yields, in
    order; [Raised] when one of the [href]s makes [urljoin] or [urlparse]
    raise. *)
Definition _extract_links (html base_url : str) : outcome (list str) :=
  links_of_hrefs (select_hrefs html) base_url.

End LinkExtractor.

(** *** Crawl engine *)

(** One line of [matches.jsonl], as [_record_match] writes it. *)
Record MatchRecord : Type := mkMatchRecord {
  rec_url : str;
  rec_file : str;
  rec_matches : list str
}.

(** What [crawl] calls. The engine is stated over this interface, so that
    its properties hold for every answer of the URL functions (also on the
    hosts that the [Urllib] model leaves out); [python_env] below plugs in
    the functions of this file. *)
Record env : Type := mkEnv {
  (** [session.get(current, ...)] then [raise_for_status()]: [Some] of
      [response.text], or [None] for a [RequestException] (network failure,
      timeout, error status). A run asks for a URL at most once, since the
      queue never holds a URL twice, so the answers of the network during a
      run are a function of the URL. *)
  fetch : str -> option str;
  (** [[m.group(0) for m in matcher.finditer(current)]]. *)
  finditer : str -> list str;
  (** The class [\d] of the interpreter. *)
  re_digit : N -> bool;
  (** The file [_save_html] picks for a URL and a post number, given the
      files this run wrote before; [Raised] when [urlparse] raises in it.
      The writes themselves are taken to succeed. *)
  save_html_path : list str -> str -> option str -> outcome str;
  (** [_extract_links(html, base_url)]. *)
  extract_links : str -> str -> outcome (list str);
  (** [_is_same_hostname(url, hostname)]. *)
  is_same_hostname : str -> str -> outcome bool;
  (** [_hostname_from_url(raw)]. *)
  hostname_from_url : str -> outcome str
}.

(** The local variables of [crawl], the files and log lines written so far,
    and a history variable: every URL appended to [queue] so far, the seed
    first. *)
Record state : Type := mkState {
  queue : list str;
  discovered : gset str;
  visited : gset str;
  saved : Z;
  processed : Z;
  pages : list (str * str);
  match_log : list MatchRecord;
  appended : list str
}.

(** Lines 156 to 160. *)
Definition initial (prefix : str) : state :=
  mkState [prefix] {[prefix]} ∅ 0 0 [] [] [prefix].

(** [queue.popleft()], once the head is bound to [current]. *)
Definition popleft (s : state) : state :=
  mkState (tail (queue s)) (discovered s) (visited s) (saved s) (processed s)
          (pages s) (match_log s) (appended s).

(** [visited.add(current)]. *)
Definition mark_visited (current : str) (s : state) : state :=
  mkState (queue s) (discovered s) ({[current]} ∪ visited s) (saved s)
          (processed s) (pages s) (match_log s) (appended s).

(** [processed += 1]. *)
Definition count_processed (s : state) : state :=
  mkState (queue s) (discovered s) (visited s) (saved s) (processed s + 1)
          (pages s) (match_log s) (appended s).

(** [target_file.write_text(text, encoding="utf-8")] in [_save_html]. *)
Definition write_text (target_file text : str) (s : state) : state :=
  mkState (queue s) (discovered s) (visited s) (saved s) (processed s)
          (pages s ++ [(target_file, text)]) (match_log s) (appended s).

(** [_record_match(url, path, matches)]: one more line in the log. *)
Definition _record_match (url path : str) (matches : list str) (s : state)
    : state :=
  mkState (queue s) (discovered s) (visited s) (saved s) (processed s)
          (pages s) (match_log s ++ [mkMatchRecord url path matches])
          (appended s).

(** [saved += 1]. *)
Definition count_saved (s : state) : state :=
  mkState (queue s) (discovered s) (visited s) (saved s + 1) (processed s)
          (pages s) (match_log s) (appended s).

(** [discovered.add(candidate); queue.append(candidate)]. *)
Definition enqueue (candidate : str) (s : state) : state :=
  mkState (queue s ++ [candidate]) ({[candidate]} ∪ discovered s) (visited s)
          (saved s) (processed s) (pages s) (match_log s)
          (appended s ++ [candidate]).

Section Engine.

Variable w : env.

(** [_save_html(url, text, post_number)]: the file is chosen, then
    written; the result is its path. *)
Definition _save_html (url text : str) (post_number : option str) (s : state)
    : outcome (str * state) :=
  target_file ← save_html_path w (map fst (pages s)) url post_number;
  Ret (target_file, write_text target_file text s).

(** Lines 185 to 193: the page counts as processed, and is stored when the
    pattern matches its URL. *)
Definition persist_page (current text : str) (s : state) : outcome state :=
  let s := count_processed s in
  let matches := finditer w current in
  if truthy matches then
    let post_number := _extract_post_number_from_matches (re_digit w) matches in
    '(path, s) ← _save_html current text post_number s;
    let s := _record_match current path matches s in
    Ret (count_saved s)
  else Ret s.

(** Lines 195 to 202: the body of the [for] loop on each candidate. *)
Fixpoint discover (allowed_hostname : str) (candidates : list str)
    (s : state) : outcome state :=
  match candidates with
  | [] => Ret s
  | candidate :: more =>
      same ← is_same_hostname w candidate allowed_hostname;
      if (same : bool) then
        if decide (candidate ∈ discovered s)
        then discover allowed_hostname more s
        else discover allowed_hostname more (enqueue candidate s)
      else discover allowed_hostname more s
  end.

(** Lines 173 to 210: one iteration of the [while] loop. It is entered with
    a queue that is not empty; on an empty one [popleft] raises
    [IndexError]. *)
Definition iteration (allowed_hostname : str) (s : state) : outcome state :=
  match queue s with
  | [] => Raised
  | current :: _ =>
      let s := popleft s in
      if decide (current ∈ visited s) then Ret s
      else
        match fetch w current with
        | None => Ret (mark_visited current s)
        | Some text =>
            s ← persist_page current text s;
            candidates ← extract_links w text current;
            s ← discover allowed_hostname candidates s;
            Ret (mark_visited current s)
        end
  end.

(** Line 172: [queue and (max_pages == 0 or processed < max_pages)]. *)
Definition loop_test (max_pages : Z) (s : state) : bool :=
  truthy (queue s) && ((max_pages =? 0)%Z || (processed s <? max_pages)%Z).

(** The state at the head of the loop after [n] iterations; [None] when the
    loop has ended or an exception has left it before. *)
Fixpoint after_iterations (allowed_hostname : str) (max_pages : Z) (n : nat)
    (s : state) : option state :=
  match n with
  | O => Some s
  | S n' =>
      if loop_test max_pages s then
        match iteration allowed_hostname s with
        | Ret s' => after_iterations allowed_hostname max_pages n' s'
        | Raised => None
        end
      else None
  end.

(** The [while] loop, with a bound on the number of iterations: [None] when
    the bound is reached, [Some Raised] when an exception leaves the loop,
    [Some (Ret s)] when the loop ends in [s]. *)
Fixpoint crawl_loop (fuel : nat) (allowed_hostname : str) (max_pages : Z)
    (s : state) : option (outcome state) :=
  match fuel with
  | O => None
  | S fuel' =>
      if loop_test max_pages s then
        match iteration allowed_hostname s with
        | Ret s' => crawl_loop fuel' allowed_hostname max_pages s'
        | Raised => Some Raised
        end
      else Some (Ret s)
  end.

(** [crawl(prefix, matcher, max_pages, timeout)], down to the final state. *)
Definition crawl_run (fuel : nat) (prefix : str) (max_pages : Z)
    : option (outcome state) :=
  match hostname_from_url w prefix with
  | Ret allowed_hostname =>
      crawl_loop fuel allowed_hostname max_pages (initial prefix)
  | Raised => Some Raised
  end.

(** A component of the final state of a run. *)
Definition final {A} (f : state -> A) (r : option (outcome state))
    : option (outcome A) :=
  match r with
  | Some (Ret s) => Some (Ret (f s))
  | Some Raised => Some Raised
  | None => None
  end.

(** [crawl] returns [(processed, saved)]. *)
Definition crawl (fuel : nat) (prefix : str) (max_pages : Z)
    : option (outcome (Z * Z)) :=
  match crawl_run fuel prefix max_pages with
  | Some (Ret s) => Some (Ret (processed s, saved s))
  | Some Raised => Some Raised
  | None => None
  end.

(** The candidates of a page that pass the scope filter, in order. *)
Fixpoint scope_filter (allowed_hostname : str) (candidates : list str)
    : outcome (list str) :=
  match candidates with
  | [] => Ret []
  | candidate :: more =>
      same ← is_same_hostname w candidate allowed_hostname;
      rest ← scope_filter allowed_hostname more;
      Ret (if (same : bool) then candidate :: rest else rest)
  end.

(** A page that can be crawled: the fetch succeeds and neither the link
    extraction nor the scope filter raises; [in_scope_links] are the links
    it contributes. *)
Definition in_scope_links (allowed_hostname url : str) : option (list str) :=
  match fetch w url with
  | Some text =>
      match extract_links w text url ≫= scope_filter allowed_hostname with
      | Ret links => Some links
      | Raised => None
      end
  | None => None
  end.

(** The link graph of the crawl: an edge from a page to each in-scope link
    on it. *)
Definition link (allowed_hostname u v : str) : Prop :=
  exists links, in_scope_links allowed_hostname u = Some links /\ v ∈ links.

(** The URLs reachable from the seed, the seed included. *)
Definition reachable (allowed_hostname prefix : str) : str -> Prop :=
  rtc (link allowed_hostname) prefix.

End Engine.

(** The environment of the program: the URL functions of this file, and the
    libraries and the network as parameters. *)
Definition python_env (select_hrefs : str -> list str)
    (urljoin : str -> str -> outcome str)
    (get : str -> option str) (pattern : str -> list str)
    (digit : N -> bool)
    (sink : list str -> str -> option str -> outcome str) : env :=
  mkEnv get pattern digit sink (_extract_links select_hrefs urljoin)
        _is_same_hostname _hostname_from_url.

End Crawler.

(** ** A small site to run the crawler on

    The scenario of the specification: the seed [http://ex.com/blog] links
    to [http://ex.com/post/42], [http://ex.com/about] and a page of another
    host; the pattern is [post/(\d+)]. Documents are written as their
    [href] values separated by spaces, and every [href] is an absolute URL
    that [urljoin] returns as it is. *)

Module Scenario.

Import Crawler.

(** The [href]s of a document: its words. *)
Fixpoint words (s : str) : list str :=
  match s with
  | [] => []
  | c :: r =>
      if is_char 32 c then [] :: words r
      else match words r with
           | [] => [[c]]
           | wd :: more => (c :: wd) :: more
           end
  end.

Definition join_absolute (base href : str) : outcome str := Ret href.

Fixpoint starts_with (pre s : str) : option str :=
  match pre, s with
  | [], _ => Some s
  | a :: pre', b :: s' => if (a =? b)%N then starts_with pre' s' else None
  | _ :: _, [] => None
  end.

(** The matches of [post/(\d+)] in a URL, left to right. *)
Fixpoint post_matches (s : str) : list str :=
  match s with
  | [] => []
  | _ :: r =>
      match starts_with (lit "post/") s with
      | Some rest =>
          match digit_run unicode_decimal rest with
          | [] => post_matches r
          | d => (lit "post/" ++ d) :: post_matches r
          end
      | None => post_matches r
      end
  end.

(** A sink that names a numbered page [post_<number>.html], any other page
    [page.html], with [_1], [_2], ... left out. *)
Definition name_file (written : list str) (url : str) (post_number : option str)
    : outcome str :=
  match post_number with
  | Some n => Ret (lit "post_" ++ n ++ lit ".html")
  | None => Ret (lit "page.html")
  end.

Definition lookup_page (site : list (str * str)) (url : str) : option str :=
  snd <$> List.find (fun p => str_eqb (fst p) url) site.

Definition site_env (site : list (str * str)) : env :=
  python_env words join_absolute (lookup_page site) post_matches
             unicode_decimal name_file.

Definition blog : str := lit "http://ex.com/blog".
Definition post42 : str := lit "http://ex.com/post/42".
Definition about : str := lit "http://ex.com/about".

(** Every page answers. *)
Definition site_ok : list (str * str) :=
  [ (blog, lit "http://ex.com/post/42 http://ex.com/about#team http://other.example.com/x http://ex.com/about/");
    (post42, lit "http://ex.com/blog");
    (about, lit "http://ex.com/post/42#c1 mailto:me@ex.com") ].

(** The fetch of [http://ex.com/post/42] fails. *)
Definition site_timeout : list (str * str) :=
  [ (blog, lit "http://ex.com/post/42 http://ex.com/about");
    (about, lit "http://ex.com/blog") ].

(** The root of a site as the seed: [_normalize_prefix] strips the slash of
    the root, which [_normalize_url] keeps. *)
Definition root : str := lit "http://ex.com".
Definition root_slash : str := lit "http://ex.com/".

Definition site_root : list (str * str) :=
  [ (root, lit "http://ex.com/#top http://ex.com// http://ex.com/");
    (root_slash, lit "http://ex.com") ].

(** The seed holds an [href] with an unbalanced bracket, on which
    [urlsplit] raises [ValueError("Invalid IPv6 URL")]. *)
Definition site_malformed : list (str * str) :=
  [ (blog, lit "http://ex.com/about http://[");
    (about, lit "http://ex.com/blog") ].

End Scenario.

(** ** The persistence sink of [crawl.py] *)

From Stdlib Require Import DecimalString DecimalNat.

(** *** UTF-8, as [str.encode] and [bytes.decode] of CPython have it *)

Module Utf8.

(** [chr(c).encode("utf-8")]: the bytes of one character; [None] for a
    surrogate, on which [encode] raises [UnicodeEncodeError], and beyond
    U+10FFFF, where a [str] has no character. *)
Definition encode_char (c : N) : option (list N) :=
  if (c <? 0x80)%N then Some [c]
  else if (c <? 0x800)%N then Some [0xC0 + c / 64; 0x80 + c mod 64]%N
  else if (c <? 0x10000)%N then
    if in_range 0xD800 0xDFFF c then None
    else Some [0xE0 + c / 4096; 0x80 + (c / 64) mod 64; 0x80 + c mod 64]%N
  else if (c <? 0x110000)%N then
    Some [0xF0 + c / 262144; 0x80 + (c / 4096) mod 64;
          0x80 + (c / 64) mod 64; 0x80 + c mod 64]%N
  else None.

(** [s.encode("utf-8")]. *)
Fixpoint encode (s : str) : outcome (list N) :=
  match s with
  | [] => Ret []
  | c :: r =>
      match encode_char c with
      | Some bs => rest ← encode r; Ret (bs ++ rest)
      | None => Raised
      end
  end.

Definition continuation (b : N) : bool := in_range 0x80 0xBF b.

(** The second byte of a sequence of three: no overlong form after [E0], no
    surrogate after [ED]. *)
Definition second_of_three (b0 b1 : N) : bool :=
  continuation b1
  && (if (b0 =? 0xE0)%N then (0xA0 <=? b1)%N
      else if (b0 =? 0xED)%N then (b1 <? 0xA0)%N else true).

(** The second byte of a sequence of four: no overlong form after [F0],
    nothing beyond U+10FFFF after [F4]. *)
Definition second_of_four (b0 b1 : N) : bool :=
  continuation b1
  && (if (b0 =? 0xF0)%N then (0x90 <=? b1)%N
      else if (b0 =? 0xF4)%N then (b1 <? 0x90)%N else true).

(** [bs.decode("utf-8", errors="ignore")]: an invalid start byte is
    skipped, an invalid continuation byte ends the sequence before it,
    whose bytes are skipped, and a sequence cut by the end of the data is
    dropped. *)
Fixpoint decode_ignore (bs : list N) : str :=
  match bs with
  | [] => []
  | b0 :: r =>
      if (b0 <? 0x80)%N then b0 :: decode_ignore r
      else if (b0 <? 0xC2)%N then decode_ignore r
      else if (b0 <? 0xE0)%N then
        match r with
        | [] => []
        | b1 :: r1 =>
            if continuation b1
            then ((b0 - 0xC0) * 64 + (b1 - 0x80))%N :: decode_ignore r1
            else decode_ignore r
        end
      else if (b0 <? 0xF0)%N then
        match r with
        | [] => []
        | b1 :: r1 =>
            if second_of_three b0 b1 then
              match r1 with
              | [] => []
              | b2 :: r2 =>
                  if continuation b2
                  then ((b0 - 0xE0) * 4096 + (b1 - 0x80) * 64 + (b2 - 0x80))%N
                       :: decode_ignore r2
                  else decode_ignore r1
              end
            else decode_ignore r
        end
      else if (b0 <? 0xF5)%N then
        match r with
        | [] => []
        | b1 :: r1 =>
            if second_of_four b0 b1 then
              match r1 with
              | [] => []
              | b2 :: r2 =>
                  if continuation b2 then
                    match r2 with
                    | [] => []
                    | b3 :: r3 =>
                        if continuation b3
                        then ((b0 - 0xF0) * 262144 + (b1 - 0x80) * 4096
                              + (b2 - 0x80) * 64 + (b3 - 0x80))%N
                             :: decode_ignore r3
                        else decode_ignore r2
                    end
                  else decode_ignore r1
              end
            else decode_ignore r
        end
      else decode_ignore r
  end.

(** The number of bytes of a character. *)
Definition char_size (c : N) : nat :=
  if (c <? 0x80)%N then 1 else if (c <? 0x800)%N then 2
  else if (c <? 0x10000)%N then 3 else 4.

(** The number of bytes of a string. *)
Definition byte_size (s : str) : nat := sum_list (map char_size s).

(** The longest prefix of whole characters that fits in [n] bytes. *)
Fixpoint fit (n : nat) (s : str) : str :=
  match s with
  | [] => []
  | c :: r => if (char_size c <=? n)%nat then c :: fit (n - char_size c) r
              else []
  end.

End Utf8.

(** *** SHA-256, as [hashlib.sha256] computes it (FIPS 180-4) *)

Module Sha256.

Local Open Scope N_scope.

(** A word of 32 bits. *)
Definition word (x : N) : N := x mod 0x100000000.

Definition rotr (n x : N) : N :=
  N.lor (N.shiftr x n) (word (N.shiftl x (32 - n))).

Definition ch (x y z : N) : N :=
  N.lxor (N.land x y) (N.land (N.lxor x 0xFFFFFFFF) z).

Definition maj (x y z : N) : N :=
  N.lxor (N.lxor (N.land x y) (N.land x z)) (N.land y z).

Definition big_sigma0 (x : N) : N :=
  N.lxor (N.lxor (rotr 2 x) (rotr 13 x)) (rotr 22 x).

Definition big_sigma1 (x : N) : N :=
  N.lxor (N.lxor (rotr 6 x) (rotr 11 x)) (rotr 25 x).

Definition small_sigma0 (x : N) : N :=
  N.lxor (N.lxor (rotr 7 x) (rotr 18 x)) (N.shiftr x 3).

Definition small_sigma1 (x : N) : N :=
  N.lxor (N.lxor (rotr 17 x) (rotr 19 x)) (N.shiftr x 10).

(** The first 64 primes: the primes up to 311. *)
Definition prime (n : N) : bool :=
  forallb (fun d => negb (n mod N.of_nat d =? 0)) (seq 2 (N.to_nat n - 2)).

Definition primes : list N :=
  filter prime (map N.of_nat (seq 2 310)).

(** The greatest [r] below [2 ^ bits] with [r ^ 3 <= n], bit by bit. *)
Fixpoint cube_root (bits : nat) (n r : N) : N :=
  match bits with
  | O => r
  | S bits' =>
      let r' := r + 2 ^ N.of_nat bits' in
      cube_root bits' n (if r' * r' * r' <=? n then r' else r)
  end.

(** The round constants: the first 32 bits of the fractional parts of the
    cube roots of the first 64 primes. *)
Definition K : list N :=
  map (fun p => word (cube_root 40 (p * 2 ^ 96) 0)) primes.

(** The eight words of the hash value. *)
Record hash : Type := mkHash {
  ha : N; hb : N; hc : N; hd : N; he : N; hf : N; hg : N; hh : N
}.

(** The initial hash value: the first 32 bits of the fractional parts of
    the square roots of the first 8 primes. *)
Definition initial_word (i : nat) : N :=
  word (N.sqrt (nth i primes 0 * 2 ^ 64)).

Definition H0 : hash :=
  mkHash (initial_word 0) (initial_word 1) (initial_word 2) (initial_word 3)
         (initial_word 4) (initial_word 5) (initial_word 6) (initial_word 7).

(** The message with its padding: a bit 1, zeros, and the length in bits
    on 64 bits, up to a multiple of 64 bytes. *)
Definition big_endian (width : nat) (x : N) : list N :=
  map (fun i => (x / 256 ^ N.of_nat i) mod 256) (rev (seq 0 width)).

Definition pad (message : list N) : list N :=
  let len := length message in
  let zeros := ((64 - (len + 9) mod 64) mod 64)%nat in
  message ++ 0x80 :: repeat 0 zeros ++ big_endian 8 (8 * N.of_nat len).

(** The words of a block of 64 bytes, 4 bytes each, big-endian. *)
Fixpoint words (bytes : list N) : list N :=
  match bytes with
  | b0 :: b1 :: b2 :: b3 :: rest =>
      (((b0 * 256 + b1) * 256 + b2) * 256 + b3) :: words rest
  | _ => []
  end.

(** The message schedule: [n] more words from a window of the last 16. *)
Fixpoint schedule (n : nat) (window : list N) : list N :=
  match n with
  | O => []
  | S n' =>
      match window with
      | w0 :: rest =>
          let next :=
            word (small_sigma1 (nth 14 window 0) + nth 9 window 0
                  + small_sigma0 (nth 1 window 0) + w0) in
          w0 :: schedule n' (rest ++ [next])
      | [] => []
      end
  end.

Definition round (h : hash) (kw : N * N) : hash :=
  let t1 := hh h + big_sigma1 (he h) + ch (he h) (hf h) (hg h)
            + fst kw + snd kw in
  let t2 := big_sigma0 (ha h) + maj (ha h) (hb h) (hc h) in
  mkHash (word (t1 + t2)) (ha h) (hb h) (hc h) (word (hd h + t1))
         (he h) (hf h) (hg h).

Definition compress (h : hash) (block : list N) : hash :=
  let r := fold_left round (combine K (schedule 64 (words block))) h in
  mkHash (word (ha h + ha r)) (word (hb h + hb r)) (word (hc h + hc r))
         (word (hd h + hd r)) (word (he h + he r)) (word (hf h + hf r))
         (word (hg h + hg r)) (word (hh h + hh r)).

(** The blocks of 64 bytes of a padded message; [fuel] bounds their number. *)
Fixpoint blocks (fuel : nat) (bytes : list N) : list (list N) :=
  match fuel, bytes with
  | S fuel', _ :: _ => take 64 bytes :: blocks fuel' (drop 64 bytes)
  | _, _ => []
  end.

Definition digest (message : list N) : hash :=
  let padded := pad message in
  fold_left compress (blocks (length padded) padded) H0.

Definition hex_char (d : N) : N := if d <? 10 then 48 + d else 87 + d.

Definition hex_word (x : N) : list N :=
  map (fun i => hex_char ((x / 16 ^ N.of_nat i) mod 16)) (rev (seq 0 8)).

(** [hashlib.sha256(message).hexdigest()]. *)
Definition hexdigest (message : list N) : list N :=
  let h := digest message in
  hex_word (ha h) ++ hex_word (hb h) ++ hex_word (hc h) ++ hex_word (hd h)
  ++ hex_word (he h) ++ hex_word (hf h) ++ hex_word (hg h) ++ hex_word (hh h).

End Sha256.

Module Sink.

Import Urllib Crawler.

Definition MAX_FILENAME_BYTES : Z := 240.

(** [_truncate_for_filename(value, max_bytes)]. *)
Definition _truncate_for_filename (value : str) (max_bytes : Z) : outcome str :=
  if (max_bytes <=? 0)%Z then Ret []
  else
    encoded ← Utf8.encode value;
    if (Z.of_nat (length encoded) <=? max_bytes)%Z then Ret value
    else Ret (Utf8.decode_ignore (take (Z.to_nat max_bytes) encoded)).

(** [str(index)] for an index that is not negative. *)
Definition decimal (index : nat) : str :=
  lit (NilEmpty.string_of_uint (Nat.to_uint index)).

(** [target_dir / name], for a name of one component. *)
Definition in_dir (target_dir name : str) : str := target_dir ++ slash :: name.

(** The [while True] loop of [_pick_unique_path], from [index], bounded by
    [fuel] probes: [None] when the bound is reached. [existing] holds the
    paths for which [exists()] answers true. *)
Fixpoint probe (existing : gset str) (target_dir stem suffix : str)
    (fuel index : nat) : option str :=
  match fuel with
  | O => None
  | S fuel' =>
      let next_candidate :=
        in_dir target_dir (stem ++ underscore :: decimal index ++ suffix) in
      if decide (next_candidate ∈ existing)
      then probe existing target_dir stem suffix fuel' (S index)
      else Some next_candidate
  end.

(** [_pick_unique_path(target_dir, stem, suffix)]. *)
Definition _pick_unique_path (existing : gset str)
    (target_dir stem suffix : str) (fuel : nat) : option str :=
  let candidate := in_dir target_dir (stem ++ suffix) in
  if decide (candidate ∈ existing)
  then probe existing target_dir stem suffix fuel 1
  else Some candidate.

(** [s.split("/")]. *)
Fixpoint split_slash (s : str) : list str :=
  match s with
  | [] => [[]]
  | c :: r =>
      if is_char slash c then [] :: split_slash r
      else match split_slash r with
           | [] => [[c]]
           | seg :: more => (c :: seg) :: more
           end
  end.

(** Lines 106 to 118 of [_save_html]: the name of the directory under
    [OUTPUT_DIR], and [filename_stem]. *)
Definition html_name (url : str) (post_number : option str)
    : outcome (str * str) :=
  encoded ← Utf8.encode url;
  let hashed := take 16 (Sha256.hexdigest encoded) in
  parsed ← urlparse url;
  let netloc :=
    _sanitize_component
      (if truthy (Urllib.netloc parsed) then Urllib.netloc parsed
       else lit "site") in
  let path_segments :=
    List.filter (fun seg => truthy seg) (split_slash (Urllib.path parsed)) in
  let name_segment :=
    match last path_segments with Some seg => seg | None => lit "root" end in
  let safe_segment := _sanitize_component name_segment in
  reserved ← Utf8.encode (underscore :: hashed ++ lit ".html");
  let reserved_bytes := Z.of_nat (length reserved) in
  truncated ←
    _truncate_for_filename safe_segment (MAX_FILENAME_BYTES - reserved_bytes);
  let safe_segment := if truthy truncated then truncated else lit "segment" in
  let filename_stem :=
    match post_number with
    | Some number =>
        if truthy number then lit "post_" ++ number
        else safe_segment ++ underscore :: hashed
    | None => safe_segment ++ underscore :: hashed
    end in
  Ret (netloc, filename_stem).

(** The file [_save_html] writes: [_pick_unique_path] in the directory of
    the host under [output_dir], with as many probes as there are paths and
    one more. [initial] holds the paths that exist when the run starts,
    [written] the pages of this run. *)
Definition target_file (output_dir : str) (initial : gset str)
    (written : list str) (url : str) (post_number : option str)
    : outcome str :=
  '(netloc, filename_stem) ← html_name url post_number;
  let existing := initial ∪ list_to_set written in
  match _pick_unique_path existing (in_dir output_dir netloc) filename_stem
                          (lit ".html") (S (size existing)) with
  | Some path => Ret path
  | None => Raised
  end.

End Sink.

(** ** The log [matches.jsonl]

    [json.dump(metadata, handle)] with the defaults of the library:
    [ensure_ascii] is true, the separators are [", "] and [": "]. *)

Module Json.

Import Crawler.

Local Open Scope N_scope.

Definition quote : N := 34.
Definition backslash : N := 92.

(** [format(n, "04x")] for [n] below [0x10000]. *)
Definition hex4 (n : N) : str :=
  map (fun i => Sha256.hex_char ((n / 16 ^ N.of_nat i) mod 16))
      (rev (seq 0 4%nat)).

(** The replacement of one character by [encode_basestring_ascii]: the
    escapes of [ESCAPE_DCT], the printable ASCII characters as they are,
    and [\uXXXX] for the others, with a surrogate pair beyond U+FFFF. *)
Definition escape_char (c : N) : str :=
  if is_char quote c then [backslash; quote]
  else if is_char backslash c then [backslash; backslash]
  else if is_char 10 c then [backslash; 110]
  else if is_char 13 c then [backslash; 114]
  else if is_char 9 c then [backslash; 116]
  else if is_char 8 c then [backslash; 98]
  else if is_char 12 c then [backslash; 102]
  else if in_range 32 126 c then [c]
  else if c <? 0x10000 then backslash :: 117 :: hex4 c
  else
    let n := c - 0x10000 in
    backslash :: 117 :: hex4 (0xD800 + (n / 1024) mod 1024)
    ++ backslash :: 117 :: hex4 (0xDC00 + n mod 1024).

(** [json.dumps(s)] for a string. *)
Definition dumps_str (s : str) : str :=
  quote :: flat_map escape_char s ++ [quote].

(** [", ".join(items)]. *)
Fixpoint join_comma (items : list str) : str :=
  match items with
  | [] => []
  | [x] => x
  | x :: more => x ++ lit ", " ++ join_comma more
  end.

(** [json.dumps(l)] for a list of strings. *)
Definition dumps_list (l : list str) : str :=
  lit "[" ++ join_comma (map dumps_str l) ++ lit "]".

(** [json.dumps(metadata)] in [_record_match]: the keys in the order of the
    dictionary display. *)
Definition dumps_metadata (r : MatchRecord) : str :=
  lit "{" ++ dumps_str (lit "url") ++ lit ": " ++ dumps_str (rec_url r)
  ++ lit ", " ++ dumps_str (lit "file") ++ lit ": " ++ dumps_str (rec_file r)
  ++ lit ", " ++ dumps_str (lit "matches") ++ lit ": "
  ++ dumps_list (rec_matches r) ++ lit "}".

(** What [_record_match] appends to [matches.jsonl]: the record and a line
    feed. *)
Definition record_line (r : MatchRecord) : str := dumps_metadata r ++ [10].

(** The text a run appends to [matches.jsonl]. *)
Definition log_text (log : list MatchRecord) : str := flat_map record_line log.

End Json.

(** ** The entry point of [crawl.py] *)

Module Main.

Import Urllib Crawler.

Definition DEFAULT_MAX_PAGES : Z := 0.
Definition DEFAULT_TIMEOUT : Z := 100.

Section Main.

(** [os.environ.get(name)], once [load_dotenv] has run. *)
Variable environ : str -> option str.

(** [int(value)] on a string; [Raised] is [ValueError]. *)
Variable int : str -> outcome Z.

(** [re.compile(raw_regex, flags=re.MULTILINE)], as the matches that
    [finditer] gives on a URL; [Raised] is [re.error]. *)
Variable re_compile : str -> outcome (str -> list str).

(** The libraries and the network; the answers of the network depend on
    the timeout. *)
Variable select_hrefs : str -> list str.
Variable urljoin : str -> str -> outcome str.
Variable get : Z -> str -> option str.
Variable digit : N -> bool.
Variable sink : list str -> str -> option str -> outcome str.

(** [_env(name, required)]; [Raised] is [RuntimeError]. *)
Definition _env (name : str) (required : bool) : outcome str :=
  let value := environ name in
  let set := match value with Some v => truthy v | None => false end in
  if required && negb set then Raised
  else Ret (match value with Some v => v | None => [] end).

(** Lines 231 to 237: [max_pages]. *)
Definition max_pages_setting : Z :=
  match environ (lit "CRAWL_MAX_PAGES") with
  | Some max_pages_value =>
      match int max_pages_value with
      | Ret max_pages =>
          if (max_pages <? 0)%Z then DEFAULT_MAX_PAGES else max_pages
      | Raised => DEFAULT_MAX_PAGES
      end
  | None => DEFAULT_MAX_PAGES
  end.

(** Lines 238 to 244: [timeout]. *)
Definition timeout_setting : Z :=
  match environ (lit "CRAWL_TIMEOUT") with
  | Some timeout_value =>
      if truthy timeout_value then
        match int timeout_value with
        | Ret timeout => if (timeout <=? 0)%Z then DEFAULT_TIMEOUT else timeout
        | Raised => DEFAULT_TIMEOUT
        end
      else DEFAULT_TIMEOUT
  | None => DEFAULT_TIMEOUT
  end.

(** Lines 227 to 246 of [main], down to what [crawl] returns. *)
Definition main (fuel : nat) : option (outcome (Z * Z)) :=
  match
    raw_prefix ← _env (lit "CRAWL_URL_PREFIX") true;
    raw_regex ← _env (lit "CRAWL_MATCH_REGEX") true;
    prefix ← _normalize_prefix raw_prefix;
    matcher ← re_compile raw_regex;
    Ret (prefix, matcher)
  with
  | Ret (prefix, matcher) =>
      crawl (python_env select_hrefs urljoin (get timeout_setting) matcher
                        digit sink)
            fuel prefix max_pages_setting
  | Raised => Some Raised
  end.

End Main.

End Main.

(** ** The converter [src/crawler/html_to_json.py] *)

Module HtmlToJson.

Definition space : N := 32.

(** [re.sub(r"\s+", " ", value)]: every maximal run of whitespace becomes
    one space; [in_run] tells that the character before was whitespace. *)
Fixpoint sub_spaces (in_run : bool) (value : str) : str :=
  match value with
  | [] => []
  | c :: r =>
      if is_space c then
        if in_run then sub_spaces true r else space :: sub_spaces true r
      else c :: sub_spaces false r
  end.

(** [_clean_text(value)]. *)
Definition _clean_text (value : option str) : str :=
  match value with
  | None => []
  | Some value => strip_by is_space (sub_spaces false value)
  end.

(** [value.translate(_DIGIT_MAP)] on one character: the Persian and the
    Arabic-Indic digits become ASCII digits. *)
Definition translate_digit (c : N) : N :=
  if in_range 0x6F0 0x6F9 c then (c - 0x6F0 + 48)%N
  else if in_range 0x660 0x669 c then (c - 0x660 + 48)%N
  else c.

(** The value of a decimal digit: its place in its block of ten. *)
Definition digit_value (c : N) : N :=
  if in_range 0x1D7CE 0x1D7FF c then ((c - 0x1D7CE) mod 10)%N
  else
    match List.find (fun lo => in_range lo (lo + 9) c) Crawler.decimal_blocks with
    | Some lo => (c - lo)%N
    | None => 0%N
    end.

(** [int(digits)] for a string of decimal digits that is not empty:
    [ValueError] beyond [max_str_digits] digits, when that limit of the
    interpreter is not 0. *)
Definition int_of_digits (max_str_digits : nat) (digits : str) : outcome Z :=
  if negb (max_str_digits =? 0)%nat && (max_str_digits <? length digits)%nat
  then Raised
  else Ret (Z.of_N (fold_left (fun n c => n * 10 + digit_value c)%N digits 0%N)).

(** [_to_int(value)]. *)
Definition _to_int (max_str_digits : nat) (value : option str)
    : outcome (option Z) :=
  match value with
  | None => Ret None
  | Some value =>
      if truthy value then
        let normalized := map translate_digit value in
        let digits := List.filter Crawler.unicode_decimal normalized in
        if truthy digits then Some <$> int_of_digits max_str_digits digits
        else Ret None
      else Ret None
  end.

(** [s.startswith(prefix)]. *)
Definition startswith (prefix s : str) : bool :=
  str_eqb (take (length prefix) s) prefix.

(** [bool(n)] for [n: int | None]. *)
Definition truthy_int (n : option Z) : bool :=
  match n with Some n => negb (n =? 0)%Z | None => false end.

(** What [_extract_comments] reads off a [div.comment]: the [class] and
    [id] attributes, and for each element that [select_one] looks for,
    [Some] of its text or attribute when the element is there. *)
Record CommentNode : Type := mkCommentNode {
  (** [node.get("class", [])] *)
  node_class : list str;
  (** [node.get("id", "")] *)
  node_id : str;
  (** [decode_contents()] of [.comment-content] *)
  node_content : option str;
  (** [get_text(" ", strip=True)] of the plus and the minus counters *)
  node_plus : option str;
  node_minus : option str;
  (** [get_text(" ", strip=True)] of [.author-name] and [.comment-date] *)
  node_author_name : option str;
  node_date : option str;
  (** [get("href", "")] of [.author-website], [get("src", "")] of the
      avatar *)
  node_author_website : option str;
  node_avatar : option str
}.

(** An entry of ["items"]: a reply or a comment. *)
Inductive Item : Type :=
| Reply (id parent_comment_id : option Z) (content_markdown content_html : str)
        (likes dislikes : option Z) (order : nat)
| Comment (id : option Z)
          (author author_website author_avatar date_posted_shamsi : str)
          (content_markdown content_html : str) (likes dislikes : option Z)
          (order : nat).

Section Comments.

(** The limit of the interpreter on [int]. *)
Variable max_str_digits : nat.

(** [_as_markdown(html)]. *)
Variable _as_markdown : str -> str.

(** [_to_int(element.get_text(" ", strip=True)) if element else None]. *)
Definition count_of (text : option str) : outcome (option Z) :=
  match text with
  | Some text => _to_int max_str_digits (Some text)
  | None => Ret None
  end.

(** [attribute.strip() if element else ""]. *)
Definition stripped (attribute : option str) : str :=
  match attribute with
  | Some value => strip_by is_space value
  | None => []
  end.

(** The body of the loop of [_extract_comments], lines 175 to 230. *)
Definition comment_step (order : nat) (node : CommentNode)
    (items : list Item) (last_comment_id : option Z)
    : outcome (list Item * option Z) :=
  let is_reply := bool_decide (lit "reply" ∈ node_class node) in
  comment_id ←
    (if startswith (lit "comment-") (node_id node)
     then _to_int max_str_digits (Some (node_id node))
     else Ret None);
  let content_html := stripped (node_content node) in
  if is_reply then
    likes ← count_of (node_plus node);
    dislikes ← count_of (node_minus node);
    Ret (items ++ [Reply comment_id last_comment_id
                         (_as_markdown content_html) content_html
                         likes dislikes order],
         last_comment_id)
  else
    let author_text := _clean_text (node_author_name node) in
    let date_text := _clean_text (node_date node) in
    let content_markdown := _as_markdown content_html in
    likes ← count_of (node_plus node);
    dislikes ← count_of (node_minus node);
    if negb (truthy_int comment_id || truthy author_text || truthy date_text
             || truthy content_markdown || truthy_int likes
             || truthy_int dislikes)
    then Ret (items, last_comment_id)
    else
      Ret (items ++ [Comment comment_id author_text
                             (stripped (node_author_website node))
                             (stripped (node_avatar node)) date_text
                             content_markdown content_html likes dislikes
                             order],
           comment_id).

(** The loop over [enumerate(nodes, start=order)]. *)
Fixpoint comments_loop (order : nat) (nodes : list CommentNode)
    (items : list Item) (last_comment_id : option Z) : outcome (list Item) :=
  match nodes with
  | [] => Ret items
  | node :: more =>
      '(items, last_comment_id) ←
        comment_step order node items last_comment_id;
      comments_loop (S order) more items last_comment_id
  end.

(** [_extract_comments(soup)], as ["count"] and ["items"]. [comments_box]
    is [None] when the page has no comments box; otherwise it holds the
    text of the counter, when there is one, and the [div.comment] nodes
    in the order of the document. *)
Definition _extract_comments
    (comments_box : option (option str * list CommentNode))
    : outcome (Z * list Item) :=
  match comments_box with
  | None => Ret (0%Z, [])
  | Some (count_text, nodes) =>
      declared_count ←
        match count_text with
        | Some text => _to_int max_str_digits (Some text)
        | None => Ret (Some 0%Z)
        end;
      items ← comments_loop 1 nodes [] None;
      Ret (match declared_count with
           | Some count => count
           | None => Z.of_nat (length items)
           end, items)
  end.

End Comments.

End HtmlToJson.

(** ** The downloaders [src/crawler/download_picofile.py] and
    [src/crawler/download_smileys.py] *)

Module Download.

Import Urllib.

Definition dot : N := 46.

(** [PurePosixPath(s).name]: the last component that is neither empty nor
    [.], or the empty string when there is none. *)
Definition path_name (s : str) : str :=
  let parts :=
    List.filter (fun seg => truthy seg && negb (str_eqb seg [dot]))
                (Sink.split_slash s) in
  match last parts with Some name => name | None => [] end.

(** [name.rfind(".")]: the text before the last dot and the text from it
    on. *)
Fixpoint split_last_dot (name : str) : option (str * str) :=
  match name with
  | [] => None
  | c :: r =>
      match split_last_dot r with
      | Some (before, rest) => Some (c :: before, rest)
      | None => if is_char dot c then Some ([], c :: r) else None
      end
  end.

(** [PurePosixPath(name).suffix] and [.stem], for a name of one component
    other than [.]: the last dot counts when it is neither the first nor
    the last character. *)
Definition path_suffix (name : str) : str :=
  match split_last_dot name with
  | Some (before, rest) =>
      if truthy before && truthy (tail rest) then rest else []
  | None => []
  end.

Definition path_stem (name : str) : str :=
  match split_last_dot name with
  | Some (before, rest) =>
      if truthy before && truthy (tail rest) then before else name
  | None => name
  end.

(** The counters of a download run, the paths that exist, and the files
    written, in order. *)
Record tally : Type := mkTally {
  downloaded : Z;
  skipped : Z;
  failed : Z;
  files : gset str;
  written : list (str * list N)
}.

Section Loop.

(** The state that [_target_path_for] keeps between calls. *)
Context {names : Type}.

(** [_target_path_for], with the state passed on. *)
Variable target_path_for : str -> names -> outcome (str * names).

(** [urlopen(request, timeout=timeout)] then [response.read()]: [None] for
    [HTTPError], [URLError], [TimeoutError] and [OSError]. *)
Variable urlopen : str -> option (list N).

(** [_download_file(url, dest, timeout)]: the tally after the call, and
    what the call returns. *)
Definition _download_file (url dest : str) (t : tally) : tally * bool :=
  match urlopen url with
  | Some data =>
      (mkTally (downloaded t) (skipped t) (failed t) ({[dest]} ∪ files t)
               (written t ++ [(dest, data)]), true)
  | None => (t, false)
  end.

(** The loop over the URLs, in [download_picofile] (lines 73 to 90) and in
    [download_smileys] (lines 83 to 94). *)
Fixpoint download_loop (urls : list str) (seen : names) (t : tally)
    : outcome tally :=
  match urls with
  | [] => Ret t
  | url :: more =>
      '(output_path, seen) ← target_path_for url seen;
      if decide (output_path ∈ files t) then
        download_loop more seen
          (mkTally (downloaded t) (skipped t + 1) (failed t) (files t)
                   (written t))
      else
        let '(t, ok) := _download_file url output_path t in
        if ok then
          download_loop more seen
            (mkTally (downloaded t + 1) (skipped t) (failed t) (files t)
                     (written t))
        else
          download_loop more seen
            (mkTally (downloaded t) (skipped t) (failed t + 1) (files t)
                     (written t))
  end.

End Loop.

(** [download_picofile.py] *)
Module Picofile.

(** [_target_path_for(url, target_dir)]. *)
Definition _target_path_for (url target_dir : str) : outcome str :=
  parsed ← urlparse url;
  let name := path_name (path parsed) in
  let basename := if truthy name then name else lit "picofile_asset" in
  let basename :=
    if contains dot basename then basename else basename ++ lit ".bin" in
  Ret (Sink.in_dir target_dir basename).

(** Lines 66 to 92 of [download_picofile], from [picofile_urls], the sorted
    URLs, and the paths that exist. *)
Definition download_picofile (urlopen : str -> option (list N))
    (out_root : str) (picofile_urls : list str) (existing : gset str)
    : outcome tally :=
  let target_dir := Sink.in_dir out_root (lit "picofile") in
  download_loop
    (fun url (_ : unit) =>
       path ← _target_path_for url target_dir; Ret (path, tt))
    urlopen picofile_urls tt (mkTally 0 0 0 existing []).

End Picofile.

(** [download_smileys.py] *)
Module Smileys.

(** [_target_path_for(smiley_url, target_dir, seen_names)]: the path, and
    [seen_names] after the call. *)
Definition _target_path_for (smiley_url target_dir : str)
    (seen_names : gset str) : outcome (str * gset str) :=
  parsed ← urlparse smiley_url;
  let name := path_name (path parsed) in
  let basename := if truthy name then name else lit "smiley" in
  let basename :=
    if contains dot basename then basename else basename ++ lit ".img" in
  if decide (basename ∈ seen_names) then
    encoded ← Utf8.encode smiley_url;
    let digest := take 8 (Sha256.hexdigest encoded) in
    let stem :=
      if truthy (path_stem basename) then path_stem basename
      else lit "smiley" in
    let suffix :=
      if truthy (path_suffix basename) then path_suffix basename
      else lit ".img" in
    let unique_name := stem ++ underscore :: digest ++ suffix in
    Ret (Sink.in_dir target_dir unique_name, {[unique_name]} ∪ seen_names)
  else Ret (Sink.in_dir target_dir basename, {[basename]} ∪ seen_names).

(** Lines 75 to 96 of [download_smileys], from [smiley_urls], the sorted
    URLs that start with [SMILEY_PREFIX], and the paths that exist. *)
Definition download_smileys (urlopen : str -> option (list N))
    (out_root : str) (smiley_urls : list str) (existing : gset str)
    : outcome tally :=
  let target_dir := Sink.in_dir out_root (lit "smileys") in
  download_loop (fun url seen => _target_path_for url target_dir seen)
                urlopen smiley_urls ∅ (mkTally 0 0 0 existing []).

End Smileys.

End Download.

(** * Properties *)

Import Crawler.

(** ** Stripping *)

Lemma lstrip_by_head p s c : head (lstrip_by p s) = Some c -> p c = false.
Proof.
  induction s as [|x s IH]; simpl; [discriminate|].
  destruct (p x) eqn:Hx; [exact IH|].
  simpl. intros [= <-]. exact Hx.
Qed.

Lemma lstrip_by_suffix p s : exists t, s = t ++ lstrip_by p s.
Proof.
  induction s as [|x s [t IH]]; simpl; [by exists []|].
  destruct (p x); [|by exists []].
  exists (x :: t). simpl. by rewrite <- IH.
Qed.

Lemma rstrip_by_prefix p s :
  exists t, s = rstrip_by p s ++ t /\ forallb p t = true.
Proof.
  induction s as [|x s (t & IH & Ht)]; simpl; [by exists []|].
  destruct (rstrip_by p s) as [|y r] eqn:E.
  - destruct (p x) eqn:Hx.
    + exists (x :: t). simpl in *. rewrite Hx, Ht. by rewrite IH at 1.
    + exists t. simpl in *. by rewrite IH at 1.
  - exists t. split; [|done]. simpl. by rewrite IH at 1.
Qed.

Lemma rstrip_by_last p s c : last (rstrip_by p s) = Some c -> p c = false.
Proof.
  induction s as [|x s IH]; simpl; [discriminate|].
  destruct (rstrip_by p s) as [|y r] eqn:E.
  - destruct (p x) eqn:Hx; simpl; [discriminate|]. by intros [= <-].
  - intros H. apply IH. exact H.
Qed.

Lemma rstrip_by_all p t : forallb p t = true -> rstrip_by p t = [].
Proof.
  induction t as [|x t IH]; simpl; [done|].
  intros [Hx Ht]%andb_true_iff. by rewrite IH, Hx.
Qed.

Lemma rstrip_by_app_all p q t :
  forallb p t = true -> rstrip_by p (q ++ t) = rstrip_by p q.
Proof.
  intros Ht. induction q as [|x q IH]; simpl.
  - by apply rstrip_by_all.
  - by rewrite IH.
Qed.

Lemma rstrip_by_keeps c q :
  endswith_char c q = false -> rstrip_by (is_char c) q = q.
Proof.
  induction q as [|x q IH]; simpl; [done|].
  destruct q as [|y q].
  - simpl. by intros ->.
  - intros H. rewrite (IH H). done.
Qed.

Lemma endswith_char_app_repeat c q n :
  endswith_char c (q ++ repeat c (S n)) = true.
Proof.
  induction q as [|x q IH].
  - induction n as [|n IHn]; simpl in *.
    + unfold is_char. apply N.eqb_refl.
    + exact IHn.
  - change ((x :: q) ++ repeat c (S n)) with (x :: (q ++ repeat c (S n))).
    destruct (q ++ repeat c (S n)) eqn:E; [by destruct q|].
    exact IH.
Qed.

Lemma truthy_true {A} (l : list A) : truthy l = true <-> l <> [].
Proof. destruct l; simpl; split; congruence. Qed.

Lemma truthy_false {A} (l : list A) : truthy l = false <-> l = [].
Proof. destruct l; simpl; split; congruence. Qed.

(** ** URL normalizer: the path rule *)

(** C7, as the code has it: an empty path becomes [/], the path [/] and a
    path that does not end with [/] stay, and a path that ends with [/] after
    a character other than [/] loses all its trailing slashes, not only the
    last one. *)
Theorem normalize_path_rule :
  normalize_path [] = [slash] /\
  normalize_path [slash] = [slash] /\
  (forall p, p <> [] -> endswith_char slash p = false -> normalize_path p = p) /\
  (forall q n, q <> [] -> endswith_char slash q = false ->
     normalize_path (q ++ repeat slash (S n)) = q).
Proof.
  split; [reflexivity|]. split; [reflexivity|]. split.
  - intros p Hp Hend. unfold normalize_path.
    apply truthy_true in Hp. rewrite Hp, Hend.
    by rewrite andb_false_r.
  - intros q n Hq Hend. unfold normalize_path.
    assert (Hne : q ++ repeat slash (S n) <> []) by (by destruct q).
    apply truthy_true in Hne. rewrite Hne.
    rewrite endswith_char_app_repeat, andb_true_r.
    assert (Hneq : str_eqb (q ++ repeat slash (S n)) [slash] = false).
    { unfold str_eqb. apply bool_decide_eq_false. intros Heq.
      apply (f_equal length) in Heq. rewrite length_app in Heq.
      destruct q; simpl in *; [done | lia]. }
    rewrite Hneq. simpl negb. cbv iota.
    rewrite rstrip_by_app_all.
    + by apply rstrip_by_keeps.
    + clear. induction n as [|n IH]; [reflexivity|]. simpl in *. exact IH.
Qed.

(** [/a//] and [/a/] both become [/a]. *)
Lemma normalize_path_rule_witness :
  normalize_path (lit "/a" ++ repeat slash 2) = lit "/a" /\
  normalize_path (lit "/a") = lit "/a".
Proof.
  destruct normalize_path_rule as (_ & _ & Hkeep & Hstrip).
  split.
  - apply (Hstrip (lit "/a") 1%nat); [discriminate | reflexivity].
  - apply (Hkeep (lit "/a")); [discriminate | reflexivity].
Defined.

(** C7 as stated fails: of the two trailing slashes of [/a//] the code
    strips both, where stripping exactly one leaves [/a/]. *)
Lemma normalize_path_strips_every_slash :
  normalize_path (lit "/a//") = lit "/a" /\
  normalize_path_one_slash (lit "/a//") = lit "/a/" /\
  normalize_path (lit "/a//") <> normalize_path_one_slash (lit "/a//") /\
  _normalize_url (lit "http://h/a//") = Ret (Some (lit "http://h/a")).
Proof. repeat split; try reflexivity. discriminate. Qed.

(** C4: the normalizer is not idempotent. A path made of slashes only is
    stripped to the empty path, which the next normalization turns into
    [/]; and a [;] of the path that was protected by a trailing slash starts
    the params at the next normalization. *)
Theorem normalize_url_not_idempotent :
  _normalize_url (lit "http://a.com//") = Ret (Some (lit "http://a.com")) /\
  _normalize_url (lit "http://a.com") = Ret (Some (lit "http://a.com/")) /\
  _normalize_url (lit "http://h/a;p/") = Ret (Some (lit "http://h/a;p")) /\
  _normalize_url (lit "http://h/a;p") = Ret (Some (lit "http://h/a")).
Proof. repeat split; vm_compute; reflexivity. Qed.

(** ** Scope filter *)


(** The scope scenario of the specification, and the prefix. *)
Example scope_examples :
  _hostname_from_url (lit "http://Example.COM:8080/blog") = Ret (lit "example.com") /\
  _is_same_hostname (lit "http://other.example.com/x") (lit "example.com") = Ret false /\
  _is_same_hostname (lit "http://EXAMPLE.com/x") (lit "example.com") = Ret true /\
  _is_same_hostname (lit "mailto:me@example.com") (lit "example.com") = Ret false /\
  _normalize_url (lit "http://example.com/x#frag") = Ret (Some (lit "http://example.com/x")) /\
  _normalize_url (lit "http://example.com/x/?b=2&a=1") = Ret (Some (lit "http://example.com/x?b=2&a=1")) /\
  _normalize_url (lit "mailto:me@example.com") = Ret None /\
  _normalize_prefix (lit "http://ex.com/blog/?page=2#top") = Ret (lit "http://ex.com/blog") /\
  _normalize_prefix (lit "ftp://ex.com/") = Raised.
Proof. repeat split; vm_compute; reflexivity. Qed.

(** ** Persistence sink: [_sanitize_component] *)

Lemma Forall_lstrip_by (P : N -> Prop) p s :
  Forall P s -> Forall P (lstrip_by p s).
Proof.
  intros H. destruct (lstrip_by_suffix p s) as [t Ht].
  rewrite Ht in H. by apply Forall_app in H as [_ H].
Qed.

Lemma Forall_rstrip_by (P : N -> Prop) p s :
  Forall P s -> Forall P (rstrip_by p s).
Proof.
  intros H. destruct (rstrip_by_prefix p s) as (t & Ht & _).
  rewrite Ht in H. by apply Forall_app in H as [H _].
Qed.

Lemma rstrip_by_head p s c :
  head (rstrip_by p s) = Some c -> head s = Some c.
Proof.
  destruct (rstrip_by_prefix p s) as (t & Ht & _).
  intros H. rewrite Ht. by destruct (rstrip_by p s).
Qed.

Lemma strip_by_ends p s :
  (forall c, head (strip_by p s) = Some c -> p c = false) /\
  (forall c, last (strip_by p s) = Some c -> p c = false).
Proof.
  unfold strip_by. split; intros c H.
  - apply rstrip_by_head in H. by apply lstrip_by_head in H.
  - by apply rstrip_by_last in H.
Qed.

Lemma sanitized_chars value :
  Forall (fun c => component_char c = true)
         (map (fun c => if component_char c then c else underscore) value).
Proof.
  apply Forall_map, Forall_forall. intros c _. simpl.
  destruct (component_char c) eqn:E; [exact E | reflexivity].
Qed.

(** C10: for every string, [_sanitize_component] returns a string that is
    not empty, holds only characters of [[A-Za-z0-9_-]], and neither starts
    nor ends with an underscore; it is ["segment"] when stripping leaves
    nothing. *)
Theorem sanitize_component_safe (value : str) :
  _sanitize_component value <> [] /\
  Forall (fun c => component_char c = true) (_sanitize_component value) /\
  head (_sanitize_component value) <> Some underscore /\
  last (_sanitize_component value) <> Some underscore /\
  (strip_by (is_char underscore)
     (map (fun c => if component_char c then c else underscore) value) = []
   -> _sanitize_component value = lit "segment").
Proof.
  unfold _sanitize_component.
  set (sanitized := map _ value).
  destruct (strip_by_ends (is_char underscore) sanitized) as [Hhd Hlast].
  assert (Hall : Forall (fun c => component_char c = true)
                        (strip_by (is_char underscore) sanitized)).
  { apply Forall_rstrip_by, Forall_lstrip_by, sanitized_chars. }
  destruct (strip_by (is_char underscore) sanitized) as [|c r] eqn:E; simpl truthy; cbv iota.
  - repeat split; try discriminate.
    repeat constructor.
  - repeat split; try done.
    + intros H. apply Hhd in H. discriminate.
    + intros H. apply Hlast in H. discriminate.
Qed.

Example sanitize_component_examples :
  _sanitize_component (lit "__my post!__") = lit "my_post" /\
  _sanitize_component [] = lit "segment" /\
  _sanitize_component (lit "?!") = lit "segment" /\
  _sanitize_component [1587; 1604; 1575; 1605]%N = lit "segment".
Proof. repeat split; reflexivity. Qed.

(** ** Match policy: the post number *)

Section PostNumberFacts.

Variable re_digit : N -> bool.

Definition digits (s : str) : Prop := Forall (fun c => re_digit c = true) s.
Definition no_digit (s : str) : Prop := Forall (fun c => re_digit c = false) s.

(** What follows a run of digits is not a digit. *)
Definition run_ends (b : str) : Prop :=
  forall c, head b = Some c -> re_digit c = false.

Lemma digit_run_maximal r :
  exists b, r = digit_run re_digit r ++ b /\ digits (digit_run re_digit r)
            /\ run_ends b.
Proof.
  unfold digits.
  induction r as [|c r (b & Hr & Hd & Hb)]; simpl.
  - exists []. repeat split; [constructor | intros c; discriminate].
  - destruct (re_digit c) eqn:Hc.
    + exists b. repeat split; [by rewrite Hr at 1 | by constructor | done].
    + exists (c :: r). repeat split; [constructor|].
      intros c' [= <-]. exact Hc.
Qed.

Lemma search_digits_none s : search_digits re_digit s = None -> no_digit s.
Proof.
  unfold no_digit.
  induction s as [|c s IH]; simpl; [constructor|].
  destruct (re_digit c) eqn:Hc; [discriminate|].
  intros H. constructor; auto.
Qed.

Lemma search_digits_some s d :
  search_digits re_digit s = Some d ->
  exists a b, s = a ++ d ++ b /\ no_digit a /\ d <> [] /\ digits d /\ run_ends b.
Proof.
  unfold no_digit, digits.
  induction s as [|c s IH]; simpl; [discriminate|].
  destruct (re_digit c) eqn:Hc.
  - intros [= <-]. destruct (digit_run_maximal s) as (b & Hs & Hd & Hb).
    exists [], b. repeat split; [simpl; by rewrite Hs at 1 | constructor
                               | discriminate | by constructor | done].
  - intros H. destruct (IH H) as (a & b & -> & Ha & Hne & Hd & Hb).
    exists (c :: a), b. repeat split; try done. by constructor.
Qed.

(** C8, as the code has it: the result is the first maximal run of digits of
    the first match that holds a digit, and it is absent exactly when no
    match holds a digit; a digit is a character of the class [\d], which on
    [str] is wider than [0-9]. *)
Theorem extract_post_number_first_run (matches : list str) :
  match _extract_post_number_from_matches re_digit matches with
  | Some number =>
      exists before m after a b,
        matches = before ++ m :: after /\ Forall no_digit before /\
        m = a ++ number ++ b /\ no_digit a /\
        number <> [] /\ digits number /\ run_ends b
  | None => Forall no_digit matches
  end.
Proof.
  induction matches as [|m more IH]; simpl; [constructor|].
  destruct (search_digits re_digit m) as [d|] eqn:Hm.
  - apply search_digits_some in Hm as (a & b & -> & Ha & Hne & Hd & Hb).
    exists [], (a ++ d ++ b), more, a, b. repeat split; try done.
  - apply search_digits_none in Hm.
    destruct (_extract_post_number_from_matches re_digit more) as [d|].
    + destruct IH as (before & m' & after & a & b & -> & Hbefore & -> & H).
      exists (m :: before), (a ++ d ++ b), after, a, b.
      repeat split; try tauto. by constructor.
    + by constructor.
Qed.

End PostNumberFacts.

(** C8 as stated fails: [post/۴۲] holds no ASCII digit, and the code returns
    its run of Persian digits; in [۴a7] the first run of ASCII digits is [7]
    and the code returns [۴]. *)
Lemma extract_post_number_not_ascii :
  Forall (Forall (fun c => ascii_digit c = false)) [lit "post/" ++ [0x6f4; 0x6f2]%N] /\
  extractLeadingNumber_ascii [lit "post/" ++ [0x6f4; 0x6f2]%N] = None /\
  _extract_post_number_from_matches unicode_decimal [lit "post/" ++ [0x6f4; 0x6f2]%N]
    = Some [0x6f4; 0x6f2]%N /\
  extractLeadingNumber_ascii [[0x6f4]%N ++ lit "a7"] = Some (lit "7") /\
  _extract_post_number_from_matches unicode_decimal [[0x6f4]%N ++ lit "a7"]
    = Some [0x6f4]%N.
Proof.
  repeat split; try reflexivity.
  repeat constructor.
Qed.

Example extract_post_number_examples :
  _extract_post_number_from_matches unicode_decimal [lit "post/42"] = Some (lit "42") /\
  _extract_post_number_from_matches unicode_decimal [lit "tag"; lit "p12/345"] = Some (lit "12") /\
  _extract_post_number_from_matches unicode_decimal [lit "tag"; lit "about"] = None.
Proof. repeat split; reflexivity. Qed.

(** ** Crawl engine *)

Section EngineFacts.

Variable w : env.

(** *** What one iteration does *)

Lemma persist_page_effect current text s s' :
  persist_page w current text s = Ret s' ->
  queue s' = queue s /\ discovered s' = discovered s /\
  visited s' = visited s /\ appended s' = appended s /\
  processed s' = (processed s + 1)%Z /\
  ((finditer w current = [] /\ saved s' = saved s /\ pages s' = pages s
    /\ match_log s' = match_log s)
   \/ (finditer w current <> [] /\ saved s' = (saved s + 1)%Z /\
       exists path,
         pages s' = pages s ++ [(path, text)] /\
         match_log s' =
           match_log s ++ [mkMatchRecord current path (finditer w current)])).
Proof.
  unfold persist_page, _save_html.
  destruct (finditer w current) as [|m ms] eqn:Hm; simpl truthy; cbv iota.
  - intros [= <-]. simpl. repeat split; auto.
  - destruct (save_html_path w _ current _) as [path|]; simpl; [|discriminate].
    intros [= <-]. simpl.
    repeat split; auto. right. repeat split; [done|]. by exists path.
Qed.

Lemma discover_effect allowed candidates s s' :
  discover w allowed candidates s = Ret s' ->
  exists new,
    queue s' = queue s ++ new /\ appended s' = appended s ++ new /\
    discovered s' = list_to_set new ∪ discovered s /\
    NoDup new /\ (forall c, c ∈ new -> c ∉ discovered s) /\
    visited s' = visited s /\ saved s' = saved s /\
    processed s' = processed s /\ pages s' = pages s /\
    match_log s' = match_log s.
Proof.
  revert s. induction candidates as [|c more IH]; intros s; simpl.
  - intros [= <-]. exists []. rewrite !app_nil_r.
    split; [done|]. split; [done|]. split.
    { simpl. by rewrite (left_id_L ∅ (∪)). }
    split; [constructor|]. split; [|done].
    intros c Hc. by inversion Hc.
  - intros (same & _ & H)%outcome_bind_ret.
    destruct same; [|by apply IH].
    destruct (decide (c ∈ discovered s)) as [Hin|Hin]; [by apply IH|].
    apply IH in H as (new & Hq & Ha & Hd & Hnd & Hfresh & Hrest).
    simpl in *. exists (c :: new).
    rewrite <- !app_assoc in *. simpl in *.
    assert (Hc : c ∉ new).
    { intros Hc. apply Hfresh in Hc. apply Hc, elem_of_union. left.
      by apply elem_of_singleton. }
    split; [done|]. split; [done|]. split.
    { rewrite Hd. apply set_eq. intros u.
      rewrite !elem_of_union, elem_of_singleton. tauto. }
    split; [by constructor|]. split; [|done].
    intros c' [->|Hc']%elem_of_cons; [done|].
    apply Hfresh in Hc'. intros Hin'. apply Hc', elem_of_union. by right.
Qed.

(** The three ways through the body of the loop. *)
Inductive iteration_case (allowed : str) (s s' : state) : Prop :=
| case_seen current rest :
    queue s = current :: rest -> current ∈ visited s -> s' = popleft s ->
    iteration_case allowed s s'
| case_failed current rest :
    queue s = current :: rest -> current ∉ visited s ->
    fetch w current = None -> s' = mark_visited current (popleft s) ->
    iteration_case allowed s s'
| case_fetched current rest text s1 candidates s2 :
    queue s = current :: rest -> current ∉ visited s ->
    fetch w current = Some text ->
    persist_page w current text (popleft s) = Ret s1 ->
    extract_links w text current = Ret candidates ->
    discover w allowed candidates s1 = Ret s2 ->
    s' = mark_visited current s2 ->
    iteration_case allowed s s'.

Lemma iteration_cases allowed s s' :
  iteration w allowed s = Ret s' -> iteration_case allowed s s'.
Proof.
  unfold iteration. destruct (queue s) as [|current rest] eqn:Hq.
  - discriminate.
  - change (visited (popleft s)) with (visited s).
    destruct (decide (current ∈ visited s)) as [Hv|Hv].
    + intros [= <-]. by eapply case_seen.
    + destruct (fetch w current) as [text|] eqn:Hf.
      * intros (s1 & Hp & H)%outcome_bind_ret.
        apply outcome_bind_ret in H as (candidates & He & H).
        apply outcome_bind_ret in H as (s2 & Hd & [= <-]).
        by eapply case_fetched.
      * intros [= <-]. by eapply case_failed.
Qed.

(** *** Invariants of the loop *)

Lemma after_iterations_invariant (P : state -> Prop) allowed max_pages :
  (forall s s', P s -> loop_test max_pages s = true ->
                iteration w allowed s = Ret s' -> P s') ->
  forall n s s', P s ->
    after_iterations w allowed max_pages n s = Some s' -> P s'.
Proof.
  intros Hstep n. induction n as [|n IH]; intros s s' Hs; simpl.
  - by intros [= <-].
  - destruct (loop_test max_pages s) eqn:Ht; [|discriminate].
    destruct (iteration w allowed s) as [s1|] eqn:Hi; [|discriminate].
    apply IH. by eapply Hstep.
Qed.

Lemma crawl_loop_after fuel allowed max_pages s s' :
  crawl_loop w fuel allowed max_pages s = Some (Ret s') ->
  exists n, after_iterations w allowed max_pages n s = Some s'
            /\ loop_test max_pages s' = false.
Proof.
  revert s. induction fuel as [|fuel IH]; intros s; simpl; [discriminate|].
  destruct (loop_test max_pages s) eqn:Ht.
  - destruct (iteration w allowed s) as [s1|] eqn:Hi; [|discriminate].
    intros (n & Hn & Hend)%IH. exists (S n). simpl. by rewrite Ht, Hi.
  - intros [= <-]. by exists 0%nat.
Qed.

Lemma crawl_returns fuel prefix max_pages p sv :
  crawl w fuel prefix max_pages = Some (Ret (p, sv)) ->
  exists allowed n s,
    hostname_from_url w prefix = Ret allowed /\
    after_iterations w allowed max_pages n (initial prefix) = Some s /\
    loop_test max_pages s = false /\ p = processed s /\ sv = saved s.
Proof.
  unfold crawl, crawl_run.
  destruct (hostname_from_url w prefix) as [allowed|] eqn:Hh; [|discriminate].
  destruct (crawl_loop w fuel allowed max_pages (initial prefix))
    as [[s|]|] eqn:Hl; try discriminate.
  intros [= <- <-]. apply crawl_loop_after in Hl as (n & Hn & Hend).
  by exists allowed, n, s.
Qed.

(** The counters move together: an iteration adds one to [processed] or
    leaves it, and adds one to [saved] only when it adds one to
    [processed]. *)
Lemma iteration_counters allowed s s' :
  iteration w allowed s = Ret s' ->
  (processed s' = processed s /\ saved s' = saved s) \/
  (processed s' = (processed s + 1)%Z /\
   (saved s' = saved s \/ saved s' = (saved s + 1)%Z)).
Proof.
  intros [c r Hq Hv ->|c r Hq Hv Hf ->
         |c r text s1 cands s2 Hq Hv Hf Hp He Hd ->]%iteration_cases;
    try (left; done).
  right. apply persist_page_effect in Hp as (_ & _ & _ & _ & Hpr & Hsv).
  apply discover_effect in Hd as (new & _ & _ & _ & _ & _ & _ & Hs2 & Hp2 & _).
  simpl in *. rewrite Hp2, Hs2, Hpr. split; [done|].
  destruct Hsv as [(_ & -> & _)|(_ & -> & _)]; auto.
Qed.

(** C9: both counters start at 0 and never decrease, [saved] grows only in
    an iteration in which [processed] grows, and so [saved <= processed] at
    every loop head and in the result of [crawl]. *)
Theorem saved_le_processed :
  (forall prefix, saved (initial prefix) = 0%Z /\ processed (initial prefix) = 0%Z) /\
  (forall allowed s s',
     iteration w allowed s = Ret s' ->
     (saved s <= saved s')%Z /\ (processed s <= processed s')%Z /\
     (saved s' - saved s <= processed s' - processed s)%Z) /\
  (forall allowed max_pages prefix n s,
     after_iterations w allowed max_pages n (initial prefix) = Some s ->
     (0 <= saved s <= processed s)%Z) /\
  (forall fuel prefix max_pages p sv,
     crawl w fuel prefix max_pages = Some (Ret (p, sv)) ->
     (0 <= sv <= p)%Z).
Proof.
  assert (Hinv : forall allowed max_pages prefix n s,
     after_iterations w allowed max_pages n (initial prefix) = Some s ->
     (0 <= saved s <= processed s)%Z).
  { intros allowed max_pages prefix n s.
    apply (after_iterations_invariant
             (fun s => (0 <= saved s <= processed s)%Z) allowed max_pages).
    - intros s0 s1 H0 _ Hi. apply iteration_counters in Hi. lia.
    - simpl. lia. }
  split; [done|]. split; [|split; [exact Hinv|]].
  - intros allowed s s' Hi. apply iteration_counters in Hi. lia.
  - intros fuel prefix max_pages p sv H.
    apply crawl_returns in H as (allowed & n & s & _ & Hn & _ & -> & ->).
    by apply Hinv in Hn.
Qed.

(** C5: with a page budget [N > 0], [processed <= N] at every loop head,
    after the [processed += 1] inside the body (the only statement that
    changes it), and in the result of [crawl]: an iteration is entered only
    with [processed < N] and adds at most one. *)
Theorem page_budget_respected (N : Z) :
  (0 < N)%Z ->
  (forall allowed prefix n s,
     after_iterations w allowed N n (initial prefix) = Some s ->
     (processed s <= N)%Z) /\
  (forall allowed prefix n s current text s1,
     after_iterations w allowed N n (initial prefix) = Some s ->
     loop_test N s = true ->
     persist_page w current text (popleft s) = Ret s1 ->
     (processed s1 <= N)%Z) /\
  (forall fuel prefix p sv,
     crawl w fuel prefix N = Some (Ret (p, sv)) -> (p <= N)%Z).
Proof.
  intros HN.
  assert (Hinv : forall allowed prefix n s,
     after_iterations w allowed N n (initial prefix) = Some s ->
     (processed s <= N)%Z).
  { intros allowed prefix n s.
    apply (after_iterations_invariant (fun s => (processed s <= N)%Z) allowed N).
    - intros s0 s1 H0 Ht Hi. apply iteration_counters in Hi.
      unfold loop_test in Ht. apply andb_true_iff in Ht as [_ Ht].
      apply orb_true_iff in Ht as [Ht|Ht]; lia.
    - simpl. lia. }
  split; [exact Hinv|]. split.
  - intros allowed prefix n s current text s1 _ Ht Hp.
    apply persist_page_effect in Hp as (_ & _ & _ & _ & Hp & _).
    unfold loop_test in Ht. apply andb_true_iff in Ht as [_ Ht].
    simpl in Hp. apply orb_true_iff in Ht as [Ht|Ht]; lia.
  - intros fuel prefix p sv H.
    apply crawl_returns in H as (allowed & n & s & _ & Hn & _ & -> & _).
    by apply Hinv in Hn.
Qed.

(** C1, as the code has it: when the fetch of the popped URL fails, the
    iteration ends normally with the URL marked visited and popped from the
    queue, and with the counters, the stored pages, the match log and the
    discovered set as they were: the failure does not count toward
    [processed]. *)
Theorem fetch_failure_skips_page allowed s current rest :
  queue s = current :: rest ->
  current ∉ visited s ->
  fetch w current = None ->
  iteration w allowed s =
    Ret (mkState rest (discovered s) ({[current]} ∪ visited s) (saved s)
                 (processed s) (pages s) (match_log s) (appended s)).
Proof.
  intros Hq Hv Hf. unfold iteration. rewrite Hq.
  change (visited (popleft s)) with (visited s).
  destruct (decide (current ∈ visited s)); [done|].
  rewrite Hf. unfold mark_visited, popleft. simpl. by rewrite Hq.
Qed.

(** C6: whether a fetched page is stored depends on its URL only. The two
    bodies [text1] and [text2] of the same URL give the same counters, the
    same match log and the same file names, a record is written exactly
    when the pattern matches the URL, and when it does not match the page
    is only counted, whatever its body holds. *)
Theorem persistence_ignores_body current text1 text2 s :
  match persist_page w current text1 s, persist_page w current text2 s with
  | Ret s1, Ret s2 =>
      saved s1 = saved s2 /\ processed s1 = processed s2 /\
      match_log s1 = match_log s2 /\
      map fst (pages s1) = map fst (pages s2) /\
      (match_log s1 <> match_log s <-> finditer w current <> []) /\
      (pages s1 <> pages s <-> finditer w current <> [])
  | Raised, Raised => True
  | _, _ => False
  end /\
  (finditer w current = [] ->
   persist_page w current text1 s = Ret (count_processed s)).
Proof.
  unfold persist_page, _save_html.
  destruct (finditer w current) as [|m ms] eqn:Hm; simpl truthy; cbv iota.
  - simpl. repeat split; auto; try congruence.
  - split; [|done].
    destruct (save_html_path w _ current _) as [path|]; simpl; [|done].
    rewrite !map_app.
    repeat split; auto; try congruence; intros _ H;
      apply (f_equal length) in H; rewrite length_app in H; simpl in H; lia.
Qed.

(** *** Deduplication *)

Lemma iteration_appends allowed s s' :
  iteration w allowed s = Ret s' ->
  exists new,
    appended s' = appended s ++ new /\ queue s' = tail (queue s) ++ new /\
    discovered s' = list_to_set new ∪ discovered s /\
    NoDup new /\ (forall c, c ∈ new -> c ∉ discovered s).
Proof.
  intros [c r Hq Hv ->|c r Hq Hv Hf ->
         |c r text s1 cands s2 Hq Hv Hf Hp He Hd ->]%iteration_cases.
  1-2: exists []; simpl; rewrite ?app_nil_r, ?Hq, ?list_to_set_nil,
         ?(left_id_L ∅ (∪));
       repeat split; auto using NoDup_nil_2; intros c0 Hc0; by inversion Hc0.
  apply persist_page_effect in Hp as (Hq1 & Hd1 & _ & Ha1 & _).
  apply discover_effect in Hd as (new & Hq2 & Ha2 & Hd2 & Hnd & Hfresh & _).
  exists new. simpl in *. rewrite Hq2, Ha2, Hd2, Hq1, Ha1, Hd1 in *.
  by repeat split.
Qed.

(** C3: every URL is appended to the queue at most once. An iteration
    appends only candidates that are not in [discovered] and adds them to
    it; [discovered] holds exactly the URLs appended so far, the seed
    included, and it never shrinks. *)
Theorem each_url_enqueued_once :
  (forall allowed s s',
     iteration w allowed s = Ret s' ->
     exists new,
       appended s' = appended s ++ new /\ queue s' = tail (queue s) ++ new /\
       discovered s' = list_to_set new ∪ discovered s /\
       (forall c, c ∈ new -> c ∉ discovered s)) /\
  (forall allowed max_pages prefix n s,
     after_iterations w allowed max_pages n (initial prefix) = Some s ->
     NoDup (appended s) /\ (forall u, u ∈ discovered s <-> u ∈ appended s) /\
     prefix ∈ discovered s) /\
  (forall allowed max_pages n s s',
     after_iterations w allowed max_pages n s = Some s' ->
     discovered s ⊆ discovered s' /\ appended s `prefix_of` appended s').
Proof.
  split; [|split].
  - intros allowed s s' (new & Ha & Hq & Hd & _ & Hfresh)%iteration_appends.
    by exists new.
  - intros allowed max_pages prefix n s.
    apply (after_iterations_invariant
             (fun s => NoDup (appended s) /\
                       (forall u, u ∈ discovered s <-> u ∈ appended s) /\
                       prefix ∈ discovered s) allowed max_pages).
    + intros s0 s1 (Hnd & Hset & Hseed) _
             (new & Ha & _ & Hd & Hnew & Hfresh)%iteration_appends.
      rewrite Ha, Hd. split; [|split].
      * apply NoDup_app. repeat split; [done | | done].
        intros u Hu Hu'. apply Hfresh in Hu'. by apply Hset in Hu.
      * intros u. rewrite elem_of_union, elem_of_list_to_set, elem_of_app, Hset.
        tauto.
      * apply elem_of_union. by right.
    + simpl. split; [|split].
      * apply NoDup_singleton.
      * intros u. by rewrite elem_of_singleton, list_elem_of_singleton.
      * by apply elem_of_singleton.
  - intros allowed max_pages n s s'.
    apply (after_iterations_invariant
             (fun s' => discovered s ⊆ discovered s' /\
                        appended s `prefix_of` appended s') allowed max_pages).
    + intros s0 s1 (Hd0 & Ha0) _ (new & Ha & _ & Hd & _)%iteration_appends.
      rewrite Ha, Hd. split.
      * intros u Hu. apply elem_of_union. right. by apply Hd0.
      * by apply prefix_app_r.
    + done.
Qed.

(** The queue holds no URL twice and no visited URL: the test
    [current in visited] of line 174 never succeeds, and a run fetches a
    URL at most once. *)
Record queue_fresh (s : state) : Prop := mkQueueFresh {
  qf_nodup : NoDup (queue s);
  qf_discovered : forall u, u ∈ queue s -> u ∈ discovered s;
  qf_unvisited : forall u, u ∈ queue s -> u ∉ visited s;
  qf_visited : visited s ⊆ discovered s
}.

Lemma queue_fresh_step allowed s s' :
  queue_fresh s -> iteration w allowed s = Ret s' -> queue_fresh s'.
Proof.
  intros [Hnd Hqd Hqv Hvd] Hi.
  pose proof (iteration_appends _ _ _ Hi) as (new & _ & Hq' & Hd' & Hnew & Hfresh).
  assert (Hv' : visited s' = visited s \/
                exists current rest, queue s = current :: rest /\
                                     visited s' = {[current]} ∪ visited s).
  { apply iteration_cases in Hi
      as [c r Hq Hv ->|c r Hq Hv Hf ->
         |c r text s1 cands s2 Hq Hv Hf Hp He Hd ->]; simpl; eauto.
    apply persist_page_effect in Hp as (_ & _ & Hv1 & _).
    apply discover_effect in Hd as (_ & _ & _ & _ & _ & _ & Hv2 & _).
    right. exists c, r. by rewrite Hv2, Hv1. }
  assert (Htail : forall u, u ∈ tail (queue s) -> u ∈ queue s).
  { intros u Hu. destruct (queue s); [done | by right]. }
  split.
  - rewrite Hq'. apply NoDup_app. repeat split; [|  | done].
    + destruct (queue s); [constructor | by apply NoDup_cons in Hnd as [_ ?]].
    + intros u Hu Hu'. apply Hfresh in Hu'. by apply Hu', Hqd, Htail.
  - intros u. rewrite Hq', Hd', elem_of_app, elem_of_union, elem_of_list_to_set.
    intros [Hu|Hu]; [right; by apply Hqd, Htail | by left].
  - intros u. rewrite Hq', elem_of_app. intros Hu.
    assert (Hold : u ∉ visited s).
    { destruct Hu as [Hu|Hu]; [by apply Hqv, Htail|].
      apply Hfresh in Hu. intros Hv. by apply Hu, Hvd. }
    destruct Hv' as [->|(c & r & Hq & ->)]; [done|].
    rewrite elem_of_union, elem_of_singleton. intros [->|Hv]; [|done].
    rewrite Hq in *. simpl in Hu. destruct Hu as [Hu|Hu].
    + by apply NoDup_cons in Hnd as [Hnd _].
    + apply Hfresh in Hu. apply Hu, Hqd. by left.
  - intros u Hu. rewrite Hd'. apply elem_of_union. right.
    destruct Hv' as [Hv'|(c & r & Hq & Hv')]; rewrite Hv' in Hu.
    + by apply Hvd.
    + apply elem_of_union in Hu as [->%elem_of_singleton|Hu]; [|by apply Hvd].
      apply Hqd. rewrite Hq. by left.
Qed.

(** The URL that an iteration pops has not been visited, and does not occur
    again in the queue. *)
Theorem popped_url_is_fresh allowed max_pages prefix n s current rest :
  after_iterations w allowed max_pages n (initial prefix) = Some s ->
  queue s = current :: rest ->
  (current ∉ visited s) /\ (current ∉ rest).
Proof.
  intros Hn Hq.
  assert (Hs : queue_fresh s).
  { revert Hn. apply after_iterations_invariant.
    - intros s0 s1 H0 _. by apply queue_fresh_step.
    - split; simpl.
      + apply NoDup_singleton.
      + intros u ->%list_elem_of_singleton. by apply elem_of_singleton.
      + intros u _. apply not_elem_of_empty.
      + done. }
  destruct Hs as [Hnd _ Hqv _]. rewrite Hq in *. split.
  - apply Hqv. by left.
  - by apply NoDup_cons in Hnd as [? _].
Qed.

(** *** Termination on a finite site *)

(** The body of the [for] loop on a candidate that is in scope. *)
Definition enqueue_new (s : state) (candidate : str) : state :=
  if decide (candidate ∈ discovered s) then s else enqueue candidate s.

Lemma discover_in_scope allowed candidates links s :
  scope_filter w allowed candidates = Ret links ->
  discover w allowed candidates s = Ret (foldl enqueue_new s links).
Proof.
  revert s links. induction candidates as [|c more IH]; intros s links; simpl.
  - by intros [= <-].
  - destruct (is_same_hostname w c allowed) as [same|]; simpl; [|discriminate].
    destruct (scope_filter w allowed more) as [rest|]; simpl; [|discriminate].
    intros [= <-]. destruct same; simpl; [|by apply IH].
    unfold enqueue_new at 2.
    destruct (decide (c ∈ discovered s)); by apply IH.
Qed.

Lemma foldl_enqueue_new_discovered links s :
  discovered (foldl enqueue_new s links) = list_to_set links ∪ discovered s.
Proof.
  revert s. induction links as [|c links IH]; intros s; simpl.
  - by rewrite (left_id_L ∅ (∪)).
  - rewrite IH. unfold enqueue_new.
    destruct (decide (c ∈ discovered s)) as [Hc|Hc]; simpl.
    + apply set_eq. intros u. rewrite !elem_of_union, elem_of_singleton.
      split; [tauto|]. intros [[->|?]|?]; auto.
    + apply set_eq. intros u. rewrite !elem_of_union, elem_of_singleton. tauto.
Qed.

Lemma scope_filter_in_scope allowed candidates links v :
  scope_filter w allowed candidates = Ret links -> v ∈ links ->
  is_same_hostname w v allowed = Ret true.
Proof.
  revert links. induction candidates as [|c more IH]; intros links; simpl.
  - intros [= <-] Hv. by inversion Hv.
  - destruct (is_same_hostname w c allowed) as [same|] eqn:Hc; simpl;
      [|discriminate].
    destruct (scope_filter w allowed more) as [rest|]; simpl; [|discriminate].
    intros [= <-]. destruct same; [|by apply IH].
    intros [->|Hv]%elem_of_cons; [done | by apply (IH rest)].
Qed.

(** What the crawl reaches is the seed or a URL of the allowed hostname. *)
Lemma reachable_in_scope allowed prefix u :
  reachable w allowed prefix u ->
  u = prefix \/ is_same_hostname w u allowed = Ret true.
Proof.
  revert u. apply rtc_ind_r; [by left|].
  intros y z _ (links & Hl & Hz) _. right.
  unfold in_scope_links in Hl.
  destruct (fetch w y) as [text|]; [|discriminate].
  destruct (extract_links w text y) as [cands|]; simpl in Hl; [|discriminate].
  destruct (scope_filter w allowed cands) as [links0|] eqn:Hs; [|discriminate].
  injection Hl as <-. by eapply scope_filter_in_scope.
Qed.

Section FiniteSite.

Variables (allowed prefix : str).

Hypothesis pages_load :
  forall u, reachable w allowed prefix u ->
            is_Some (in_scope_links w allowed u).

Hypothesis sink_returns :
  forall written u number, save_html_path w written u number <> Raised.

(** The invariant of the breadth-first traversal. *)
Record traversal (s : state) : Prop := mkTraversal {
  trav_nodup : NoDup (queue s);
  trav_split : forall u, u ∈ discovered s <-> u ∈ visited s \/ u ∈ queue s;
  trav_fresh : forall u, u ∈ queue s -> u ∉ visited s;
  trav_sound : forall u, u ∈ discovered s -> reachable w allowed prefix u;
  trav_seed : prefix ∈ discovered s;
  trav_closed : forall u v, u ∈ visited s -> link w allowed u v ->
                            v ∈ discovered s;
  trav_count : processed s = Z.of_nat (size (visited s))
}.

Lemma traversal_initial : traversal (initial prefix).
Proof.
  split; simpl.
  - apply NoDup_singleton.
  - intros u. rewrite elem_of_singleton, list_elem_of_singleton.
    split; [by right|]. intros [H|H]; [by apply not_elem_of_empty in H | done].
  - intros u _. apply not_elem_of_empty.
  - intros u ->%elem_of_singleton. apply rtc_refl.
  - by apply elem_of_singleton.
  - intros u v H. by apply not_elem_of_empty in H.
  - reflexivity.
Qed.

Lemma traversal_step (s : state) (current : str) (rest : list str) :
  traversal s -> queue s = current :: rest ->
  exists s', iteration w allowed s = Ret s' /\ traversal s' /\
             (current ∉ visited s) /\ visited s' = {[current]} ∪ visited s.
Proof.
  intros [Hnd Hsplit Hfresh Hsound Hseed Hclosed Hcount] Hq.
  rewrite Hq in *.
  assert (Hcur : current ∉ visited s) by (apply Hfresh; left).
  assert (HcurD : current ∈ discovered s) by (apply Hsplit; right; left).
  destruct (pages_load current (Hsound _ HcurD)) as [links Hlinks].
  pose proof Hlinks as Hlinks'.
  unfold in_scope_links in Hlinks.
  destruct (fetch w current) as [text|] eqn:Hf; [|discriminate].
  destruct (extract_links w text current) as [cands|] eqn:He;
    simpl in Hlinks; [|discriminate].
  destruct (scope_filter w allowed cands) as [links0|] eqn:Hs; [|discriminate].
  injection Hlinks as ->.
  destruct (persist_page w current text (popleft s)) as [s1|] eqn:Hp.
  2:{ unfold persist_page, _save_html in Hp.
      destruct (truthy (finditer w current)); [|discriminate].
      destruct (save_html_path w _ current _) eqn:Hsave; [discriminate|].
      by apply sink_returns in Hsave. }
  pose proof (discover_in_scope allowed cands links s1 Hs) as Hd.
  pose proof (discover_effect _ _ _ _ Hd)
    as (new & Hq2 & _ & Hd2 & Hnew & Hnewfresh & Hv2 & _ & Hp2 & _).
  pose proof (foldl_enqueue_new_discovered links s1) as Hd2'.
  pose proof (persist_page_effect _ _ _ _ Hp) as (Hq1 & Hd1 & Hv1 & _ & Hp1 & _).
  simpl in Hq1, Hd1, Hv1, Hp1. rewrite Hq in Hq1. simpl in Hq1.
  set (s2 := foldl enqueue_new s1 links) in *.
  exists (mark_visited current s2). split; [|split; [|split; [done|]]].
  - unfold iteration. rewrite Hq.
    change (visited (popleft s)) with (visited s).
    destruct (decide (current ∈ visited s)); [done|].
    rewrite Hf. simpl. rewrite Hp. simpl. rewrite He. simpl.
    by rewrite Hd.
  - apply NoDup_cons in Hnd as [Hcr Hrest].
    assert (Hnew_links : forall u, u ∈ new -> u ∈ links).
    { intros u Hu. assert (u ∈ discovered s2) as Hin.
      { rewrite Hd2. apply elem_of_union. left. by apply elem_of_list_to_set. }
      rewrite Hd2' in Hin. apply elem_of_union in Hin as [Hin|Hin].
      - by apply elem_of_list_to_set in Hin.
      - by apply Hnewfresh in Hu. }
    split; simpl.
    + rewrite Hq2, Hq1. apply NoDup_app. repeat split; [done | | done].
      intros u Hu Hu'. apply Hnewfresh in Hu'. apply Hu'. rewrite Hd1.
      apply Hsplit. right. by right.
    + intros u. rewrite Hd2, Hq2, Hq1, Hv2, Hv1, Hd1.
      rewrite !elem_of_union, elem_of_list_to_set, elem_of_app,
        elem_of_singleton, Hsplit, elem_of_cons. tauto.
    + intros u. rewrite Hq2, Hq1, Hv2, Hv1, elem_of_app, elem_of_union,
        elem_of_singleton.
      intros [Hu|Hu] [->|Hv]; try done.
      * apply (Hfresh u); [by right | done].
      * apply Hnewfresh in Hu. by rewrite Hd1 in Hu.
      * apply Hnewfresh in Hu. apply Hu. rewrite Hd1. apply Hsplit. by left.
    + intros u. rewrite Hd2', Hd1, elem_of_union, elem_of_list_to_set.
      intros [Hu|Hu]; [|by apply Hsound].
      eapply rtc_r; [by apply Hsound|]. by exists links.
    + rewrite Hd2', Hd1. apply elem_of_union. by right.
    + intros u v. rewrite Hv2, Hv1, Hd2', Hd1, !elem_of_union,
        elem_of_singleton, elem_of_list_to_set.
      intros [->|Hu] Hlink.
      * destruct Hlink as (links' & Hl' & Hv). rewrite Hlinks' in Hl'.
        injection Hl' as <-. by left.
      * right. by eapply Hclosed.
    + rewrite Hp2, Hp1, Hv2, Hv1, Hcount.
      rewrite size_union by (apply disjoint_singleton_l; done).
      rewrite size_singleton. lia.
  - simpl. by rewrite Hv2, Hv1.
Qed.

Lemma traversal_visited_reachable (s : state) (R : gset str) :
  (forall u, u ∈ R <-> reachable w allowed prefix u) ->
  traversal s -> visited s ⊆ R.
Proof.
  intros HR Hs u Hu. apply HR. apply (trav_sound s Hs).
  apply (trav_split s Hs). by left.
Qed.

Lemma traversal_terminates (R : gset str) :
  (forall u, u ∈ R <-> reachable w allowed prefix u) ->
  forall k s,
    traversal s -> (size R <= size (visited s) + k)%nat ->
    exists s', crawl_loop w (S k) allowed 0 s = Some (Ret s')
               /\ traversal s' /\ queue s' = [].
Proof.
  intros HR k. induction k as [|k IH]; intros s Hs Hk.
  - destruct (queue s) as [|current rest] eqn:Hq.
    + exists s. simpl. unfold loop_test. by rewrite Hq.
    + destruct (traversal_step s current rest Hs Hq) as (s' & _ & Hs' & Hc & Hv).
      pose proof (subseteq_size _ _ (traversal_visited_reachable s' R HR Hs')) as Hle.
      rewrite Hv, size_union, size_singleton in Hle
        by (by apply disjoint_singleton_l).
      lia.
  - destruct (queue s) as [|current rest] eqn:Hq.
    + exists s. simpl. unfold loop_test. by rewrite Hq.
    + destruct (traversal_step s current rest Hs Hq) as (s' & Hi & Hs' & Hc & Hv).
      destruct (IH s' Hs') as (s'' & Hl & Hs'' & Hq'').
      { rewrite Hv, size_union, size_singleton
          by (by apply disjoint_singleton_l). lia. }
      exists s''. split; [|done].
      change (crawl_loop w (S (S k)) allowed 0 s)
        with (if loop_test 0 s then
                match iteration w allowed s with
                | Ret s' => crawl_loop w (S k) allowed 0 s'
                | Raised => Some Raised
                end
              else Some (Ret s)).
      unfold loop_test at 1. rewrite Hq, Hi. exact Hl.
Qed.

Lemma traversal_complete (s : state) (R : gset str) :
  (forall u, u ∈ R <-> reachable w allowed prefix u) ->
  traversal s -> queue s = [] -> visited s = R.
Proof.
  intros HR Hs Hq. apply set_eq. intros u. split.
  - by apply traversal_visited_reachable.
  - intros Hu%HR.
    assert (Hdv : forall x, x ∈ discovered s -> x ∈ visited s).
    { intros x [Hx|Hx]%(trav_split s Hs); [done|].
      rewrite Hq in Hx. by inversion Hx. }
    revert u Hu. apply rtc_ind_r.
    + apply Hdv, (trav_seed s Hs).
    + intros x y _ Hxy Hx. apply Hdv. by apply (trav_closed s Hs x y).
Qed.

End FiniteSite.

Lemma crawl_loop_more_fuel fuel fuel' allowed max_pages s r :
  crawl_loop w fuel allowed max_pages s = Some r -> (fuel <= fuel')%nat ->
  crawl_loop w fuel' allowed max_pages s = Some r.
Proof.
  revert fuel' s. induction fuel as [|fuel IH]; intros fuel' s; simpl;
    [discriminate|].
  intros H Hle. destruct fuel' as [|fuel']; [lia|]. simpl.
  destruct (loop_test max_pages s); [|done].
  destruct (iteration w allowed s); [|done].
  apply IH; [done | lia].
Qed.

(** C2: on a site whose reachable part is finite (the set [R]: the seed and
    what in-scope links lead to from it, cycles allowed), with no page
    budget, where every reachable page is fetched and parsed without an
    exception and the sink returns, the crawl ends with an empty queue, and
    [processed] is the number of URLs of [R], each of them the seed or a
    URL of the allowed hostname. More fuel than [size R] is enough: the
    loop runs [size R] iterations. *)
Theorem crawl_terminates_on_finite_site (prefix allowed : str) (R : gset str) :
  hostname_from_url w prefix = Ret allowed ->
  (forall u, u ∈ R <-> reachable w allowed prefix u) ->
  (forall u, reachable w allowed prefix u ->
             is_Some (in_scope_links w allowed u)) ->
  (forall written u number, save_html_path w written u number <> Raised) ->
  (forall u, u ∈ R ->
     u = prefix \/ is_same_hostname w u allowed = Ret true) /\
  exists s,
    (forall fuel, (size R < fuel)%nat ->
       crawl_run w fuel prefix 0 = Some (Ret s) /\
       crawl w fuel prefix 0 = Some (Ret (Z.of_nat (size R), saved s))) /\
    queue s = [] /\ visited s = R /\ processed s = Z.of_nat (size R).
Proof.
  intros Hhost HR Hload Hsink.
  split; [intros u Hu%HR; by apply reachable_in_scope|].
  destruct (traversal_terminates allowed prefix Hload Hsink R HR (size R)
              (initial prefix) (traversal_initial allowed prefix))
    as (s & Hl & Hs & Hq); [lia|].
  pose proof (traversal_complete allowed prefix s R HR Hs Hq) as Hv.
  assert (Hp : processed s = Z.of_nat (size R))
    by (rewrite <- Hv; apply (trav_count _ _ s Hs)).
  exists s. repeat split; try done.
  - unfold crawl_run. rewrite Hhost.
    eapply crawl_loop_more_fuel; [exact Hl | lia].
  - unfold crawl, crawl_run. rewrite Hhost.
    erewrite crawl_loop_more_fuel; [| exact Hl | lia]. by rewrite <- Hp.
Qed.

End EngineFacts.

(** ** The properties on the small site *)

Import Scenario.

Ltac by_evaluation := apply (bool_decide_unpack _); vm_compute; exact I.

Definition site_urls : gset str := {[ blog; post42; about ]}.

Lemma site_urls_cases (P : str -> Prop) :
  P blog -> P post42 -> P about -> forall u, u ∈ site_urls -> P u.
Proof.
  intros Hb Hp Ha u. unfold site_urls.
  rewrite !elem_of_union, !elem_of_singleton. intros [[->| ->]| ->]; done.
Qed.

(** The scenario of the specification: three pages processed, one saved as
    [post_42.html] with the match [post/42]. *)
Example site_ok_run :
  crawl (site_env site_ok) 10 blog 0 = Some (Ret (3, 1)%Z) /\
  final match_log (crawl_run (site_env site_ok) 10 blog 0) =
    Some (Ret [mkMatchRecord post42 (lit "post_42.html") [lit "post/42"]]).
Proof. split; vm_compute; reflexivity. Qed.

Lemma site_ok_links_closed u links v :
  u ∈ site_urls ->
  in_scope_links (site_env site_ok) (lit "ex.com") u = Some links ->
  v ∈ links -> v ∈ site_urls.
Proof.
  intros Hu. revert u Hu links v.
  apply (site_urls_cases
           (fun u => forall links v,
              in_scope_links (site_env site_ok) (lit "ex.com") u = Some links ->
              v ∈ links -> v ∈ site_urls));
    intros links v H Hv; vm_compute in H; injection H as <-;
    repeat (apply elem_of_cons in Hv as [->|Hv]; [by_evaluation|]);
    by inversion Hv.
Qed.

Lemma site_ok_pages_load u :
  u ∈ site_urls ->
  is_Some (in_scope_links (site_env site_ok) (lit "ex.com") u).
Proof.
  revert u. apply site_urls_cases; eexists; vm_compute; reflexivity.
Qed.

Lemma site_ok_reachable u :
  u ∈ site_urls <-> reachable (site_env site_ok) (lit "ex.com") blog u.
Proof.
  split.
  - revert u. apply site_urls_cases.
    + apply rtc_refl.
    + apply rtc_once. eexists. split; [vm_compute; reflexivity | by_evaluation].
    + apply rtc_once. eexists. split; [vm_compute; reflexivity | by_evaluation].
  - revert u. apply rtc_ind_r; [by_evaluation|].
    intros y z _ (links & Hl & Hz) Hy. by eapply site_ok_links_closed.
Qed.

(** C2 on the small site: its three reachable pages link to one another in
    a cycle, and the crawl still ends, with [processed = 3]. *)
Lemma crawl_terminates_witness :
  (forall u, u ∈ site_urls ->
     u = blog \/ is_same_hostname (site_env site_ok) u (lit "ex.com") = Ret true) /\
  exists s,
    (forall fuel, (size site_urls < fuel)%nat ->
       crawl_run (site_env site_ok) fuel blog 0 = Some (Ret s) /\
       crawl (site_env site_ok) fuel blog 0
         = Some (Ret (Z.of_nat (size site_urls), saved s))) /\
    queue s = [] /\ visited s = site_urls /\
    processed s = Z.of_nat (size site_urls).
Proof.
  apply (crawl_terminates_on_finite_site (site_env site_ok) blog (lit "ex.com")).
  - vm_compute. reflexivity.
  - exact site_ok_reachable.
  - intros u Hu. by apply site_ok_pages_load, site_ok_reachable.
  - intros written u [number|]; discriminate.
Defined.

(** What C2 assumes of the pages: a malformed [href] makes [urlparse] raise
    inside [_extract_links], and [crawl] does not catch it. *)
Example malformed_href_aborts :
  _normalize_url (lit "http://[") = Raised /\
  crawl (site_env site_malformed) 10 blog 0 = Some Raised.
Proof. split; vm_compute; reflexivity. Qed.

(** C1 on the small site: the seed [post42] does not answer. *)
Lemma fetch_failure_witness :
  iteration (site_env site_timeout) (lit "ex.com") (initial post42) =
    Ret (mkState [] {[post42]} ({[post42]} ∪ ∅) 0 0 [] [] [post42]).
Proof.
  apply (fetch_failure_skips_page (site_env site_timeout) (lit "ex.com")
           (initial post42) post42 []).
  - reflexivity.
  - apply not_elem_of_empty.
  - vm_compute. reflexivity.
Defined.

(** C1 as stated fails: the fetch of [post42] fails and [processed] stays
    as it was; on the site where the queue gets [blog], [post42] and
    [about] and [post42] does not answer, the crawl returns 2 and not 3. *)
Lemma failed_fetch_is_not_counted :
  fetch (site_env site_timeout) post42 = None /\
  (processed <$> iteration (site_env site_timeout) (lit "ex.com") (initial post42))
    = Ret (processed (initial post42)) /\
  final appended (crawl_run (site_env site_timeout) 10 blog 0)
    = Some (Ret [blog; post42; about]) /\
  crawl (site_env site_timeout) 10 blog 0 = Some (Ret (2, 0)%Z).
Proof. repeat split; vm_compute; reflexivity. Qed.

(** C5 on the small site, with a budget of two pages. *)
Lemma page_budget_witness :
  crawl (site_env site_ok) 10 blog 2 = Some (Ret (2, 1)%Z) /\ (2 <= 2)%Z.
Proof.
  split; [vm_compute; reflexivity|].
  destruct (page_budget_respected (site_env site_ok) 2) as (_ & _ & Hcrawl);
    [reflexivity|].
  apply (Hcrawl 10%nat blog 2%Z 1%Z). vm_compute. reflexivity.
Defined.

Example page_budget_run :
  crawl (site_env site_ok) 10 blog 2 = Some (Ret (2, 1)%Z) /\
  crawl (site_env site_ok) 10 blog 1 = Some (Ret (1, 0)%Z).
Proof. split; vm_compute; reflexivity. Qed.

(** C3 on the small site: [about] is linked three times, as
    [about#team], [about/] and [about], and is appended once. *)
Lemma each_url_enqueued_once_witness :
  NoDup [blog; post42; about] /\
  final appended (crawl_run (site_env site_ok) 10 blog 0)
    = Some (Ret [blog; post42; about]).
Proof.
  split; [|vm_compute; reflexivity].
  destruct (each_url_enqueued_once (site_env site_ok)) as (_ & Hrun & _).
  destruct (Hrun (lit "ex.com") 0%Z blog 3%nat
              (mkState [] site_urls site_urls 1 3
                 [(lit "post_42.html", lit "http://ex.com/blog")]
                 [mkMatchRecord post42 (lit "post_42.html") [lit "post/42"]]
                 [blog; post42; about])) as (Hnd & _).
  - vm_compute. reflexivity.
  - exact Hnd.
Defined.

(** Identity is the normalized string: the seed [http://ex.com] and the
    link [http://ex.com/] are two entries of the queue, each appended
    once. *)
Example root_is_queued_under_both_names :
  _normalize_prefix (lit "http://ex.com/") = Ret root /\
  final appended (crawl_run (site_env site_root) 10 root 0)
    = Some (Ret [root; root_slash]) /\
  crawl (site_env site_root) 10 root 0 = Some (Ret (2, 0)%Z).
Proof. repeat split; vm_compute; reflexivity. Qed.

(** C9 on the small site. *)
Lemma saved_le_processed_witness : (0 <= 1 <= 3)%Z.
Proof.
  destruct (saved_le_processed (site_env site_ok)) as (_ & _ & _ & Hcrawl).
  apply (Hcrawl 10%nat blog 0%Z 3%Z 1%Z). vm_compute. reflexivity.
Defined.

(** The state at the head of the loop after the first iteration on the
    small site. *)
Definition site_after_blog : state :=
  mkState [post42; about] site_urls {[blog]} 0 1 [] [] [blog; post42; about].

(** The URL popped next has not been visited and is not queued a second
    time: after the first iteration on the small site, [post42] is at the
    head of the queue. *)
Lemma popped_url_is_fresh_witness :
  (post42 ∉ visited site_after_blog) /\ (post42 ∉ [about]).
Proof.
  apply (popped_url_is_fresh (site_env site_ok) (lit "ex.com") 0%Z blog 1%nat
           site_after_blog post42 [about]).
  - vm_compute. reflexivity.
  - reflexivity.
Defined.

(** * More of the code *)

(** ** Splitting strings *)

#[local] Arguments is_char : simpl never.

Lemma contains_app c a b : contains c (a ++ b) = contains c a || contains c b.
Proof. unfold contains. apply existsb_app. Qed.

Lemma contains_false_Forall c s :
  contains c s = false <-> Forall (fun x => x <> c) s.
Proof.
  unfold contains, is_char. induction s as [|x s IH]; simpl.
  - split; [constructor | done].
  - rewrite orb_false_iff, IH, Forall_cons, N.eqb_neq. split; intros [? ?]; split;
      congruence.
Qed.

Lemma cut_first_some c s a b :
  cut_first c s = Some (a, b) -> s = a ++ c :: b /\ contains c a = false.
Proof.
  revert a. induction s as [|x s IH]; intros a; simpl; [discriminate|].
  destruct (is_char c x) eqn:Hx.
  - intros [= <- <-]. apply N.eqb_eq in Hx as ->. done.
  - destruct (cut_first c s) as [[a' b']|]; [|discriminate].
    intros [= <- <-]. destruct (IH a' eq_refl) as [-> Ha].
    split; [done|]. simpl. by rewrite Hx.
Qed.

Lemma cut_first_none c s : cut_first c s = None -> contains c s = false.
Proof.
  induction s as [|x s IH]; simpl; [done|].
  destruct (is_char c x) eqn:Hx; [discriminate|].
  destruct (cut_first c s) as [[a b]|]; [discriminate|]. auto.
Qed.

Lemma split_at_spec c s a b :
  Urllib.split_at c s = (a, b) ->
  contains c a = false /\ ((s = a /\ b = []) \/ s = a ++ c :: b).
Proof.
  unfold Urllib.split_at. destruct (cut_first c s) as [[a' b']|] eqn:E.
  - intros [= <- <-]. apply cut_first_some in E as [-> Ha]. auto.
  - intros [= <- <-]. apply cut_first_none in E. auto.
Qed.

Lemma span_until_spec p s a b :
  span_until p s = (a, b) ->
  s = a ++ b /\ forallb (fun c => negb (p c)) a = true.
Proof.
  revert a. induction s as [|x s IH]; intros a; simpl.
  - by intros [= <- <-].
  - destruct (p x) eqn:Hx; [by intros [= <- <-]|].
    destruct (span_until p s) as [a' b']. intros [= <- <-].
    destruct (IH a' eq_refl) as [-> Ha]. simpl. by rewrite Hx.
Qed.

Lemma last_segment_app s a b : Urllib.last_segment s = (a, b) -> s = a ++ b.
Proof.
  revert a b. induction s as [|x s IH]; intros a b; simpl.
  - by intros [= <- <-].
  - destruct (Urllib.last_segment s) as [a' b']. specialize (IH a' b' eq_refl).
    destruct (truthy a' || is_char slash x) eqn:E; intros [= <- <-]; subst; [done|].
    apply orb_false_iff in E as [Ha _]. by apply truthy_false in Ha as ->.
Qed.

(** ** URL normalizer: what a normalized URL looks like *)

Lemma double_slash_cases {A} (url : str) (f : str -> A) (d : A) :
  match url with 47%N :: 47%N :: rest => f rest | _ => d end = d \/
  exists rest, url = slash :: slash :: rest /\
               match url with 47%N :: 47%N :: rest => f rest | _ => d end = f rest.
Proof.
  destruct url as [|c1 [|c2 rest]].
  - by left.
  - left. destruct c1 as [|p]; [done|]. do 6 (destruct p as [p|p|]; try done).
  - destruct (decide (c1 = 47%N)) as [->|H1].
    + destruct (decide (c2 = 47%N)) as [->|H2]; [right; by exists rest|].
      left. destruct c2 as [|p]; [done|]. do 6 (destruct p as [p|p|]; try done).
    + left. destruct c1 as [|p]; [done|]. do 6 (destruct p as [p|p|]; try done).
Qed.

(** The text a component is cut from holds it: the path of [urlsplit] has
    neither [#] nor [?], and its netloc and query have no [#]. *)
Lemma urlsplit_components url sch nl p q f :
  Urllib.urlsplit url = Ret (sch, nl, p, q, f) ->
  contains hash nl = false /\ contains hash p = false /\
  contains question p = false /\ contains hash q = false.
Proof.
  unfold Urllib.urlsplit.
  destruct (Urllib.split_scheme _) as [sch0 url3].
  set (cut := match url3 with
              | 47%N :: 47%N :: rest => Urllib.splitnetloc rest
              | _ => ([], url3)
              end).
  assert (Hcases : cut = ([], url3) \/
                   exists rest, url3 = slash :: slash :: rest /\
                                cut = Urllib.splitnetloc rest)
    by apply double_slash_cases.
  clearbody cut. destruct Hcases as [->|(rest & -> & ->)].
  - destruct (Urllib.split_at hash url3) as [url5 f0] eqn:Hf.
    destruct (Urllib.split_at question url5) as [p0 q0] eqn:Hq.
    destruct (Urllib.netloc_modelled []); [|discriminate].
    intros [= <- <- <- <- <-].
    apply split_at_spec in Hf as [Hh5 _].
    apply split_at_spec in Hq as [Hqp Hsplit].
    split; [done|].
    destruct Hsplit as [[-> ->]| ->]; [done|].
    rewrite contains_app in Hh5. apply orb_false_iff in Hh5 as [? H2].
    change (contains hash (question :: q0)) with (contains hash q0) in H2.
    done.
  - destruct (Urllib.splitnetloc rest) as [nl0 url4] eqn:Hcut.
    destruct (Urllib.split_at hash url4) as [url5 f0] eqn:Hf.
    destruct (Urllib.split_at question url5) as [p0 q0] eqn:Hq.
    destruct (Urllib.netloc_modelled nl0); [|discriminate].
    intros [= <- <- <- <- <-].
    apply split_at_spec in Hf as [Hh5 _].
    apply split_at_spec in Hq as [Hqp Hsplit].
    split.
    { apply span_until_spec in Hcut as [_ Hall].
      apply contains_false_Forall. rewrite forallb_forall in Hall.
      apply Forall_forall. intros x Hx%list_elem_of_In%Hall ->. done. }
    destruct Hsplit as [[-> ->]| ->]; [done|].
    rewrite contains_app in Hh5. apply orb_false_iff in Hh5 as [? H2].
    change (contains hash (question :: q0)) with (contains hash q0) in H2.
    done.
Qed.

Lemma splitparams_prefix url a b :
  Urllib.splitparams url = (a, b) -> exists t, url = a ++ t.
Proof.
  unfold Urllib.splitparams.
  destruct (Urllib.last_segment url) as [a0 b0] eqn:E.
  apply last_segment_app in E as ->.
  destruct (cut_first semicolon b0) as [[b1 b2]|] eqn:Hc.
  - intros [= <- <-]. apply cut_first_some in Hc as [-> _].
    exists (semicolon :: b2). by rewrite <- app_assoc.
  - intros [= <- <-]. exists []. by rewrite app_nil_r.
Qed.

Lemma contains_prefix c a t : contains c (a ++ t) = false -> contains c a = false.
Proof. rewrite contains_app. by intros [? _]%orb_false_iff. Qed.

Lemma urlparse_components url p :
  Urllib.urlparse url = Ret p ->
  contains hash (Urllib.netloc p) = false /\
  contains hash (Urllib.path p) = false /\
  contains question (Urllib.path p) = false /\
  contains hash (Urllib.query p) = false.
Proof.
  unfold Urllib.urlparse.
  destruct (Urllib.urlsplit url) as [[[[[sch nl] pa] q] f]|] eqn:E;
    unfold mbind, outcome_bind; cbv beta iota; [|discriminate].
  apply urlsplit_components in E as (Hnl & Hp & Hpq & Hq).
  destruct (Urllib.member sch Urllib.uses_params && contains semicolon pa).
  - destruct (Urllib.splitparams pa) as [pa' params] eqn:Hs.
    intros [= <-]. simpl. apply splitparams_prefix in Hs as [t ->].
    apply contains_prefix in Hp, Hpq. done.
  - by intros [= <-].
Qed.

Lemma normalize_path_keeps_out c p :
  c <> slash -> contains c p = false -> contains c (normalize_path p) = false.
Proof.
  intros Hc Hp. unfold normalize_path.
  assert (Hpath : contains c (if truthy p then p else [slash]) = false).
  { destruct (truthy p); [done|]. unfold contains. simpl.
    rewrite orb_false_r. unfold is_char. by apply N.eqb_neq. }
  destruct (negb _ && _); [|done].
  destruct (rstrip_by_prefix (is_char slash) (if truthy p then p else [slash]))
    as (t & Ht & _).
  rewrite Ht in Hpath. by eapply contains_prefix.
Qed.

(** An absolute [http] or [https] URL without a fragment. *)
Definition http_url (n : str) : Prop :=
  contains hash n = false /\
  exists rest, n = lit "http:" ++ rest \/ n = lit "https:" ++ rest.

Lemma http_scheme_cases s :
  http_scheme s = true -> s = lit "http" \/ s = lit "https".
Proof.
  unfold http_scheme, str_eqb.
  intros [H|H]%orb_true_iff; apply bool_decide_eq_true in H; auto.
Qed.

Lemma contains_hash_slash s : contains hash (slash :: s) = contains hash s.
Proof. reflexivity. Qed.

Lemma contains_hash_question s : contains hash (question :: s) = contains hash s.
Proof. reflexivity. Qed.

Ltac case_if :=
  match goal with |- context [if ?c then _ else _] => destruct c eqn:? end.

(** [urlunsplit] of a scheme and no fragment: the scheme, a colon, and a
    text that holds a [#] only if a component does. *)
Lemma urlunsplit_shape sch nl url q :
  truthy sch = true ->
  exists body,
    Urllib.urlunsplit sch nl url q [] = sch ++ colon :: body /\
    (contains hash nl = false -> contains hash url = false ->
     contains hash q = false -> contains hash body = false).
Proof.
  intros Hsch. unfold Urllib.urlunsplit. cbv zeta. rewrite Hsch.
  cbn [truthy]. cbv iota.
  repeat case_if; eexists;
    (split; [rewrite <- ?app_assoc; simpl; reflexivity|]);
    intros Hnl Hurl Hq;
    repeat (rewrite ?contains_app, ?contains_hash_slash,
              ?contains_hash_question, ?Hnl, ?Hurl, ?Hq; simpl app);
    reflexivity.
Qed.

(** The normalized URL is an absolute [http(s)] URL and holds no [#]: the
    fragment is gone, whatever the input was; in particular it is never the
    empty string. *)
Lemma normalized_http_url raw n :
  _normalize_url raw = Ret (Some n) -> http_url n.
Proof.
  unfold _normalize_url.
  destruct (Urllib.urldefrag raw) as [cleaned|];
    unfold mbind, outcome_bind; cbv beta iota; [|discriminate].
  destruct (Urllib.urlparse cleaned) as [p|] eqn:E; [|discriminate].
  destruct (http_scheme (Urllib.scheme p)) eqn:Hs; cbn [negb]; cbv iota zeta;
    [|discriminate].
  intros [= <-].
  apply urlparse_components in E as (Hnl & Hp & _ & Hq).
  apply (normalize_path_keeps_out hash) in Hp; [|done].
  unfold Urllib.geturl, Urllib.urlunparse.
  cbn [Urllib.params Urllib.path Urllib.scheme Urllib.netloc Urllib.query
       Urllib.fragment truthy]. cbv iota.
  destruct (urlunsplit_shape (Urllib.scheme p) (Urllib.netloc p)
              (normalize_path (Urllib.path p)) (Urllib.query p))
    as (body & -> & Hbody).
  { by apply http_scheme_cases in Hs as [-> | ->]. }
  specialize (Hbody Hnl Hp Hq).
  apply http_scheme_cases in Hs as [-> | ->]; split.
  - change (contains hash (lit "http" ++ colon :: body))
      with (contains hash body). done.
  - exists body. by left.
  - change (contains hash (lit "https" ++ colon :: body))
      with (contains hash body). done.
  - exists body. by right.
Qed.



(** ** Link extractor *)

Section LinkFacts.

Variable select_hrefs : str -> list str.
Variable urljoin : str -> str -> outcome str.

(** Where a link comes from: an [href] of the document that is not blank,
    joined to the base and normalized. *)
Definition link_of (hrefs : list str) (base_url n : str) : Prop :=
  exists h joined,
    h ∈ hrefs /\ strip_by is_space h <> [] /\
    urljoin base_url (strip_by is_space h) = Ret joined /\
    _normalize_url joined = Ret (Some n).

Lemma links_of_hrefs_spec hrefs base_url links :
  links_of_hrefs urljoin hrefs base_url = Ret links ->
  (length links <= length hrefs)%nat /\
  Forall (link_of hrefs base_url) links.
Proof.
  revert links. induction hrefs as [|h more IH]; intros links; simpl.
  - intros [= <-]. split; [done | constructor].
  - assert (Hmore : forall l, Forall (link_of more base_url) l ->
                              Forall (link_of (h :: more) base_url) l).
    { intros l Hl. eapply Forall_impl; [exact Hl|].
      intros n (h' & j & Hh & Hrest).
      exists h', j. split; [by right | done]. }
    destruct (truthy (strip_by is_space h)) eqn:Hh; simpl.
    + destruct (urljoin base_url (strip_by is_space h)) as [joined|] eqn:Hj;
        simpl; [|discriminate].
      destruct (_normalize_url joined) as [normalized|] eqn:Hn; simpl;
        [|discriminate].
      destruct (links_of_hrefs urljoin more base_url) as [rest|]; simpl;
        [|discriminate].
      destruct (IH rest eq_refl) as [Hlen Hall].
      destruct normalized as [n|]; [destruct (truthy n)|]; intros [= <-];
        simpl; (split; [lia|]); auto.
      constructor; [|auto]. exists h, joined. repeat split; try done.
      * by left.
      * by apply truthy_true.
    + intros Hl. destruct (IH links Hl) as [Hlen Hall]. split; [lia | auto].
Qed.

Lemma extract_links_http_urls html base_url links :
  _extract_links select_hrefs urljoin html base_url = Ret links ->
  Forall http_url links.
Proof.
  intros [_ Hall]%links_of_hrefs_spec.
  eapply Forall_impl; [exact Hall|].
  intros n (h & joined & _ & _ & _ & Hn). by eapply normalized_http_url.
Qed.


End LinkFacts.

(** ** Crawl engine: what is queued *)

Section EngineScope.

Variable w : env.

Lemma discover_appends_candidates allowed candidates s s' :
  discover w allowed candidates s = Ret s' ->
  forall c, c ∈ appended s' ->
    c ∈ appended s \/
    (c ∈ candidates /\ is_same_hostname w c allowed = Ret true).
Proof.
  revert s. induction candidates as [|x more IH]; intros s; simpl.
  - intros [= <-] c Hc. by left.
  - destruct (is_same_hostname w x allowed) as [same|] eqn:Hx; simpl;
      [|discriminate].
    assert (Hmore : forall s0, discover w allowed more s0 = Ret s' ->
              forall c, c ∈ appended s' ->
                c ∈ appended s0 \/
                (c ∈ x :: more /\ is_same_hostname w c allowed = Ret true)).
    { intros s0 H c Hc. destruct (IH s0 H c Hc) as [?|[? ?]]; [by left|].
      right. split; [by right | done]. }
    destruct same; [|by apply Hmore].
    destruct (decide (x ∈ discovered s)); [by apply Hmore|].
    intros H c Hc. destruct (Hmore _ H c Hc) as [Hin|?]; [|by right].
    simpl in Hin. apply elem_of_app in Hin as [?|Hin]; [by left|].
    apply list_elem_of_singleton in Hin as ->. right. split; [by left | done].
Qed.

(** Every URL the crawl queues, the seed apart, has come out of
    [extract_links] and has passed the scope filter. *)
Lemma queued_urls_are_in_scope (P : str -> Prop) allowed max_pages prefix n s :
  (forall text u links, extract_links w text u = Ret links -> Forall P links) ->
  after_iterations w allowed max_pages n (initial prefix) = Some s ->
  forall u, u ∈ appended s ->
    u = prefix \/ (P u /\ is_same_hostname w u allowed = Ret true).
Proof.
  intros HP Hn.
  apply (after_iterations_invariant w
           (fun s => forall u, u ∈ appended s ->
              u = prefix \/ (P u /\ is_same_hostname w u allowed = Ret true))
           allowed max_pages) with (n := n) (s := initial prefix);
    [| |exact Hn].
  - intros s0 s1 H0 _
      [c r Hq Hv ->|c r Hq Hv Hf ->
      |c r text s2 cands s3 Hq Hv Hf Hp He Hd ->]%iteration_cases; try done.
    intros u Hu. simpl in Hu.
    apply persist_page_effect in Hp as (_ & _ & _ & Ha & _).
    destruct (discover_appends_candidates _ _ _ _ Hd u Hu) as [Hin|[Hin Hs]].
    + apply H0. by rewrite Ha in Hin.
    + right. split; [|done].
      apply HP in He. rewrite Forall_forall in He. by apply He.
  - simpl. intros u ->%list_elem_of_singleton. by left.
Qed.

End EngineScope.


(** ** Crawl engine: the order of the fetches *)

Section Fifo.

Variable w : env.

(** The queue is the part of the history that has not been popped, and the
    visited set holds what has been. *)
Definition first_in_first_out (popped : list str) (s : state) : Prop :=
  appended s = popped ++ queue s /\ visited s = list_to_set popped.

Lemma iteration_pops allowed s s' popped :
  iteration w allowed s = Ret s' -> first_in_first_out popped s ->
  exists current, head (queue s) = Some current /\
                  first_in_first_out (popped ++ [current]) s'.
Proof.
  intros [c r Hq Hv ->|c r Hq Hv Hf ->
         |c r text s1 cands s2 Hq Hv Hf Hp He Hd ->]%iteration_cases
    [Happ Hvis]; exists c; (split; [by rewrite Hq|]); unfold first_in_first_out.
  - simpl. rewrite Happ, Hq, <- app_assoc. split; [done|].
    rewrite list_to_set_app_L. simpl. rewrite Hvis in *.
    apply set_eq. intros x. rewrite !elem_of_union, elem_of_singleton.
    split; [by left|]. intros [?|[->|[]%elem_of_empty]]; done.
  - simpl. rewrite Happ, Hq, <- app_assoc. split; [done|].
    rewrite list_to_set_app_L. simpl. rewrite Hvis.
    apply set_eq. intros x. rewrite !elem_of_union, elem_of_singleton.
    rewrite elem_of_empty. tauto.
  - apply persist_page_effect in Hp as (Hq1 & _ & Hv1 & Ha1 & _).
    apply discover_effect in Hd
      as (new & Hq2 & Ha2 & _ & _ & _ & Hv2 & _).
    simpl in *. rewrite Ha2, Ha1, Hq2, Hq1, Happ, Hq, <- !app_assoc.
    split; [done|]. rewrite Hv2, Hv1, Hvis, list_to_set_app_L. simpl.
    apply set_eq. intros x. rewrite !elem_of_union, elem_of_singleton.
    rewrite elem_of_empty. tauto.
Qed.

(** The queue is first in, first out: after [n] iterations the [n] URLs
    appended first have been popped, in that order, they are the visited
    ones, and the queue holds the rest of what was appended, in the order
    of discovery. *)
Theorem crawl_is_first_in_first_out allowed max_pages prefix n s :
  after_iterations w allowed max_pages n (initial prefix) = Some s ->
  exists popped,
    length popped = n /\ appended s = popped ++ queue s /\
    visited s = list_to_set popped.
Proof.
  assert (Hgen : forall n s0 popped,
    after_iterations w allowed max_pages n s0 = Some s ->
    first_in_first_out popped s0 ->
    exists popped', length popped' = (length popped + n)%nat /\
                    first_in_first_out popped' s).
  { clear n. induction n as [|n IH]; intros s0 popped; simpl.
    - intros [= <-] H. exists popped. split; [lia|done].
    - destruct (loop_test max_pages s0); [|discriminate].
      destruct (iteration w allowed s0) as [s1|] eqn:Hi; [|discriminate].
      intros Hn Hs0.
      destruct (iteration_pops _ _ _ _ Hi Hs0) as (c & _ & Hs1).
      destruct (IH _ _ Hn Hs1) as (popped' & Hlen & H').
      exists popped'. split; [|done]. rewrite length_app in Hlen. simpl in Hlen.
      lia. }
  intros Hn. destruct (Hgen n (initial prefix) [] Hn) as (popped & Hlen & H).
  - split; [done|]. simpl. done.
  - exists popped. by destruct H.
Qed.

End Fifo.

(** After the first iteration on the small site, the seed has been popped
    and its two links wait in the order of the page. *)
Lemma crawl_is_first_in_first_out_witness :
  exists popped,
    length popped = 1%nat /\
    appended site_after_blog = popped ++ queue site_after_blog /\
    visited site_after_blog = list_to_set popped.
Proof.
  apply (crawl_is_first_in_first_out (site_env site_ok) (lit "ex.com") 0%Z
           blog 1%nat site_after_blog).
  vm_compute. reflexivity.
Defined.

(** ** Persistence sink: file names *)

Lemma lstrip_by_fixed p s :
  (forall c, head s = Some c -> p c = false) -> lstrip_by p s = s.
Proof. destruct s as [|x s]; simpl; [done|]. intros H. by rewrite (H x). Qed.

Lemma rstrip_by_fixed p s :
  (forall c, last s = Some c -> p c = false) -> rstrip_by p s = s.
Proof.
  induction s as [|x s IH]; simpl; [done|]. intros H.
  destruct s as [|y s].
  - simpl. by rewrite (H x).
  - rewrite IH; [done|]. intros c Hc. apply H. exact Hc.
Qed.

Lemma strip_by_fixed p s :
  (forall c, head s = Some c -> p c = false) ->
  (forall c, last s = Some c -> p c = false) -> strip_by p s = s.
Proof.
  intros Hh Hl. unfold strip_by. rewrite (lstrip_by_fixed p s Hh).
  by apply rstrip_by_fixed.
Qed.

(** [_sanitize_component] is idempotent: a sanitized component is kept as
    it is. *)
Theorem sanitize_component_idempotent (value : str) :
  _sanitize_component (_sanitize_component value) = _sanitize_component value.
Proof.
  unfold _sanitize_component at 2 3.
  set (sanitized := map _ value).
  destruct (strip_by_ends (is_char underscore) sanitized) as [Hhd Hlast].
  assert (Hall : Forall (fun c => component_char c = true)
                        (strip_by (is_char underscore) sanitized)).
  { apply Forall_rstrip_by, Forall_lstrip_by, sanitized_chars. }
  destruct (strip_by (is_char underscore) sanitized) as [|c r] eqn:E;
    simpl truthy; cbv iota; [reflexivity|].
  unfold _sanitize_component.
  assert (Hmap : map (fun c => if component_char c then c else underscore)
                     (c :: r) = c :: r).
  { clear -Hall. induction Hall as [|x l Hx _ IH]; simpl; [done|].
    by rewrite Hx, IH. }
  rewrite Hmap, (strip_by_fixed _ _ Hhd Hlast). reflexivity.
Qed.
(** *** UTF-8: decoding what was encoded *)

(** The quotients and remainders of a code point by 64, as variables. *)
Ltac split_sixes c :=
  let q1 := fresh "q" in let q2 := fresh "q" in let q3 := fresh "q" in
  let r0 := fresh "r" in let r1 := fresh "r" in let r2 := fresh "r" in
  replace (c / 4096)%N with (c / 64 / 64)%N in *
    by (rewrite N.Div0.div_div; reflexivity);
  replace (c / 262144)%N with (c / 64 / 64 / 64)%N in *
    by (rewrite !N.Div0.div_div; reflexivity);
  pose proof (N.div_mod' c 64);
  pose proof (N.mod_lt c 64 ltac:(discriminate));
  pose proof (N.div_mod' (c / 64) 64);
  pose proof (N.mod_lt (c / 64) 64 ltac:(discriminate));
  pose proof (N.div_mod' (c / 64 / 64) 64);
  pose proof (N.mod_lt (c / 64 / 64) 64 ltac:(discriminate));
  set (q1 := (c / 64)%N) in *; set (r0 := (c mod 64)%N) in *;
  set (q2 := (q1 / 64)%N) in *; set (r1 := (q1 mod 64)%N) in *;
  set (q3 := (q2 / 64)%N) in *; set (r2 := (q2 mod 64)%N) in *;
  clearbody q3 r2; clearbody q2 r1; clearbody q1 r0.

(** The comparisons of the goal, decided by arithmetic. *)
Ltac decide_tests :=
  repeat match goal with
  | |- context [(?a <? ?b)%N] => destruct (N.ltb_spec a b); try lia
  | |- context [(?a <=? ?b)%N] => destruct (N.leb_spec a b); try lia
  | |- context [(?a =? ?b)%N] => destruct (N.eqb_spec a b); try lia
  end.

(** The bytes of a character decode to it. *)
Lemma decode_encode_char c bs t :
  Utf8.encode_char c = Some bs -> Utf8.decode_ignore (bs ++ t) = c :: Utf8.decode_ignore t.
Proof.
  unfold Utf8.encode_char, in_range. intros H. split_sixes c.
  revert H. decide_tests; simpl; try discriminate; intros [= <-];
    cbn [app Utf8.decode_ignore]; unfold Utf8.second_of_three, Utf8.second_of_four, Utf8.continuation, in_range;
    decide_tests; cbn [andb]; f_equal; lia.
Qed.

Lemma encode_char_length c bs :
  Utf8.encode_char c = Some bs -> length bs = Utf8.char_size c.
Proof.
  unfold Utf8.encode_char, Utf8.char_size.
  repeat case_match; try discriminate; by intros [= <-].
Qed.

Lemma char_size_pos c : (1 <= Utf8.char_size c)%nat.
Proof. unfold Utf8.char_size. repeat case_match; lia. Qed.

(** A character cut by the end of the data is dropped. *)
Lemma decode_cut_char c bs k :
  Utf8.encode_char c = Some bs -> (k < length bs)%nat ->
  Utf8.decode_ignore (take k bs) = [].
Proof.
  unfold Utf8.encode_char, in_range. intros H. split_sixes c.
  revert H. decide_tests; simpl; try discriminate; intros [= <-] Hk;
    simpl in Hk;
    repeat (destruct k as [|k]; [|try lia]);
    cbn [take Utf8.decode_ignore]; try reflexivity;
    unfold Utf8.second_of_three, Utf8.second_of_four, Utf8.continuation, in_range;
    decide_tests; cbn [andb]; reflexivity.
Qed.

(** Decoding the first [n] bytes gives the whole characters among them. *)
Lemma decode_take_encode s e n :
  Utf8.encode s = Ret e -> Utf8.decode_ignore (take n e) = Utf8.fit n s.
Proof.
  revert e n. induction s as [|c r IH]; intros e n; simpl.
  - intros [= <-]. by rewrite take_nil.
  - destruct (Utf8.encode_char c) as [bs|] eqn:Hc; [|discriminate].
    destruct (Utf8.encode r) as [e'|] eqn:Hr; simpl; [|discriminate].
    intros [= <-]. pose proof (encode_char_length _ _ Hc) as Hlen.
    rewrite take_app. destruct (Nat.leb_spec (Utf8.char_size c) n) as [Hle|Hlt].
    + rewrite take_ge by lia. rewrite (decode_encode_char _ _ _ Hc).
      rewrite Hlen. f_equal. by apply IH.
    + replace (n - length bs)%nat with 0%nat by lia. rewrite take_0, app_nil_r.
      apply (decode_cut_char c); [done | lia].
Qed.

Lemma encode_length s e : Utf8.encode s = Ret e -> length e = Utf8.byte_size s.
Proof.
  revert e. induction s as [|c r IH]; intros e; simpl.
  - by intros [= <-].
  - destruct (Utf8.encode_char c) as [bs|] eqn:Hc; [|discriminate].
    destruct (Utf8.encode r) as [e'|] eqn:Hr; simpl; [|discriminate].
    intros [= <-]. rewrite length_app, (encode_char_length _ _ Hc), (IH e') by done.
    reflexivity.
Qed.

Lemma decode_encode s e : Utf8.encode s = Ret e -> Utf8.decode_ignore e = s.
Proof.
  revert e. induction s as [|c r IH]; intros e; simpl.
  - by intros [= <-].
  - destruct (Utf8.encode_char c) as [bs|] eqn:Hc; [|discriminate].
    destruct (Utf8.encode r) as [e'|] eqn:Hr; simpl; [|discriminate].
    intros [= <-]. rewrite (decode_encode_char _ _ _ Hc). f_equal. by apply IH.
Qed.

Lemma fit_prefix n s : Utf8.fit n s `prefix_of` s.
Proof.
  revert n. induction s as [|c r IH]; intros n; simpl; [done|].
  case_match; [|apply prefix_nil]. apply prefix_cons, IH.
Qed.

Lemma fit_size n s : (Utf8.byte_size (Utf8.fit n s) <= n)%nat.
Proof.
  revert n. induction s as [|c r IH]; intros n; simpl; [unfold Utf8.byte_size; simpl; lia|].
  destruct (Nat.leb_spec (Utf8.char_size c) n); [|unfold Utf8.byte_size; simpl; lia].
  unfold Utf8.byte_size in *. simpl. specialize (IH (n - Utf8.char_size c)%nat). lia.
Qed.

Lemma fit_greatest n s p :
  p `prefix_of` s -> (Utf8.byte_size p <= n)%nat -> p `prefix_of` Utf8.fit n s.
Proof.
  revert n p. induction s as [|c r IH]; intros n p Hp Hn; simpl.
  - done.
  - destruct p as [|x p]; [apply prefix_nil|].
    apply prefix_cons_inv_1 in Hp as Hx. subst x.
    apply prefix_cons_inv_2 in Hp.
    unfold Utf8.byte_size in Hn. simpl in Hn.
    destruct (Nat.leb_spec (Utf8.char_size c) n); [|lia].
    apply prefix_cons, IH; [done|]. unfold Utf8.byte_size. lia.
Qed.

Lemma encode_prefix p s e :
  p `prefix_of` s -> Utf8.encode s = Ret e -> exists ep, Utf8.encode p = Ret ep.
Proof.
  revert s e. induction p as [|c p IH]; intros s e Hp; simpl; [eauto|].
  destruct s as [|x s]; [by apply prefix_nil_not in Hp|].
  apply prefix_cons_inv_1 in Hp as Hx. subst x.
  apply prefix_cons_inv_2 in Hp. simpl.
  destruct (Utf8.encode_char c) as [bs|]; [|discriminate].
  destruct (Utf8.encode s) as [e'|] eqn:Hs; simpl; [|discriminate].
  intros _. destruct (IH _ _ Hp Hs) as [ep ->]. simpl. eauto.
Qed.

(** *** [_truncate_for_filename] *)

(** When [_truncate_for_filename] returns, the result is a prefix of the
    value, made of whole characters; its UTF-8 encoding has at most
    [max_bytes] bytes (none when [max_bytes] is negative); and it is the
    longest such prefix: every prefix of the value that fits is a prefix of
    the result. *)
Theorem truncate_for_filename_fits value max_bytes r :
  Sink._truncate_for_filename value max_bytes = Ret r ->
  r `prefix_of` value /\
  (exists er, Utf8.encode r = Ret er /\
              (Z.of_nat (length er) <= Z.max 0 max_bytes)%Z) /\
  forall p ep, p `prefix_of` value -> Utf8.encode p = Ret ep ->
    (Z.of_nat (length ep) <= max_bytes)%Z -> p `prefix_of` r.
Proof.
  unfold Sink._truncate_for_filename.
  destruct (Z.leb_spec max_bytes 0) as [Hneg|Hpos].
  - intros [= <-]. split; [apply prefix_nil|]. split.
    + exists []. split; [done|]. simpl. lia.
    + intros p ep _ Hp Hlen. rewrite (encode_length _ _ Hp) in Hlen.
      destruct p as [|c p]; [done|]. unfold Utf8.byte_size in Hlen. simpl in Hlen.
      pose proof (char_size_pos c). lia.
  - destruct (Utf8.encode value) as [e|] eqn:He; simpl; [|discriminate].
    destruct (Z.leb_spec (Z.of_nat (length e)) max_bytes) as [Hfit|Hcut];
      intros [= <-].
    + split; [done|]. split; [exists e; split; [done|lia]|]. by intros p ep Hp _ _.
    + rewrite (decode_take_encode _ _ _ He).
      split; [apply fit_prefix|]. split.
      * destruct (encode_prefix _ _ _ (fit_prefix (Z.to_nat max_bytes) value) He)
          as [er Her].
        exists er. split; [done|]. rewrite (encode_length _ _ Her).
        pose proof (fit_size (Z.to_nat max_bytes) value). lia.
      * intros p ep Hp Hep Hlen. apply fit_greatest; [done|].
        rewrite (encode_length _ _ Hep) in Hlen. lia.
Qed.

(** [a] and two Persian digits of two bytes each, cut at two bytes: the
    first digit does not fit. *)
Lemma truncate_for_filename_fits_witness :
  [97%N] `prefix_of` [97; 0x6F4; 0x6F2]%N /\
  (exists er, Utf8.encode [97%N] = Ret er /\
              (Z.of_nat (length er) <= Z.max 0 2)%Z) /\
  forall p ep, p `prefix_of` [97; 0x6F4; 0x6F2]%N -> Utf8.encode p = Ret ep ->
    (Z.of_nat (length ep) <= 2)%Z -> p `prefix_of` [97%N].
Proof.
  apply (truncate_for_filename_fits [97; 0x6F4; 0x6F2]%N 2). reflexivity.
Defined.

(** *** [_pick_unique_path] *)

Lemma lit_inj a b : lit a = lit b -> a = b.
Proof.
  unfold lit. revert b. induction a as [|x a IH]; intros [|y b]; simpl; try done.
  intros [= Hxy Hab]. f_equal; [|by apply IH].
  rewrite <- (ascii_N_embedding x), <- (ascii_N_embedding y). by rewrite Hxy.
Qed.

Lemma decimal_inj i j : Sink.decimal i = Sink.decimal j -> i = j.
Proof.
  unfold Sink.decimal. intros H%lit_inj.
  apply (f_equal NilEmpty.uint_of_string) in H.
  rewrite !NilEmpty.usu in H. injection H as H.
  apply (f_equal Nat.of_uint) in H. by rewrite !DecimalNat.Unsigned.of_to in H.
Qed.

(** The candidate [target_dir / f"{stem}_{index}{suffix}"]. *)
Definition numbered (target_dir stem suffix : str) (index : nat) : str :=
  Sink.in_dir target_dir (stem ++ underscore :: Sink.decimal index ++ suffix).

Lemma numbered_inj d stem suffix i j :
  numbered d stem suffix i = numbered d stem suffix j -> i = j.
Proof.
  unfold numbered, Sink.in_dir. intros H.
  apply app_inv_head in H. injection H as H. apply app_inv_head in H.
  injection H as H. apply app_inv_tail in H. by apply decimal_inj.
Qed.

Lemma probe_some existing d stem suffix fuel index p :
  Sink.probe existing d stem suffix fuel index = Some p ->
  exists i, (index <= i < index + fuel)%nat /\ p = numbered d stem suffix i /\
    (p ∉ existing) /\
    forall j, (index <= j < i)%nat -> numbered d stem suffix j ∈ existing.
Proof.
  revert index. induction fuel as [|fuel IH]; intros index; simpl; [done|].
  fold (numbered d stem suffix index).
  destruct (decide (numbered d stem suffix index ∈ existing)) as [Hin|Hout].
  - intros (i & Hi & -> & Hp & Hbelow)%IH. exists i.
    split; [lia|]. split; [done|]. split; [done|].
    intros j Hj. destruct (decide (j = index)) as [->|]; [done|].
    apply Hbelow. lia.
  - intros [= <-]. exists index. split; [lia|]. split; [done|]. split; [done|].
    intros j Hj. lia.
Qed.

Lemma probe_none existing d stem suffix fuel index :
  Sink.probe existing d stem suffix fuel index = None ->
  forall j, (index <= j < index + fuel)%nat -> numbered d stem suffix j ∈ existing.
Proof.
  revert index. induction fuel as [|fuel IH]; intros index; simpl; [lia|].
  fold (numbered d stem suffix index).
  destruct (decide (numbered d stem suffix index ∈ existing)) as [Hin|Hout];
    [|done].
  intros H j Hj. destruct (decide (j = index)) as [->|]; [done|].
  apply (IH _ H). lia.
Qed.

(** The candidates are pairwise distinct, so that more probes than there
    are paths find one that does not exist. *)
Lemma probe_finds existing d stem suffix fuel index :
  (size existing < fuel)%nat ->
  is_Some (Sink.probe existing d stem suffix fuel index).
Proof.
  intros Hfuel.
  destruct (Sink.probe existing d stem suffix fuel index) eqn:Hp; [done|].
  exfalso. pose proof (probe_none _ _ _ _ _ _ Hp) as Hall.
  set (names := map (numbered d stem suffix) (seq index fuel)).
  assert (Hnd : NoDup names).
  { apply NoDup_fmap_2; [|apply NoDup_seq]. intros i j. apply numbered_inj. }
  assert (Hsub : list_to_set names ⊆ existing).
  { intros x [i [-> Hi%elem_of_seq]]%elem_of_list_to_set%list_elem_of_fmap.
    apply Hall. lia. }
  apply subseteq_size in Hsub. rewrite size_list_to_set in Hsub by done.
  unfold names in Hsub. rewrite length_map, length_seq in Hsub. lia.
Qed.

Lemma pick_unique_path_finds existing target_dir stem suffix fuel :
  (size existing < fuel)%nat ->
  exists p,
    Sink._pick_unique_path existing target_dir stem suffix fuel = Some p /\
    (p ∉ existing).
Proof.
  intros Hfuel. unfold Sink._pick_unique_path.
  destruct (decide (Sink.in_dir target_dir (stem ++ suffix) ∈ existing))
    as [Hin|Hout]; [|by eexists].
  destruct (probe_finds existing target_dir stem suffix fuel 1 Hfuel)
    as [p Hp].
  exists p. split; [done|]. by apply probe_some in Hp as (i & _ & _ & ? & _).
Qed.

(** The [while True] loop of [_pick_unique_path] ends: with more probes
    than there are paths, it returns a path that does not exist, which is
    [stem + suffix] when that is free, and otherwise the numbered candidate
    of the least index from 1 that is free. *)
Theorem pick_unique_path_fresh existing target_dir stem suffix fuel :
  (size existing < fuel)%nat ->
  exists p,
    Sink._pick_unique_path existing target_dir stem suffix fuel = Some p /\
    (p ∉ existing) /\
    (p = Sink.in_dir target_dir (stem ++ suffix) \/
     Sink.in_dir target_dir (stem ++ suffix) ∈ existing /\
     exists index, (1 <= index)%nat /\
       p = numbered target_dir stem suffix index /\
       forall j, (1 <= j < index)%nat ->
         numbered target_dir stem suffix j ∈ existing).
Proof.
  intros Hfuel. unfold Sink._pick_unique_path.
  destruct (decide (Sink.in_dir target_dir (stem ++ suffix) ∈ existing))
    as [Hin|Hout].
  - destruct (probe_finds existing target_dir stem suffix fuel 1 Hfuel)
      as [p Hp].
    exists p. split; [done|].
    apply probe_some in Hp as (i & Hi & -> & Hfresh & Hbelow).
    split; [done|]. right. split; [done|]. exists i.
    split; [lia|]. split; [done|]. intros j Hj. apply Hbelow. lia.
  - eexists. split; [done|]. split; [done|]. by left.
Qed.

(** [a.html] and [a_1.html] exist: the path is [a_2.html]. *)
Lemma pick_unique_path_fresh_witness :
  exists p,
    Sink._pick_unique_path
      {[ lit "out/h/a.html"; lit "out/h/a_1.html" ]} (lit "out/h") (lit "a")
      (lit ".html") 3 = Some p /\
    (p ∉ ({[ lit "out/h/a.html"; lit "out/h/a_1.html" ]} : gset str)) /\
    (p = Sink.in_dir (lit "out/h") (lit "a" ++ lit ".html") \/
     Sink.in_dir (lit "out/h") (lit "a" ++ lit ".html")
       ∈ ({[ lit "out/h/a.html"; lit "out/h/a_1.html" ]} : gset str) /\
     exists index, (1 <= index)%nat /\
       p = numbered (lit "out/h") (lit "a") (lit ".html") index /\
       forall j, (1 <= j < index)%nat ->
         numbered (lit "out/h") (lit "a") (lit ".html") j
           ∈ ({[ lit "out/h/a.html"; lit "out/h/a_1.html" ]} : gset str)).
Proof.
  apply (pick_unique_path_fresh
           {[ lit "out/h/a.html"; lit "out/h/a_1.html" ]} (lit "out/h")
           (lit "a") (lit ".html") 3).
  vm_compute. lia.
Defined.

(** *** The name [_save_html] gives a page *)

Lemma encode_ascii s :
  Forall (fun c => (c < 0x80)%N) s -> Utf8.encode s = Ret s.
Proof.
  induction 1 as [|c r Hc _ IH]; simpl; [done|].
  unfold Utf8.encode_char. apply N.ltb_lt in Hc. by rewrite Hc, IH.
Qed.

Lemma component_char_ascii c : component_char c = true -> (c < 0x80)%N.
Proof.
  unfold component_char, ascii_upper, ascii_lower, ascii_digit, in_range,
    is_char, underscore.
  intros H. repeat (apply orb_prop in H as [H|H]);
    try (apply andb_prop in H as [_ H%N.leb_le]; lia);
    apply N.eqb_eq in H; lia.
Qed.

Lemma sanitize_component_chars value :
  _sanitize_component value <> [] /\
  Forall (fun c => component_char c = true) (_sanitize_component value).
Proof.
  unfold _sanitize_component. set (sanitized := map _ value).
  assert (Hall : Forall (fun c => component_char c = true)
                        (strip_by (is_char underscore) sanitized)).
  { apply Forall_rstrip_by, Forall_lstrip_by, sanitized_chars. }
  destruct (strip_by (is_char underscore) sanitized) as [|c r];
    simpl truthy; cbv iota; [|done].
  split; [done|]. repeat constructor.
Qed.

(** A digit of [hexdigest()]. *)
Definition hex_digit (c : N) : bool := ascii_digit c || in_range 97 102 c.

Lemma hex_digit_component c : hex_digit c = true -> component_char c = true.
Proof.
  unfold hex_digit, component_char, ascii_lower, in_range.
  intros [->|[H1%N.leb_le H2%N.leb_le]%andb_prop]%orb_prop;
    [by rewrite !orb_true_r|].
  assert ((97 <=? c)%N && (c <=? 122)%N = true) as ->; [|by rewrite !orb_true_r].
  apply andb_true_intro. split; [apply N.leb_le | apply N.leb_le]; lia.
Qed.

(** A character of a file name that [_save_html] builds without a post
    number. *)
Definition filename_char (c : N) : bool := component_char c || is_char 46 c.

Lemma hex_word_shape x :
  length (Sha256.hex_word x) = 8%nat /\
  Forall (fun c => hex_digit c = true) (Sha256.hex_word x).
Proof.
  split; [reflexivity|]. unfold Sha256.hex_word.
  apply Forall_map, Forall_forall. intros i _. simpl.
  pose proof (N.mod_lt (x / 16 ^ N.of_nat i) 16 ltac:(discriminate)) as Hd.
  set (d := (_ mod 16)%N) in *. clearbody d.
  unfold Sha256.hex_char, hex_digit, ascii_digit, in_range.
  destruct (N.ltb_spec d 10).
  - apply orb_true_intro. left. apply andb_true_intro.
    split; apply N.leb_le; lia.
  - apply orb_true_intro. right. apply andb_true_intro.
    split; apply N.leb_le; lia.
Qed.

(** A digest has 64 hexadecimal digits. *)
Lemma hexdigest_shape message :
  length (Sha256.hexdigest message) = 64%nat /\
  Forall (fun c => hex_digit c = true) (Sha256.hexdigest message).
Proof.
  unfold Sha256.hexdigest. split.
  - rewrite !length_app. by rewrite !(proj1 (hex_word_shape _)).
  - repeat (apply Forall_app; split); apply hex_word_shape.
Qed.

Lemma hashed_shape u :
  length (take 16 (Sha256.hexdigest u)) = 16%nat /\
  Forall (fun c => component_char c = true) (take 16 (Sha256.hexdigest u)).
Proof.
  destruct (hexdigest_shape u) as [Hlen Hall]. split.
  - rewrite length_take. lia.
  - apply Forall_take. eapply Forall_impl; [exact Hall|].
    apply hex_digit_component.
Qed.

Lemma truncate_ascii value max_bytes :
  Forall (fun c => (c < 0x80)%N) value -> (0 <= max_bytes)%Z ->
  Sink._truncate_for_filename value max_bytes = Ret (take (Z.to_nat max_bytes) value).
Proof.
  intros Hascii Hmax. unfold Sink._truncate_for_filename.
  destruct (Z.leb_spec max_bytes 0).
  - replace max_bytes with 0%Z by lia. by rewrite take_0.
  - rewrite (encode_ascii _ Hascii). simpl.
    destruct (Z.leb_spec (Z.of_nat (length value)) max_bytes).
    + by rewrite take_ge by lia.
    + f_equal. apply decode_encode, encode_ascii. by apply Forall_take.
Qed.



(** *** The files of a run *)

(** The file [_save_html] picks exists neither before the run nor among the
    pages of the run, and picking it never fails. *)
Lemma target_file_fresh output_dir initial_files written url post_number :
  match Sink.target_file output_dir initial_files written url
                    post_number with
  | Ret p =>
      (p ∉ initial_files) /\ (p ∉ written) /\
      exists netloc stem,
        Sink.html_name url post_number = Ret (netloc, stem)
  | Raised => Sink.html_name url post_number = Raised
  end.
Proof.
  unfold Sink.target_file.
  destruct (Sink.html_name url post_number) as [[netloc stem]|];
    simpl; [|done].
  set (existing := initial_files ∪ list_to_set written).
  destruct (pick_unique_path_finds existing (Sink.in_dir output_dir netloc) stem
              (lit ".html") (S (size existing)) ltac:(lia))
    as (p & -> & Hfresh).
  split; [|split; [|by eauto]]; intros Hin; apply Hfresh, elem_of_union.
  - by left.
  - right. by apply elem_of_list_to_set.
Qed.

Section EngineFiles.

Variable w : env.

(** What [persist_page] stores, with the call of the sink. *)
Lemma persist_page_saves current text s s' :
  persist_page w current text s = Ret s' ->
  (finditer w current = [] /\ saved s' = saved s /\ pages s' = pages s /\
   match_log s' = match_log s) \/
  (finditer w current <> [] /\ saved s' = (saved s + 1)%Z /\
   exists path,
     save_html_path w (map fst (pages s)) current
       (_extract_post_number_from_matches (re_digit w) (finditer w current))
       = Ret path /\
     pages s' = pages s ++ [(path, text)] /\
     match_log s' =
       match_log s ++ [mkMatchRecord current path (finditer w current)]).
Proof.
  unfold persist_page, _save_html.
  destruct (finditer w current) as [|m ms] eqn:Hm; simpl truthy; cbv iota.
  - intros [= <-]. left. done.
  - change (pages (count_processed s)) with (pages s).
    destruct (save_html_path w _ current _) as [path|] eqn:Hs; simpl;
      [|discriminate].
    intros [= <-]. right. split; [done|]. split; [done|]. by exists path.
Qed.

(** The log and the files agree: [saved] counts the lines of the log; the
    lines name the files written, in order; no URL has two lines; and each
    line is for a visited URL, with the text fetched from it in the file
    and the matches of the pattern in it, of which there is one at least. *)
Definition log_agrees (s : state) : Prop :=
  saved s = Z.of_nat (length (match_log s)) /\
  map rec_file (match_log s) = map fst (pages s) /\
  NoDup (map rec_url (match_log s)) /\
  Forall2 (fun r page =>
             rec_url r ∈ visited s /\
             fetch w (rec_url r) = Some (snd page) /\
             rec_matches r = finditer w (rec_url r) /\
             rec_matches r <> [])
          (match_log s) (pages s).

(** At every loop head of a run, the log and the files agree. *)
Theorem match_log_agrees_with_files allowed max_pages prefix n s :
  after_iterations w allowed max_pages n (initial prefix) = Some s ->
  log_agrees s.
Proof.
  apply (after_iterations_invariant w log_agrees allowed max_pages).
  2: { unfold log_agrees. simpl. split; [done|]. split; [done|].
       split; constructor. }
  intros s0 s1 (Hsaved & Hfiles & Hnd & Hall) _
    [c r Hq Hv ->|c r Hq Hv Hf ->
    |c r text s2 cands s3 Hq Hv Hf Hp He Hd ->]%iteration_cases.
  - done.
  - unfold log_agrees. simpl. split; [done|]. split; [done|]. split; [done|].
    eapply Forall2_impl; [exact Hall|]. simpl.
    intros x y (? & ? & ? & ?). split; [|done]. apply elem_of_union. by right.
  - apply discover_effect in Hd
      as (new & _ & _ & _ & _ & _ & Hv3 & Hs3 & _ & Hp3 & Hm3).
    apply persist_page_effect in Hp as Hp'.
    destruct Hp' as (_ & _ & Hv2 & _ & _ & _).
    assert (Hold : Forall2 (fun r page =>
              rec_url r ∈ {[c]} ∪ visited s3 /\
              fetch w (rec_url r) = Some (snd page) /\
              rec_matches r = finditer w (rec_url r) /\
              rec_matches r <> []) (match_log s0) (pages s0)).
    { eapply Forall2_impl; [exact Hall|]. simpl.
      intros x y (? & ? & ? & ?). split; [|done].
      apply elem_of_union. right. by rewrite Hv3, Hv2. }
    unfold log_agrees. simpl. rewrite Hs3, Hp3, Hm3.
    apply persist_page_saves in Hp
      as [(_ & -> & -> & ->)|(Hm & -> & path & _ & -> & ->)]; simpl.
    + done.
    + split; [rewrite length_app; simpl; lia|].
      split; [by rewrite !map_app, Hfiles|].
      split.
      * rewrite map_app. simpl. apply NoDup_app. split; [done|].
        split; [|apply NoDup_singleton].
        intros u Hu ->%list_elem_of_singleton. apply Hv.
        apply list_elem_of_fmap in Hu as (rcd & -> & Hrcd).
        clear -Hall Hrcd. induction Hall as [|x y l k Hxy _ IH]; [by inversion Hrcd|].
        apply elem_of_cons in Hrcd as [->|Hrcd]; [by destruct Hxy | by apply IH].
      * apply Forall2_app; [done|]. constructor; [|constructor]. simpl.
        split; [apply elem_of_union; left; by apply elem_of_singleton|done].
Qed.

Section FreshSink.

Variable keeps : str -> Prop.

Hypothesis sink_fresh : forall written url post_number path,
  save_html_path w written url post_number = Ret path ->
  (path ∉ written) /\ keeps path.

(** With a sink that picks a path outside the pages written so far, no
    path is written twice. *)
Lemma fresh_sink_never_overwrites allowed max_pages prefix n s :
  after_iterations w allowed max_pages n (initial prefix) = Some s ->
  NoDup (map fst (pages s)) /\ Forall keeps (map fst (pages s)).
Proof.
  apply (after_iterations_invariant w
           (fun s => NoDup (map fst (pages s)) /\
                     Forall keeps (map fst (pages s))) allowed max_pages).
  2: { simpl. split; constructor. }
  intros s0 s1 [Hnd Hkeeps] _
    [c r Hq Hv ->|c r Hq Hv Hf ->
    |c r text s2 cands s3 Hq Hv Hf Hp He Hd ->]%iteration_cases; try done.
  apply discover_effect in Hd
    as (new & _ & _ & _ & _ & _ & _ & _ & _ & Hp3 & _).
  simpl. rewrite Hp3.
  apply persist_page_saves in Hp
    as [(_ & _ & -> & _)|(_ & _ & path & Hpath & -> & _)]; [done|].
  apply sink_fresh in Hpath as [Hfresh Hkeep]. simpl in Hfresh.
  rewrite map_app. simpl. split.
  - apply NoDup_app. split; [done|]. split; [|apply NoDup_singleton].
    by intros u Hu ->%list_elem_of_singleton.
  - apply Forall_app. split; [done|]. by constructor.
Qed.

End FreshSink.

End EngineFiles.


(** *** The small site, stored under [out] *)

(** [out/ex_com/post_42.html] exists before the run. *)
Definition disk : gset str := {[ lit "out/ex_com/post_42.html" ]}.

Definition site_disk_env : env :=
  python_env words join_absolute (lookup_page site_ok) post_matches
             unicode_decimal (Sink.target_file (lit "out") disk).

(** The state at the head of the loop after two iterations: the page of
    [post42] is stored beside the file that was there. *)
Definition site_after_post42 : state :=
  mkState [about] site_urls {[blog; post42]} 1 2
    [(lit "out/ex_com/post_42_1.html", lit "http://ex.com/blog")]
    [mkMatchRecord post42 (lit "out/ex_com/post_42_1.html") [lit "post/42"]]
    [blog; post42; about].

(** On the small site after two iterations: one record, for the page of
    [post42]. *)
Lemma match_log_agrees_with_files_witness :
  log_agrees site_disk_env site_after_post42.
Proof.
  apply (match_log_agrees_with_files site_disk_env (lit "ex.com") 0%Z blog
           2%nat site_after_post42).
  vm_compute. reflexivity.
Defined.





(** ** The log [matches.jsonl] *)

(** A character of a line of the log: printable ASCII. *)
Definition printable (c : N) : bool := in_range 32 126 c.

Lemma hex_char_printable d :
  (d < 16)%N -> printable (Sha256.hex_char d) = true.
Proof.
  intros Hd. unfold printable, in_range, Sha256.hex_char.
  destruct (N.ltb_spec d 10); apply andb_true_intro; split; apply N.leb_le; lia.
Qed.

Lemma hex4_printable n : Forall (fun c => printable c = true) (Json.hex4 n).
Proof.
  unfold Json.hex4. apply Forall_map, Forall_forall. intros i _. simpl.
  apply hex_char_printable, N.mod_lt. discriminate.
Qed.

Lemma escape_char_printable c :
  Forall (fun x => printable x = true) (Json.escape_char c).
Proof.
  unfold Json.escape_char.
  do 7 (case_match; [by repeat constructor|]).
  destruct (in_range 32 126 c) eqn:Hc; [by repeat constructor|].
  case_match.
  - do 2 (constructor; [done|]). apply hex4_printable.
  - do 2 (constructor; [done|]). apply Forall_app. split; [apply hex4_printable|].
    do 2 (constructor; [done|]). apply hex4_printable.
Qed.

Lemma dumps_str_printable s :
  Forall (fun x => printable x = true) (Json.dumps_str s).
Proof.
  unfold Json.dumps_str. constructor; [done|]. apply Forall_app. split.
  - induction s as [|c s IH]; simpl; [constructor|].
    apply Forall_app. split; [apply escape_char_printable | exact IH].
  - by repeat constructor.
Qed.

Lemma join_comma_printable items :
  Forall (Forall (fun x => printable x = true)) items ->
  Forall (fun x => printable x = true) (Json.join_comma items).
Proof.
  induction 1 as [|x more Hx Hmore IH]; [constructor|].
  destruct more as [|y more]; [done|].
  change (Forall (fun c => printable c = true)
            (x ++ lit ", " ++ Json.join_comma (y :: more))).
  apply Forall_app. split; [done|]. apply Forall_app. split; [|done].
  by repeat constructor.
Qed.

(** A record of the log is one line: [json.dump] writes printable ASCII
    characters only, whatever the URL and the matches hold, so that the
    line feeds of the log are those that [_record_match] writes after each
    record. *)
Theorem record_is_one_line (r : MatchRecord) :
  Forall (fun c => printable c = true) (Json.dumps_metadata r).
Proof.
  unfold Json.dumps_metadata, Json.dumps_list.
  repeat (apply Forall_app; split);
    try apply dumps_str_printable; try (by repeat constructor).
  apply join_comma_printable, Forall_map, Forall_forall.
  intros s _. apply dumps_str_printable.
Qed.

(** A Unicode scalar value: a code point that is not a surrogate. Strings
    of scalar values are those that [str.encode("utf-8")] accepts. *)
Definition scalar (c : N) : bool :=
  ((c <? 0xD800) || (0xDFFF <? c))%N && (c <? 0x110000)%N.

Definition unhex_char (h : N) : N := (if h <? 58 then h - 48 else h - 87)%N.

Definition unhex4 (h3 h2 h1 h0 : N) : N :=
  (((unhex_char h3 * 16 + unhex_char h2) * 16 + unhex_char h1) * 16
   + unhex_char h0)%N.

(** Reads one character off an escaped string. *)
Definition read_char (s : str) : option (N * str) :=
  match s with
  | 92 :: 117 :: h3 :: h2 :: h1 :: h0 :: t =>
      let n := unhex4 h3 h2 h1 h0 in
      if in_range 0xD800 0xDBFF n then
        match t with
        | 92 :: 117 :: l3 :: l2 :: l1 :: l0 :: t' =>
            Some (0x10000 + (n - 0xD800) * 1024
                  + (unhex4 l3 l2 l1 l0 - 0xDC00), t')
        | _ => None
        end
      else Some (n, t)
  | 92 :: e :: t =>
      Some (if is_char 110 e then 10 else if is_char 114 e then 13
            else if is_char 116 e then 9 else if is_char 98 e then 8
            else if is_char 102 e then 12 else e, t)
  | c :: t => if is_char 34 c then None else Some (c, t)
  | [] => None
  end%N.

Lemma unhex_hex_char d : (d < 16)%N -> unhex_char (Sha256.hex_char d) = d.
Proof.
  intros Hd. unfold unhex_char, Sha256.hex_char.
  destruct (N.ltb_spec d 10).
  - destruct (N.ltb_spec (48 + d) 58); lia.
  - destruct (N.ltb_spec (87 + d) 58); lia.
Qed.

Lemma hex4_cases n :
  (n < 0x10000)%N ->
  exists h3 h2 h1 h0,
    Json.hex4 n = [h3; h2; h1; h0] /\ unhex4 h3 h2 h1 h0 = n.
Proof.
  intros Hn. eexists _, _, _, _. split; [reflexivity|].
  unfold unhex4. rewrite !unhex_hex_char by (apply N.mod_lt; discriminate).
  change (16 ^ N.of_nat 3)%N with 4096%N.
  change (16 ^ N.of_nat 2)%N with 256%N.
  change (16 ^ N.of_nat 1)%N with 16%N.
  change (16 ^ N.of_nat 0)%N with 1%N.
  rewrite N.div_1_r.
  replace (n / 256)%N with (n / 16 / 16)%N by (rewrite N.Div0.div_div; done).
  replace (n / 4096)%N with (n / 16 / 16 / 16)%N
    by (rewrite !N.Div0.div_div; done).
  pose proof (N.div_mod' n 16). pose proof (N.mod_lt n 16 ltac:(discriminate)).
  pose proof (N.div_mod' (n / 16) 16).
  pose proof (N.mod_lt (n / 16) 16 ltac:(discriminate)).
  pose proof (N.div_mod' (n / 16 / 16) 16).
  pose proof (N.mod_lt (n / 16 / 16) 16 ltac:(discriminate)).
  set (q1 := (n / 16)%N) in *. set (r0 := (n mod 16)%N) in *.
  set (q2 := (q1 / 16)%N) in *. set (r1 := (q1 mod 16)%N) in *.
  set (q3 := (q2 / 16)%N) in *. set (r2 := (q2 mod 16)%N) in *.
  assert (q3 mod 16 = q3)%N as ->.
  { apply N.mod_small. clearbody q3 r2 q2 r1 q1 r0. lia. }
  clearbody q3 r2 q2 r1 q1 r0. lia.
Qed.

Lemma read_escape_char c t :
  scalar c = true -> read_char (Json.escape_char c ++ t) = Some (c, t).
Proof.
  intros Hc. unfold Json.escape_char, is_char, Json.quote, Json.backslash.
  destruct (N.eqb_spec 34 c) as [<-|H34]; [reflexivity|].
  destruct (N.eqb_spec 92 c) as [<-|H92]; [reflexivity|].
  destruct (N.eqb_spec 10 c) as [<-|H10]; [reflexivity|].
  destruct (N.eqb_spec 13 c) as [<-|H13]; [reflexivity|].
  destruct (N.eqb_spec 9 c) as [<-|H9]; [reflexivity|].
  destruct (N.eqb_spec 8 c) as [<-|H8]; [reflexivity|].
  destruct (N.eqb_spec 12 c) as [<-|H12]; [reflexivity|].
  destruct (in_range 32 126 c) eqn:Hp.
  - unfold in_range in Hp.
    apply andb_prop in Hp as [H1%N.leb_le H2%N.leb_le].
    change ([c] ++ t) with (c :: t). unfold read_char.
    assert (is_char 34 c = false) as Hq by (apply N.eqb_neq; lia).
    destruct c as [|p]; [lia|].
    do 7 (destruct p as [p|p|]; try (exfalso; lia); try reflexivity).
  - unfold scalar in Hc. apply andb_prop in Hc as [Hs Hmax%N.ltb_lt].
    destruct (N.ltb_spec c 0x10000) as [Hlow|Hhigh].
    + destruct (hex4_cases c Hlow) as (h3 & h2 & h1 & h0 & -> & Hn).
      change (read_char (92 :: 117 :: h3 :: h2 :: h1 :: h0 :: t)%N
              = Some (c, t)).
      unfold read_char. rewrite Hn.
      assert (in_range 0xD800 0xDBFF c = false) as ->; [|done].
      unfold in_range. apply andb_false_iff.
      apply orb_prop in Hs as [Hs%N.ltb_lt|Hs%N.ltb_lt];
        [left|right]; apply N.leb_gt; lia.
    + pose proof (N.div_mod' (c - 0x10000) 1024) as Hdiv.
      pose proof (N.mod_lt (c - 0x10000) 1024 ltac:(discriminate)) as Hmod.
      assert (Hq : ((c - 0x10000) / 1024 < 1024)%N).
      { apply N.Div0.div_lt_upper_bound. lia. }
      rewrite (N.mod_small _ _ Hq).
      set (q := ((c - 0x10000) / 1024)%N) in *.
      set (r := ((c - 0x10000) mod 1024)%N) in *. clearbody q r.
      destruct (hex4_cases (0xD800 + q)) as (h3 & h2 & h1 & h0 & -> & Hh);
        [lia|].
      destruct (hex4_cases (0xDC00 + r)) as (l3 & l2 & l1 & l0 & -> & Hl);
        [lia|].
      change (read_char (92 :: 117 :: h3 :: h2 :: h1 :: h0
                         :: 92 :: 117 :: l3 :: l2 :: l1 :: l0 :: t)%N
              = Some (c, t)).
      unfold read_char. rewrite Hh, Hl.
      assert (in_range 0xD800 0xDBFF (0xD800 + q) = true) as ->.
      { unfold in_range. apply andb_true_intro. split; apply N.leb_le; lia. }
      f_equal. f_equal. lia.
Qed.

(** A string is read off its escaped form up to the closing quote. *)
Lemma escaped_inj s1 s2 t1 t2 :
  Forall (fun c => scalar c = true) s1 ->
  Forall (fun c => scalar c = true) s2 ->
  flat_map Json.escape_char s1 ++ Json.quote :: t1
  = flat_map Json.escape_char s2 ++ Json.quote :: t2 ->
  s1 = s2 /\ t1 = t2.
Proof.
  intros H1. revert s2. induction H1 as [|c1 s1 Hc1 _ IH];
    intros s2 H2; destruct H2 as [|c2 s2 Hc2 H2]; simpl.
  - by intros [= ->].
  - intros H. apply (f_equal read_char) in H. rewrite <- app_assoc in H.
    rewrite (read_escape_char c2 _ Hc2) in H. discriminate.
  - intros H. apply (f_equal read_char) in H. rewrite <- app_assoc in H.
    rewrite (read_escape_char c1 _ Hc1) in H. discriminate.
  - rewrite <- !app_assoc. intros H. apply (f_equal read_char) in H.
    rewrite (read_escape_char c1 _ Hc1), (read_escape_char c2 _ Hc2) in H.
    injection H as -> H. by destruct (IH _ H2 H) as [-> ->].
Qed.

Lemma dumps_str_inj s1 s2 t1 t2 :
  Forall (fun c => scalar c = true) s1 ->
  Forall (fun c => scalar c = true) s2 ->
  Json.dumps_str s1 ++ t1 = Json.dumps_str s2 ++ t2 -> s1 = s2 /\ t1 = t2.
Proof.
  intros H1 H2. unfold Json.dumps_str. simpl. rewrite <- !app_assoc. simpl.
  intros [= H]. by apply escaped_inj.
Qed.

Lemma join_comma_cons x m t :
  Json.join_comma (map Json.dumps_str (x :: m)) ++ 93%N :: t
  = Json.dumps_str x ++
    match m with
    | [] => 93%N :: t
    | _ => 44%N :: 32%N :: Json.join_comma (map Json.dumps_str m) ++ 93%N :: t
    end.
Proof.
  destruct m as [|y m]; [done|].
  change (Json.join_comma (map Json.dumps_str (x :: y :: m)))
    with (Json.dumps_str x ++ lit ", "
          ++ Json.join_comma (map Json.dumps_str (y :: m))).
  by rewrite <- !app_assoc.
Qed.

Lemma dumps_list_inj l1 l2 t1 t2 :
  Forall (Forall (fun c => scalar c = true)) l1 ->
  Forall (Forall (fun c => scalar c = true)) l2 ->
  Json.join_comma (map Json.dumps_str l1) ++ 93%N :: t1
  = Json.join_comma (map Json.dumps_str l2) ++ 93%N :: t2 ->
  l1 = l2 /\ t1 = t2.
Proof.
  intros H1. revert l2. induction H1 as [|x1 m1 Hx1 Hm1 IH];
    intros l2 H2; destruct H2 as [|x2 m2 Hx2 Hm2].
  - simpl. by intros [= ->].
  - rewrite join_comma_cons. discriminate.
  - rewrite join_comma_cons. discriminate.
  - rewrite !join_comma_cons. intros [-> H]%dumps_str_inj; [|done..].
    destruct m1 as [|y1 m1], m2 as [|y2 m2]; try discriminate.
    + by injection H as ->.
    + apply (f_equal (drop 2)) in H.
      change (Json.join_comma (map Json.dumps_str (y1 :: m1)) ++ 93%N :: t1
              = Json.join_comma (map Json.dumps_str (y2 :: m2)) ++ 93%N :: t2)
        in H.
      apply IH in H as [-> ->]; done.
Qed.

(** The strings of a record hold scalar values only. *)
Definition scalars (r : MatchRecord) : Prop :=
  Forall (fun c => scalar c = true) (rec_url r) /\
  Forall (fun c => scalar c = true) (rec_file r) /\
  Forall (Forall (fun c => scalar c = true)) (rec_matches r).

Lemma dumps_metadata_inj r1 r2 t1 t2 :
  scalars r1 -> scalars r2 ->
  Json.dumps_metadata r1 ++ t1 = Json.dumps_metadata r2 ++ t2 ->
  r1 = r2 /\ t1 = t2.
Proof.
  intros (Hu1 & Hf1 & Hm1) (Hu2 & Hf2 & Hm2).
  destruct r1 as [u1 f1 m1], r2 as [u2 f2 m2].
  cbn [rec_url rec_file rec_matches] in *.
  unfold Json.dumps_metadata, Json.dumps_list.
  cbn [rec_url rec_file rec_matches].
  rewrite <- !app_assoc.
  intros H. do 3 apply app_inv_head in H.
  apply dumps_str_inj in H as [-> H]; [|done..].
  do 3 apply app_inv_head in H.
  apply dumps_str_inj in H as [-> H]; [|done..].
  do 4 apply app_inv_head in H.
  change (lit "]" ++ lit "}" ++ t1) with (93%N :: lit "}" ++ t1) in H.
  change (lit "]" ++ lit "}" ++ t2) with (93%N :: lit "}" ++ t2) in H.
  apply dumps_list_inj in H as [-> H]; [|done..].
  by apply app_inv_head in H as ->.
Qed.

(** The log is lossless: the text appended to [matches.jsonl] determines
    the records, when their strings hold no surrogate. *)
Theorem log_determines_records log1 log2 :
  Forall scalars log1 -> Forall scalars log2 ->
  Json.log_text log1 = Json.log_text log2 -> log1 = log2.
Proof.
  intros H1. revert log2. induction H1 as [|r1 l1 Hr1 _ IH];
    intros log2 H2; destruct H2 as [|r2 l2 Hr2 H2]; try done.
  unfold Json.log_text. cbn [flat_map]. unfold Json.record_line.
  rewrite <- !app_assoc.
  intros [-> H]%dumps_metadata_inj; [|done..].
  f_equal. apply IH; [done|]. by injection H.
Qed.

(** Without the condition, two records can share a line: a pair of
    surrogates is escaped as the character it would encode. *)
Example surrogate_pair_shares_escape :
  Json.dumps_str [0xD83D; 0xDE00]%N = Json.dumps_str [0x1F600%N].
Proof. reflexivity. Qed.

(** The log of the small site after two iterations determines its record. *)
Lemma log_determines_records_witness :
  match_log site_after_post42 = match_log site_after_post42.
Proof.
  apply (log_determines_records (match_log site_after_post42)
           (match_log site_after_post42)).
  - repeat constructor.
  - repeat constructor.
  - reflexivity.
Defined.

(** ** The entry point *)

Lemma endswith_char_last c s :
  endswith_char c s = true <-> last s = Some c.
Proof.
  induction s as [|x s IH]; [done|].
  destruct s as [|y s].
  - simpl. unfold is_char. rewrite N.eqb_eq. split; [by intros -> | by intros [= ->]].
  - exact IH.
Qed.

Lemma rstrip_by_no_end c s : endswith_char c (rstrip_by (is_char c) s) = false.
Proof.
  destruct (endswith_char c (rstrip_by (is_char c) s)) eqn:E; [|done].
  apply endswith_char_last in E. apply rstrip_by_last in E.
  unfold is_char in E. by rewrite N.eqb_refl in E.
Qed.

Lemma rstrip_by_app_keep p a b c :
  last a = Some c -> p c = false -> rstrip_by p (a ++ b) = a ++ rstrip_by p b.
Proof.
  induction a as [|x a IH]; [done|]. intros Hl Hc.
  destruct a as [|y a].
  - injection Hl as ->. simpl. destruct (rstrip_by p b); [by rewrite Hc | done].
  - specialize (IH Hl Hc).
    change (rstrip_by p ((x :: y :: a) ++ b))
      with (match rstrip_by p ((y :: a) ++ b) with
            | [] => if p x then [] else [x]
            | r' => x :: r'
            end).
    rewrite IH. reflexivity.
Qed.



Section MainFacts.

Variable environ : str -> option str.
Variable int : str -> outcome Z.
Variable re_compile : str -> outcome (str -> list str).
Variable select_hrefs : str -> list str.
Variable urljoin : str -> str -> outcome str.
Variable get : Z -> str -> option str.
Variable digit : N -> bool.
Variable sink : list str -> str -> option str -> outcome str.

(** Whatever the environment holds, [main] calls [crawl] with a page budget
    that is not negative and a timeout that is positive; a value other
    than the default is the integer read from the variable, which for the
    timeout is not empty. *)
Theorem main_settings_in_range :
  (0 <= Main.max_pages_setting environ int)%Z /\
  (0 < Main.timeout_setting environ int)%Z /\
  (Main.max_pages_setting environ int <> Main.DEFAULT_MAX_PAGES ->
   exists value,
     environ (lit "CRAWL_MAX_PAGES") = Some value /\
     int value = Ret (Main.max_pages_setting environ int)) /\
  (Main.timeout_setting environ int <> Main.DEFAULT_TIMEOUT ->
   exists value,
     environ (lit "CRAWL_TIMEOUT") = Some value /\ value <> [] /\
     int value = Ret (Main.timeout_setting environ int)).
Proof.
  unfold Main.max_pages_setting, Main.timeout_setting, Main.DEFAULT_MAX_PAGES,
    Main.DEFAULT_TIMEOUT.
  split; [|split; [|split]].
  - destruct (environ (lit "CRAWL_MAX_PAGES")) as [v|]; [|lia].
    destruct (int v) as [n|]; [|lia]. destruct (Z.ltb_spec n 0); lia.
  - destruct (environ (lit "CRAWL_TIMEOUT")) as [v|]; [|lia].
    destruct (truthy v); [|lia].
    destruct (int v) as [n|]; [|lia]. destruct (Z.leb_spec n 0); lia.
  - destruct (environ (lit "CRAWL_MAX_PAGES")) as [v|]; [|done].
    destruct (int v) as [n|] eqn:Hn; [|done].
    destruct (Z.ltb_spec n 0); [done|]. intros _. by exists v.
  - destruct (environ (lit "CRAWL_TIMEOUT")) as [v|]; [|done].
    destruct (truthy v) eqn:Hv; [|done].
    destruct (int v) as [n|] eqn:Hn; [|done].
    destruct (Z.leb_spec n 0); [done|]. intros _. exists v.
    split; [done|]. split; [by intros ->|done].
Qed.


(** The counts that [crawl] returns. *)
Lemma crawl_counters (w : env) fuel prefix max_pages p sv :
  crawl w fuel prefix max_pages = Some (Ret (p, sv)) ->
  (0 <= sv <= p)%Z /\ ((0 < max_pages)%Z -> (p <= max_pages)%Z).
Proof.
  intros (allowed & n & s & _ & Hn & _ & -> & ->)%crawl_returns.
  revert Hn.
  apply (after_iterations_invariant w
           (fun s => (0 <= saved s <= processed s)%Z /\
                     ((0 < max_pages)%Z -> (processed s <= max_pages)%Z))
           allowed max_pages).
  - intros s0 s1 [H0 Hb] Ht Hi. apply iteration_counters in Hi.
    unfold loop_test in Ht. apply andb_true_iff in Ht as [_ Ht].
    split; [lia|]. intros Hpos. specialize (Hb Hpos).
    apply orb_true_iff in Ht as [Ht|Ht]; lia.
  - simpl. lia.
Qed.


End MainFacts.

(** An environment for the small site: a budget of two pages. *)
Definition site_environ (name : str) : option str :=
  if str_eqb name (lit "CRAWL_URL_PREFIX") then Some (lit "http://ex.com/blog/")
  else if str_eqb name (lit "CRAWL_MATCH_REGEX") then Some (lit "post/(\d+)")
  else if str_eqb name (lit "CRAWL_MAX_PAGES") then Some (lit "2")
  else None.

(** [int] on the strings of ASCII digits, which is all that the environment
    above asks for. *)
Definition int_of_digits (value : str) : outcome Z :=
  if truthy value && forallb ascii_digit value
  then Ret (fold_left (fun n c => n * 10 + (Z.of_N c - 48))%Z value 0%Z)
  else Raised.


(** * The converter and the downloaders *)

From Stdlib Require Import Sorted.

(** ** [_clean_text] *)


Lemma is_space_space : is_space HtmlToJson.space = true.
Proof. reflexivity. Qed.

(** Whitespace is written as a HtmlToJson.space, and no two spaces are adjacent. *)
Definition single_spaced (s : str) : Prop :=
  Forall (fun c => is_space c = true -> c = HtmlToJson.space) s /\
  forall a b, s <> a ++ HtmlToJson.space :: HtmlToJson.space :: b.

Lemma sub_spaces_single_spaced in_run value :
  single_spaced (HtmlToJson.sub_spaces in_run value) /\
  (in_run = true ->
   head (HtmlToJson.sub_spaces in_run value) <> Some HtmlToJson.space).
Proof.
  revert in_run. induction value as [|c r IH]; intros in_run.
  - split; [split; [constructor|]|done]. intros [|? ?] ?; discriminate.
  - simpl. destruct (is_space c) eqn:Hc.
    + destruct (IH true) as [[Hall Hno] Hhd]. specialize (Hhd eq_refl).
      destruct in_run; [done|].
      split; [|done]. split.
      * constructor; [done | exact Hall].
      * intros [|x a] b.
        -- intros H. injection H as H. apply Hhd. by rewrite H.
        -- intros H. injection H as _ H. exact (Hno a b H).
    + destruct (IH false) as [[Hall Hno] _].
      assert (c <> HtmlToJson.space) by (intros ->; by rewrite is_space_space in Hc).
      split.
      * split; [constructor; [by rewrite Hc|done]|].
        intros [|x a] b; [by intros [= -> _]|].
        intros [= -> H']. by apply (Hno a b).
      * intros _ [= ->]. done.
Qed.

Lemma single_spaced_factor a s b :
  single_spaced (a ++ s ++ b) -> single_spaced s.
Proof.
  intros [Hall Hno]. split.
  - by apply Forall_app in Hall as [_ [Hall _]%Forall_app].
  - intros x y ->. apply (Hno (a ++ x) (y ++ b)).
    by rewrite <- !app_assoc.
Qed.

Lemma strip_by_factor p s : exists a b, s = a ++ strip_by p s ++ b.
Proof.
  unfold strip_by. destruct (lstrip_by_suffix p s) as [a Ha].
  destruct (rstrip_by_prefix p (lstrip_by p s)) as (b & Hb & _).
  exists a, b. by rewrite <- Hb.
Qed.

Lemma filter_lstrip_by (p : N -> bool) s :
  List.filter (fun c => negb (p c)) (lstrip_by p s)
  = List.filter (fun c => negb (p c)) s.
Proof.
  induction s as [|c r IH]; [done|]. simpl.
  destruct (p c) eqn:Hc; simpl; [done|]. by rewrite Hc.
Qed.

Lemma filter_rstrip_by (p : N -> bool) s :
  List.filter (fun c => negb (p c)) (rstrip_by p s)
  = List.filter (fun c => negb (p c)) s.
Proof.
  destruct (rstrip_by_prefix p s) as (t & Ht & Hall).
  rewrite Ht at 2. rewrite List.filter_app.
  assert (List.filter (fun c => negb (p c)) t = []) as ->.
  { clear Ht. induction t as [|x t IH]; [done|]. simpl in *.
    apply andb_prop in Hall as [-> Hall]. simpl. by apply IH. }
  by rewrite app_nil_r.
Qed.

Lemma filter_sub_spaces in_run value :
  List.filter (fun c => negb (is_space c)) (HtmlToJson.sub_spaces in_run value)
  = List.filter (fun c => negb (is_space c)) value.
Proof.
  revert in_run. induction value as [|c r IH]; intros in_run; [done|].
  simpl. destruct (is_space c) eqn:Hc; simpl.
  - destruct in_run; [apply IH|]. simpl. apply IH.
  - rewrite Hc. simpl. by rewrite IH.
Qed.

Lemma sub_spaces_fixed in_run s :
  single_spaced s ->
  (in_run = true -> forall c, head s = Some c -> is_space c = false) ->
  HtmlToJson.sub_spaces in_run s = s.
Proof.
  revert in_run. induction s as [|c r IH]; intros in_run [Hall Hno] Hhd;
    [done|].
  simpl. apply Forall_cons in Hall as [Hc Hall].
  assert (Hr : single_spaced r).
  { split; [done|]. intros a b ->. by apply (Hno (c :: a) b). }
  destruct (is_space c) eqn:Hs.
  - destruct in_run; [by rewrite (Hhd eq_refl c) in Hs|].
    rewrite (Hc eq_refl). f_equal. apply IH; [done|].
    intros _ d Hd. destruct (is_space d) eqn:Hsd; [|done].
    destruct r as [|d' r']; [done|]. injection Hd as ->.
    apply Forall_cons in Hall as [Hd _]. exfalso.
    apply (Hno [] r'). by rewrite (Hc eq_refl), (Hd Hsd).
  - f_equal. apply IH; [done|]. done.
Qed.

(** [HtmlToJson._clean_text] gives a normal form: whitespace occurs only as single
    spaces between other characters, the characters that are not whitespace
    are those of the value in their order, and cleaning the result again
    changes nothing. *)
Theorem clean_text_normal_form (value : str) :
  let text := HtmlToJson._clean_text (Some value) in
  single_spaced text /\
  (forall c, head text = Some c -> is_space c = false) /\
  (forall c, last text = Some c -> is_space c = false) /\
  List.filter (fun c => negb (is_space c)) text
  = List.filter (fun c => negb (is_space c)) value /\
  HtmlToJson._clean_text (Some text) = text.
Proof.
  cbv zeta. unfold HtmlToJson._clean_text.
  destruct (strip_by_ends is_space (HtmlToJson.sub_spaces false value))
    as [Hhd Hlast].
  assert (Hss : single_spaced (strip_by is_space (HtmlToJson.sub_spaces false value))).
  { destruct (strip_by_factor is_space (HtmlToJson.sub_spaces false value))
      as (a & b & Hab).
    apply (single_spaced_factor a _ b). rewrite <- Hab.
    apply sub_spaces_single_spaced. }
  split; [done|]. split; [done|]. split; [done|]. split.
  - unfold strip_by. by rewrite filter_rstrip_by, filter_lstrip_by,
      filter_sub_spaces.
  - rewrite (sub_spaces_fixed false _ Hss) by done.
    by apply strip_by_fixed.
Qed.

(** ** [_to_int] *)

(** The decimal digits of a value, once the Persian and the Arabic-Indic
    ones are mapped to ASCII. *)
Definition digits_of (value : str) : str :=
  List.filter Crawler.unicode_decimal (map HtmlToJson.translate_digit value).

Lemma to_int_digits max_str_digits value :
  HtmlToJson._to_int max_str_digits (Some value)
  = if truthy (digits_of value)
    then Some <$> HtmlToJson.int_of_digits max_str_digits (digits_of value)
    else Ret None.
Proof.
  unfold HtmlToJson._to_int, digits_of. destruct value as [|c r]; reflexivity.
Qed.

Lemma digits_of_app a b : digits_of (a ++ b) = digits_of a ++ digits_of b.
Proof. unfold digits_of. by rewrite map_app, List.filter_app. Qed.

(** [_to_int] reads the decimal digits and nothing else: the result is not
    negative; a character that is not a decimal digit (a sign, a comma, a
    decimal point) can be put anywhere without changing it; and one more
    ASCII digit at the end is one more decimal place, within the limit of
    the interpreter on the number of digits. *)
Theorem to_int_reads_digits max_str_digits value n :
  HtmlToJson._to_int max_str_digits (Some value) = Ret (Some n) ->
  (0 <= n)%Z /\
  (forall a b c,
     value = a ++ b -> Crawler.unicode_decimal (HtmlToJson.translate_digit c) = false ->
     HtmlToJson._to_int max_str_digits (Some (a ++ c :: b)) = Ret (Some n)) /\
  (forall k,
     (k < 10)%N ->
     (max_str_digits = 0 \/ length (digits_of value) < max_str_digits)%nat ->
     HtmlToJson._to_int max_str_digits (Some (value ++ [48 + k]%N))
     = Ret (Some (10 * n + Z.of_N k)%Z)).
Proof.
  rewrite to_int_digits. intros H. split; [|split].
  - destruct (truthy (digits_of value)); [|discriminate].
    unfold HtmlToJson.int_of_digits in H. destruct (_ && _); [discriminate|].
    injection H as <-. lia.
  - intros a b c -> Hc. rewrite to_int_digits.
    assert (digits_of (a ++ c :: b) = digits_of (a ++ b)) as ->; [|done].
    rewrite !digits_of_app. f_equal. unfold digits_of. simpl. by rewrite Hc.
  - intros k Hk Hmax. rewrite to_int_digits, digits_of_app.
    assert (Hd : digits_of [48 + k]%N = [48 + k]%N).
    { unfold digits_of. simpl.
      assert (HtmlToJson.translate_digit (48 + k) = 48 + k)%N as ->.
      { unfold HtmlToJson.translate_digit, in_range.
        destruct (N.leb_spec 0x6F0 (48 + k)); [lia|].
        destruct (N.leb_spec 0x660 (48 + k)); [lia|]. done. }
      assert (Crawler.unicode_decimal (48 + k) = true) as ->; [|done].
      unfold Crawler.unicode_decimal. apply orb_true_intro. left.
      simpl. apply orb_true_intro. left. unfold in_range.
      apply andb_true_intro. split; apply N.leb_le; lia. }
    rewrite Hd.
    destruct (digits_of value) as [|d ds] eqn:E; [by simpl in H|].
    cbn [truthy] in H. cbv iota in H. rewrite <- E in *. clear E d ds.
    assert (truthy (digits_of value ++ [(48 + k)%N]) = true) as ->.
    { by destruct (digits_of value). }
    unfold HtmlToJson.int_of_digits in *.
    destruct (negb (max_str_digits =? 0)%nat
              && (max_str_digits <? length (digits_of value))%nat) eqn:Hl;
      [by simpl in H|].
    injection H as <-.
    assert (negb (max_str_digits =? 0)%nat
            && (max_str_digits <? length (digits_of value ++ [(48 + k)%N]))%nat
            = false) as ->.
    { rewrite length_app. simpl. destruct Hmax as [->|Hmax]; [done|].
      apply andb_false_iff. right. apply Nat.ltb_ge. lia. }
    simpl. rewrite fold_left_app. simpl. do 2 f_equal.
    assert (HtmlToJson.digit_value (48 + k) = k) as ->; [|lia].
    unfold HtmlToJson.digit_value.
    assert (in_range 0x1D7CE 0x1D7FF (48 + k) = false) as ->.
    { unfold in_range. apply andb_false_iff. left. apply N.leb_gt. lia. }
    unfold Crawler.decimal_blocks. cbn [List.find].
    assert (in_range 48 (48 + 9) (48 + k) = true) as ->; [|lia].
    unfold in_range. apply andb_true_intro. split; apply N.leb_le; lia.
Qed.

(** [_to_int("12")] is 12. *)
Lemma to_int_reads_digits_witness :
  (0 <= 12)%Z /\
  (forall a b c,
     lit "12" = a ++ b -> Crawler.unicode_decimal (HtmlToJson.translate_digit c) = false ->
     HtmlToJson._to_int 4300 (Some (a ++ c :: b)) = Ret (Some 12%Z)) /\
  (forall k,
     (k < 10)%N ->
     (4300 = 0 \/ length (digits_of (lit "12")) < 4300)%nat ->
     HtmlToJson._to_int 4300 (Some (lit "12" ++ [48 + k]%N))
     = Ret (Some (10 * 12 + Z.of_N k)%Z)).
Proof.
  apply (to_int_reads_digits 4300 (lit "12") 12). reflexivity.
Defined.

(** ** [_extract_comments] *)

Definition item_order (item : HtmlToJson.Item) : nat :=
  match item with
  | HtmlToJson.Reply _ _ _ _ _ _ order => order
  | HtmlToJson.Comment _ _ _ _ _ _ _ _ _ order => order
  end.

(** The replies of a list of items carry the [id] of the comment before
    them; [last_comment_id] is the one before the list. *)
Fixpoint threaded (last_comment_id : option Z) (items : list HtmlToJson.Item) : Prop :=
  match items with
  | [] => True
  | HtmlToJson.Reply _ parent_comment_id _ _ _ _ _ :: more =>
      parent_comment_id = last_comment_id /\ threaded last_comment_id more
  | HtmlToJson.Comment id _ _ _ _ _ _ _ _ _ :: more => threaded id more
  end.

(** An item comes from the node in the place that its [order] tells. *)
Definition item_of_node (nodes : list HtmlToJson.CommentNode) (item : HtmlToJson.Item) : Prop :=
  exists node,
    nodes !! (item_order item - 1)%nat = Some node /\ (1 <= item_order item)%nat /\
    match item with
    | HtmlToJson.Reply _ _ _ content_html _ _ _ =>
        lit "reply" ∈ HtmlToJson.node_class node /\
        content_html = HtmlToJson.stripped (HtmlToJson.node_content node)
    | HtmlToJson.Comment _ _ _ _ _ _ content_html _ _ _ =>
        (lit "reply" ∉ HtmlToJson.node_class node) /\
        content_html = HtmlToJson.stripped (HtmlToJson.node_content node)
    end.

Section CommentFacts.

Variable max_str_digits : nat.
Variable _as_markdown : str -> str.

Lemma comments_loop_spec order nodes items last out :
  HtmlToJson.comments_loop max_str_digits _as_markdown order nodes items last = Ret out ->
  exists new,
    out = items ++ new /\ threaded last new /\
    (length new <= length nodes)%nat /\
    StronglySorted lt (map item_order new) /\
    Forall (fun item =>
              (order <= item_order item)%nat /\
              exists node,
                nodes !! (item_order item - order)%nat = Some node /\
                match item with
                | HtmlToJson.Reply _ _ _ content_html _ _ _ =>
                    lit "reply" ∈ HtmlToJson.node_class node /\
                    content_html = HtmlToJson.stripped (HtmlToJson.node_content node)
                | HtmlToJson.Comment _ _ _ _ _ _ content_html _ _ _ =>
                    (lit "reply" ∉ HtmlToJson.node_class node) /\
                    content_html = HtmlToJson.stripped (HtmlToJson.node_content node)
                end) new.
Proof.
  revert order items last.
  induction nodes as [|node more IH]; intros order items last; simpl.
  - intros [= <-]. exists []. rewrite app_nil_r. repeat split; constructor.
  - intros ([items1 last1] & Hstep & Hloop)%outcome_bind_ret.
    apply IH in Hloop as (new & -> & Hth & Hlen & Hsorted & Hall).
    assert (Hlater : Forall (fun item =>
              (order <= item_order item)%nat /\
              exists n,
                (node :: more) !! (item_order item - order)%nat = Some n /\
                match item with
                | HtmlToJson.Reply _ _ _ content_html _ _ _ =>
                    lit "reply" ∈ HtmlToJson.node_class n /\
                    content_html = HtmlToJson.stripped (HtmlToJson.node_content n)
                | HtmlToJson.Comment _ _ _ _ _ _ content_html _ _ _ =>
                    (lit "reply" ∉ HtmlToJson.node_class n) /\
                    content_html = HtmlToJson.stripped (HtmlToJson.node_content n)
                end) new).
    { eapply Forall_impl; [exact Hall|]. simpl.
      intros item (Ho & n & Hn & Hitem). split; [lia|]. exists n.
      split; [|done].
      replace (item_order item - order)%nat
        with (S (item_order item - S order)) by lia. done. }
    assert (Hfirst : Forall (fun o => (order < o)%nat) (map item_order new)).
    { apply Forall_map. eapply Forall_impl; [exact Hall|]. simpl.
      intros item (Ho & _). lia. }
    unfold HtmlToJson.comment_step in Hstep.
    apply outcome_bind_ret in Hstep as (comment_id & _ & Hstep).
    destruct (bool_decide (lit "reply" ∈ HtmlToJson.node_class node)) eqn:Hreply.
    + apply bool_decide_eq_true in Hreply.
      apply outcome_bind_ret in Hstep as (likes & _ & Hstep).
      apply outcome_bind_ret in Hstep as (dislikes & _ & [= <- <-]).
      eexists (_ :: new). rewrite <- app_assoc. split; [done|].
      split; [done|]. split; [simpl; lia|]. split; [by constructor|].
      constructor; [|done]. simpl. split; [lia|]. exists node.
      by rewrite Nat.sub_diag.
    + apply bool_decide_eq_false in Hreply.
      apply outcome_bind_ret in Hstep as (likes & _ & Hstep).
      apply outcome_bind_ret in Hstep as (dislikes & _ & Hstep).
      destruct (negb _) in Hstep; injection Hstep as <- <-.
      * exists new. split; [done|]. split; [done|]. split; [simpl; lia|].
        done.
      * eexists (_ :: new). rewrite <- app_assoc. split; [done|].
        split; [done|]. split; [simpl; lia|]. split; [by constructor|].
        constructor; [|done]. simpl. split; [lia|]. exists node.
        by rewrite Nat.sub_diag.
Qed.

(** The items of [_extract_comments]: every reply carries the [id] of the
    nearest comment kept before it; there is at most one item per node;
    the orders increase, and each item comes from the node in the place
    its order tells, a reply from a node of class [reply] and a comment
    from another; and without a counter element the count is 0. *)
Theorem extract_comments_threads count_text nodes count items :
  HtmlToJson._extract_comments max_str_digits _as_markdown (Some (count_text, nodes))
  = Ret (count, items) ->
  threaded None items /\
  (length items <= length nodes)%nat /\
  StronglySorted lt (map item_order items) /\
  Forall (item_of_node nodes) items /\
  (count_text = None -> count = 0%Z).
Proof.
  unfold HtmlToJson._extract_comments.
  intros (declared & Hd & H)%outcome_bind_ret.
  apply outcome_bind_ret in H as (out & Hloop & [= <- <-]).
  apply comments_loop_spec in Hloop as (new & -> & Hth & Hlen & Hs & Hall).
  simpl. split; [done|]. split; [done|]. split; [done|]. split.
  - eapply Forall_impl; [exact Hall|]. simpl.
    intros item (Ho & node & Hn & Hitem). exists node. done.
  - intros ->. by injection Hd as <-.
Qed.

End CommentFacts.

(** ** The download loops *)

Lemma split_slash_no_slash s :
  Forall (fun seg => contains slash seg = false) (Sink.split_slash s).
Proof.
  induction s as [|c r IH]; simpl; [by repeat constructor|].
  destruct (is_char slash c) eqn:Hc; [by constructor|].
  destruct (Sink.split_slash r) as [|seg more]; [by repeat constructor; simpl; rewrite Hc|].
  apply Forall_cons in IH as [Hseg Hmore]. constructor; [|done].
  unfold contains in *. simpl. by rewrite Hc.
Qed.

Lemma path_name_no_slash s : contains slash (Download.path_name s) = false.
Proof.
  unfold Download.path_name.
  destruct (last _) as [name|] eqn:Hl; [|done].
  apply last_Some_elem_of in Hl. apply list_elem_of_In, filter_In in Hl as [Hl _].
  pose proof (split_slash_no_slash s) as H. rewrite Forall_forall in H.
  apply H. by apply list_elem_of_In.
Qed.

(** A file name that stays in its directory and has an extension. *)
Definition asset_name (name : str) : Prop :=
  name <> [] /\ contains slash name = false /\ contains Download.dot name = true.

Lemma with_extension_asset_name name fallback extension :
  contains slash name = false ->
  fallback <> [] -> contains slash fallback = false ->
  contains slash extension = false -> contains Download.dot extension = true ->
  let basename := if truthy name then name else fallback in
  asset_name (if contains Download.dot basename then basename
              else basename ++ extension).
Proof.
  intros Hname Hf Hfs Hes Hed. cbv zeta.
  set (basename := if truthy name then name else fallback).
  assert (Hb : basename <> [] /\ contains slash basename = false).
  { unfold basename. destruct name; [done|]. done. }
  destruct Hb as [Hne Hbs].
  destruct (contains Download.dot basename) eqn:Hd; [done|].
  split; [by destruct basename|]. rewrite !contains_app, Hbs, Hes, Hed.
  split; [done|]. by rewrite orb_true_r.
Qed.

Lemma picofile_target_shape url target_dir path :
  Download.Picofile._target_path_for url target_dir = Ret path ->
  exists basename, path = Sink.in_dir target_dir basename /\ asset_name basename.
Proof.
  unfold Download.Picofile._target_path_for.
  intros (parsed & _ & [= <-])%outcome_bind_ret.
  eexists. split; [reflexivity|].
  apply with_extension_asset_name; try done. apply path_name_no_slash.
Qed.

Lemma contains_cons c x s : contains c (x :: s) = is_char c x || contains c s.
Proof. reflexivity. Qed.

Lemma split_last_dot_spec name before rest :
  Download.split_last_dot name = Some (before, rest) ->
  name = before ++ rest /\ head rest = Some Download.dot.
Proof.
  revert before rest. induction name as [|c r IH]; intros before rest; simpl;
    [done|].
  destruct (Download.split_last_dot r) as [[b t]|].
  - intros [= <- <-]. destruct (IH b t eq_refl) as [-> Hh]. done.
  - destruct (is_char Download.dot c) eqn:Hc; [|done]. intros [= <- <-].
    apply N.eqb_eq in Hc as <-. done.
Qed.

Lemma stem_suffix_shape basename :
  contains slash basename = false ->
  let stem := if truthy (Download.path_stem basename) then Download.path_stem basename
              else lit "smiley" in
  let suffix := if truthy (Download.path_suffix basename) then Download.path_suffix basename
                else lit ".img" in
  stem <> [] /\ contains slash stem = false /\
  contains slash suffix = false /\ contains Download.dot suffix = true.
Proof.
  intros Hb. cbv zeta. unfold Download.path_stem, Download.path_suffix.
  destruct (Download.split_last_dot basename) as [[before rest]|] eqn:E.
  - apply split_last_dot_spec in E as [-> Hh].
    rewrite contains_app in Hb. apply orb_false_elim in Hb as [Hb1 Hb2].
    destruct (truthy before && truthy (tail rest)) eqn:Ht.
    + apply andb_prop in Ht as [Ht1 Ht2]. rewrite Ht1.
      destruct rest as [|d rest]; [done|]. injection Hh as ->.
      simpl truthy. cbv iota. split; [by destruct before|]. done.
    + destruct (truthy (before ++ rest)) eqn:Hn.
      * split; [by destruct (before ++ rest)|].
        by rewrite contains_app, Hb1, Hb2.
      * done.
  - destruct (truthy basename) eqn:Hn; [|done].
    split; [by destruct basename|]. done.
Qed.

Lemma smileys_target_shape smiley_url target_dir seen_names path seen :
  Download.Smileys._target_path_for smiley_url target_dir seen_names = Ret (path, seen) ->
  exists name,
    path = Sink.in_dir target_dir name /\ asset_name name /\
    seen = {[name]} ∪ seen_names.
Proof.
  unfold Download.Smileys._target_path_for.
  intros (parsed & _ & H)%outcome_bind_ret. revert H. cbv zeta.
  pose proof (with_extension_asset_name
                (Download.path_name (Urllib.path parsed)) (lit "smiley") (lit ".img")
                (path_name_no_slash _) ltac:(done) eq_refl eq_refl eq_refl)
    as Hbase.
  cbv zeta in Hbase.
  set (basename := if contains Download.dot _ then _ else _) in *.
  destruct (decide (basename ∈ seen_names)) as [Hseen|Hnew].
  - intros (encoded & _ & H)%outcome_bind_ret.
    destruct Hbase as (_ & Hslash & _).
    destruct (stem_suffix_shape basename Hslash) as (Hne & Hs1 & Hs2 & Hd).
    cbv zeta in *.
    set (stem := if truthy (Download.path_stem basename) then _ else _) in *.
    set (suffix := if truthy (Download.path_suffix basename) then _ else _) in *.
    assert (Hdigest : contains slash (take 8 (Sha256.hexdigest encoded)) = false).
    { destruct (hexdigest_shape encoded) as [_ Hhex].
      apply contains_false_Forall. apply Forall_take.
      eapply Forall_impl; [exact Hhex|]. intros c Hc ->. done. }
    set (digest := take 8 (Sha256.hexdigest encoded)) in *. clearbody digest.
    clearbody stem suffix. injection H as <- <-.
    eexists. split; [reflexivity|]. split; [|reflexivity].
    split; [by destruct stem|].
    rewrite !contains_app, !contains_cons, !contains_app, Hs1, Hs2, Hd,
      Hdigest.
    split; [done|]. by rewrite !orb_true_r.
  - intros [= <- <-]. by exists basename.
Qed.

Section LoopFacts.

Context {names : Type}.
Variable target_path_for : str -> names -> outcome (str * names).
Variable urlopen : str -> option (list N).
Variable keeps : str -> Prop.

Hypothesis target_keeps : forall url seen path seen',
  target_path_for url seen = Ret (path, seen') -> keeps path.

Lemma download_loop_spec urls seen t0 t :
  Download.download_loop target_path_for urlopen urls seen t0 = Ret t ->
  (Download.downloaded t + Download.skipped t + Download.failed t
   = Download.downloaded t0 + Download.skipped t0 + Download.failed t0 + Z.of_nat (length urls))%Z /\
  (Download.skipped t0 <= Download.skipped t)%Z /\ (Download.failed t0 <= Download.failed t)%Z /\
  exists new,
    Download.written t = Download.written t0 ++ new /\
    Download.files t = list_to_set (map fst new) ∪ Download.files t0 /\
    Download.downloaded t = (Download.downloaded t0 + Z.of_nat (length new))%Z /\
    NoDup (map fst new) /\
    Forall (fun file =>
              (fst file ∉ Download.files t0) /\ keeps (fst file) /\
              exists url, url ∈ urls /\ urlopen url = Some (snd file)) new.
Proof.
  revert seen t0. induction urls as [|url more IH]; intros seen t0; simpl.
  - intros [= <-]. split; [lia|]. split; [lia|]. split; [lia|].
    exists []. rewrite app_nil_r. simpl.
    split; [done|]. split; [by rewrite (left_id_L ∅ (∪))|]. split; [lia|].
    split; constructor.
  - intros ([path seen'] & Htarget & H)%outcome_bind_ret.
    apply target_keeps in Htarget.
    assert (Hmore : forall new : list (str * list N),
      Forall (fun file => exists u, u ∈ more /\ urlopen u = Some (snd file)) new ->
      Forall (fun file => exists u, u ∈ url :: more /\ urlopen u = Some (snd file))
             new).
    { intros new Hn. eapply Forall_impl; [exact Hn|]. simpl.
      intros file (u & Hu & Hd). exists u. split; [by right|done]. }
    destruct (decide (path ∈ Download.files t0)) as [Hexists|Hfree].
    + apply IH in H as (Hsum & Hs & Hf & new & Hw & Hfiles & Hd & Hnd & Hall).
      simpl in *. split; [lia|]. split; [lia|]. split; [lia|].
      exists new. repeat split; try done.
      eapply Forall_impl; [exact Hall|]. simpl.
      intros file (? & ? & u & Hu & Hud). repeat split; try done.
      exists u. split; [by right|done].
    + unfold Download._download_file in H. destruct (urlopen url) as [data|] eqn:Hdata.
      * apply IH in H as (Hsum & Hs & Hf & new & Hw & Hfiles & Hd & Hnd & Hall).
        simpl in *. split; [lia|]. split; [lia|]. split; [lia|].
        exists ((path, data) :: new). rewrite <- app_assoc in Hw.
        split; [done|]. split.
        { rewrite Hfiles. simpl. apply set_eq. intros x.
          rewrite !elem_of_union. tauto. }
        split; [simpl; lia|]. split.
        { simpl. constructor; [|done]. intros Hin.
          apply list_elem_of_fmap in Hin as (file & Hfile & Hin).
          rewrite Forall_forall in Hall. apply Hall in Hin as (Hout & _).
          apply Hout. rewrite <- Hfile. apply elem_of_union. left.
          by apply elem_of_singleton. }
        constructor.
        { simpl. split; [done|]. split; [done|]. exists url.
          split; [by left|done]. }
        eapply Forall_impl; [exact Hall|]. simpl.
        intros file (Hout & ? & u & Hu & Hud).
        split; [intros Hin; apply Hout, elem_of_union; by right|].
        split; [done|]. exists u. split; [by right|done].
      * apply IH in H as (Hsum & Hs & Hf & new & Hw & Hfiles & Hd & Hnd & Hall).
        simpl in *. split; [lia|]. split; [lia|]. split; [lia|].
        exists new. repeat split; try done.
        eapply Forall_impl; [exact Hall|]. simpl.
        intros file (? & ? & u & Hu & Hud). repeat split; try done.
        exists u. split; [by right|done].
Qed.

End LoopFacts.

(** What a download run leaves behind: the counters add up to the number
    of URLs; a file is Download.written for each URL counted as Download.downloaded, with the
    bytes read from one of the URLs; no path is Download.written twice, and none
    that existed before; every file is under [target_dir], with a name of
    one component that has an extension. *)
Definition download_report (urlopen : str -> option (list N))
    (target_dir : str) (urls : list str) (existing : gset str) (t : Download.tally)
    : Prop :=
  (Download.downloaded t + Download.skipped t + Download.failed t = Z.of_nat (length urls))%Z /\
  (0 <= Download.skipped t)%Z /\ (0 <= Download.failed t)%Z /\
  Download.downloaded t = Z.of_nat (length (Download.written t)) /\
  Download.files t = list_to_set (map fst (Download.written t)) ∪ existing /\
  NoDup (map fst (Download.written t)) /\
  Forall (fun file =>
            (fst file ∉ existing) /\
            (exists name,
               fst file = Sink.in_dir target_dir name /\ asset_name name) /\
            exists url, url ∈ urls /\ urlopen url = Some (snd file))
         (Download.written t).

(** [download_picofile]: the counters add up, and the files written are
    new files of [out_root/picofile]. *)
Theorem download_picofile_report urlopen out_root picofile_urls existing t :
  Download.Picofile.download_picofile urlopen out_root picofile_urls existing = Ret t ->
  download_report urlopen (Sink.in_dir out_root (lit "picofile"))
                  picofile_urls existing t.
Proof.
  unfold Download.Picofile.download_picofile.
  intros H. eapply (download_loop_spec _ _
    (fun path => exists name,
       path = Sink.in_dir (Sink.in_dir out_root (lit "picofile")) name /\
       asset_name name)) in H.
  - destruct H as (Hsum & Hs & Hf & new & Hw & Hfiles & Hd & Hnd & Hall).
    simpl in *. subst new. unfold download_report.
    split; [lia|]. split; [lia|]. split; [lia|]. split; [lia|]. done.
  - intros url [] path [] (p & Hp & [= <-])%outcome_bind_ret.
    by apply picofile_target_shape in Hp.
Qed.

(** [download_smileys]: the counters add up, and the files written are new
    files of [out_root/smileys], also under the names that
    [_target_path_for] makes up for a name seen before. *)
Theorem download_smileys_report urlopen out_root smiley_urls existing t :
  Download.Smileys.download_smileys urlopen out_root smiley_urls existing = Ret t ->
  download_report urlopen (Sink.in_dir out_root (lit "smileys"))
                  smiley_urls existing t.
Proof.
  unfold Download.Smileys.download_smileys.
  intros H. eapply (download_loop_spec _ _
    (fun path => exists name,
       path = Sink.in_dir (Sink.in_dir out_root (lit "smileys")) name /\
       asset_name name)) in H.
  - destruct H as (Hsum & Hs & Hf & new & Hw & Hfiles & Hd & Hnd & Hall).
    simpl in *. subst new. unfold download_report.
    split; [lia|]. split; [lia|]. split; [lia|]. split; [lia|]. done.
  - intros url seen path seen' (name & -> & Hname & _)%smileys_target_shape.
    by exists name.
Qed.

(** ** The converter and the downloaders on small inputs *)

(** A comment with a reply, a placeholder, and a reply after it. *)
Definition thread_nodes : list HtmlToJson.CommentNode :=
  [ HtmlToJson.mkCommentNode [lit "comment"] (lit "comment-7")
      (Some (lit " hi ")) (Some [0x6F3%N]) None (Some (lit "Ali")) None None
      None;
    HtmlToJson.mkCommentNode [lit "comment"; lit "reply"] (lit "comment-8")
      (Some (lit "re")) None None None None None None;
    HtmlToJson.mkCommentNode [lit "comment"] [] None None None None None None
      None;
    HtmlToJson.mkCommentNode [lit "comment"; lit "reply"] [] (Some (lit "again"))
      None None None None None None ].

Definition thread_items : list HtmlToJson.Item :=
  [ HtmlToJson.Comment (Some 7%Z) (lit "Ali") [] [] [] (lit "hi") (lit "hi")
      (Some 3%Z) None 1;
    HtmlToJson.Reply (Some 8%Z) (Some 7%Z) (lit "re") (lit "re") None None 2;
    HtmlToJson.Reply None (Some 7%Z) (lit "again") (lit "again") None None 4 ].

(** The placeholder is dropped and keeps its number; both replies point to
    comment 7; without a counter the count is 0. The identity stands for
    [_as_markdown]. *)
Lemma extract_comments_threads_witness :
  threaded None thread_items /\
  (length thread_items <= length thread_nodes)%nat /\
  StronglySorted lt (map item_order thread_items) /\
  Forall (item_of_node thread_nodes) thread_items /\
  (@None str = None -> 0%Z = 0%Z).
Proof.
  apply (extract_comments_threads 4300 (fun html => html) None thread_nodes 0%Z
           thread_items).
  vm_compute. reflexivity.
Defined.

(** Two URLs with the file name [a.jpg] and one that does not answer: the
    first is downloaded, the second is skipped for the file of the first,
    the third fails. *)
Definition picofile_urls : list str :=
  [ lit "http://s3.picofile.com/d/1/a.jpg";
    lit "http://s4.picofile.com/d/2/a.jpg";
    lit "http://s4.picofile.com/d/3/b" ].

Definition picofile_urlopen (url : str) : option (list N) :=
  if str_eqb url (lit "http://s4.picofile.com/d/3/b") then None
  else Some [255; 216; 255]%N.

(** The run on the three URLs: one file, and the tally 1, 1, 1. *)
Lemma download_picofile_report_witness :
  download_report picofile_urlopen (Sink.in_dir (lit "out") (lit "picofile"))
    picofile_urls ∅
    (Download.mkTally 1 1 1 {[ lit "out/picofile/a.jpg" ]}
       [(lit "out/picofile/a.jpg", [255; 216; 255]%N)]).
Proof.
  apply (download_picofile_report picofile_urlopen (lit "out") picofile_urls ∅).
  vm_compute. reflexivity.
Defined.

(** Two smileys named [01.gif]: the second is stored under a name with
    eight digits of the SHA-256 of its URL. *)
Definition smiley_urls : list str :=
  [ lit "http://www.blogsky.com/images/smileys/a/01.gif";
    lit "http://www.blogsky.com/images/smileys/b/01.gif" ].

(** The run on the two smileys: two files. *)
Lemma download_smileys_report_witness :
  download_report (fun _ => Some [71; 73; 70]%N)
    (Sink.in_dir (lit "out") (lit "smileys")) smiley_urls ∅
    (Download.mkTally 2 0 0
       {[ lit "out/smileys/01.gif"; lit "out/smileys/01_72ee1f3d.gif" ]}
       [(lit "out/smileys/01.gif", [71; 73; 70]%N);
        (lit "out/smileys/01_72ee1f3d.gif", [71; 73; 70]%N)]).
Proof.
  apply (download_smileys_report (fun _ => Some [71; 73; 70]%N) (lit "out")
           smiley_urls ∅).
  vm_compute. reflexivity.
Defined.
